(** * Meeting assistant: record store, summarization pipeline, orchestrator

    A shallow embedding of [meeting_assistant/database.py],
    [meeting_assistant/summarizer.py], [meeting_assistant/transcriber.py] and
    the [_process_audio] pipeline of [meeting_assistant/app.py], followed by
    the properties of the record lifecycle and of the summarization
    contract.

    Conventions.
    - A Python [str] is the list of its code points ([N]).
    - Code that may raise returns a [result]; the exception is a value.
    - The SQLite table is a finite map from rowid to row, together with the
      AUTOINCREMENT counter kept in [sqlite_sequence].
    - The chat endpoint, the speech engine, the audio probe and the clock
      are oracles: section variables of the code that calls them.
    - Left out: failures of the storage medium, and the value of a JSON
      float (kept as its text).  The nesting [json.loads] can follow is
      bounded by the recursion limit, where the interpreter also counts the
      calls in progress. *)

From Stdlib Require Import String Ascii ZArith NArith QArith Lia.
From stdpp Require Import base option list gmap sorting.

Local Open Scope N_scope.

(** ** Python values used by the program *)

Module Py.

Abbreviation char := N (only parsing).
Abbreviation str := (list N) (only parsing).

(** A code point of well-formed text is a Unicode scalar value: below
    0x110000 and not a surrogate. *)
Definition is_scalar (c : char) : bool :=
  (c <? 1114112) && negb ((55296 <=? c) && (c <=? 57343)).

Definition well_formed (s : str) : Prop := forallb is_scalar s = true.

(** A literal written in ASCII. *)
Definition lit (s : string) : str := map N_of_ascii (list_ascii_of_string s).

Definition NL : char := 10.
Definition SPACE : char := 32.

Inductive exn :=
| JSONDecodeError
| RecursionError
| ValidationError
| EngineError
| ValueError
| OverflowError
| OperationalError.

Inductive result (A : Type) :=
| Ok (a : A)
| Raise (e : exn).
Arguments Ok {A} a.
Arguments Raise {A} e.

(** [str.isspace] on one character: the characters [str.split()] and
    [str.strip()] treat as whitespace. *)
Definition isspace (c : char) : bool :=
  ((9 <=? c) && (c <=? 13)) || ((28 <=? c) && (c <=? 32))
  || (c =? 133) || (c =? 160) || (c =? 5760)
  || ((8192 <=? c) && (c <=? 8202))
  || (c =? 8232) || (c =? 8233) || (c =? 8239) || (c =? 8287)
  || (c =? 12288).

Definition flush (cur : str) : list str :=
  match cur with [] => [] | _ => [cur] end.

(** [s.split()]: the maximal runs of non-whitespace characters, [cur]
    being the word read so far. *)
Fixpoint split_go (cur : str) (s : str) : list str :=
  match s with
  | [] => flush cur
  | c :: s' =>
      if isspace c then flush cur ++ split_go [] s'
      else split_go (cur ++ [c]) s'
  end.

Definition split (s : str) : list str := split_go [] s.

(** [s.split(sep)] for a one-character separator. *)
Fixpoint split_on_go (sep : char) (cur : str) (s : str) : list str :=
  match s with
  | [] => [cur]
  | c :: s' =>
      if c =? sep then cur :: split_on_go sep [] s'
      else split_on_go sep (cur ++ [c]) s'
  end.

Definition split_on (sep : char) (s : str) : list str := split_on_go sep [] s.

(** [sep.join(l)] *)
Fixpoint join (sep : str) (l : list str) : str :=
  match l with
  | [] => []
  | [w] => w
  | w :: l' => w ++ sep ++ join sep l'
  end.

Fixpoint lstrip_by (p : char -> bool) (s : str) : str :=
  match s with
  | [] => []
  | c :: s' => if p c then lstrip_by p s' else s
  end.

Definition rstrip_by (p : char -> bool) (s : str) : str :=
  rev (lstrip_by p (rev s)).

(** [s.strip()] *)
Definition strip (s : str) : str := rstrip_by isspace (lstrip_by isspace s).

Definition mem (c : char) (chars : str) : bool := existsb (N.eqb c) chars.

(** [s.lstrip(chars)] *)
Definition lstrip (chars : str) (s : str) : str :=
  lstrip_by (fun c => mem c chars) s.

(** [s.startswith(p)] *)
Fixpoint startswith (p s : str) : bool :=
  match p, s with
  | [], _ => true
  | _ :: _, [] => false
  | a :: p', b :: s' => (a =? b) && startswith p' s'
  end.

(** [s.startswith((p1, ..., pn))] *)
Definition startswith_any (ps : list str) (s : str) : bool :=
  existsb (fun p => startswith p s) ps.

(** [s.find(sub)]: index of the first occurrence, [-1] when there is none. *)
Fixpoint find_from (i : Z) (sub s : str) : Z :=
  if startswith sub s then i
  else match s with
       | [] => (-1)%Z
       | _ :: s' => find_from (i + 1)%Z sub s'
       end.

Definition find (sub s : str) : Z := find_from 0%Z sub s.

(** [s.rfind(sub)]: index of the last occurrence, [-1] when there is none. *)
Fixpoint rfind_from (i : Z) (sub s : str) : Z :=
  match s with
  | [] => if startswith sub s then i else (-1)%Z
  | _ :: s' =>
      let later := rfind_from (i + 1)%Z sub s' in
      if (0 <=? later)%Z then later
      else if startswith sub s then i else (-1)%Z
  end.

Definition rfind (sub s : str) : Z := rfind_from 0%Z sub s.

(** [s[a:b]] for [0 <= a] and [0 <= b]. *)
Definition slice (a b : Z) (s : str) : str :=
  take (Z.to_nat b - Z.to_nat a)%nat (drop (Z.to_nat a) s).

(** [s.replace(old, new)] for a non-empty [old]: occurrences are replaced
    from the left and do not overlap; [skip] counts the characters of a
    replaced occurrence still to pass. *)
Fixpoint replace_go (old new : str) (skip : nat) (s : str) : str :=
  match s with
  | [] => []
  | c :: s' =>
      match skip with
      | S k => replace_go old new k s'
      | O =>
          if startswith old s
          then new ++ replace_go old new (length old - 1)%nat s'
          else c :: replace_go old new O s'
      end
  end.

Definition replace (old new : str) (s : str) : str := replace_go old new O s.

(** Truthiness of a string: [if s] *)
Definition truthy (s : str) : bool :=
  match s with [] => false | _ => true end.


(** A word: a non-empty string without whitespace *)
Definition nospace (w : str) : Prop := Forall (fun c => isspace c = false) w.
Definition word (w : str) : Prop := w <> [] /\ nospace w.

End Py.

(** ** The [json] module: [json.dumps] on a list of strings, [json.loads] *)

Module Json.
Import Py.

(** What [json.loads] can return.  A float is kept as the text it was read
    from; an object keeps one binding per key, as a [dict] does. *)
#[warnings="-register-all"]
Inductive value :=
| JNull
| JBool (b : bool)
| JInt (z : Z)
| JFloat (lexeme : str)
| JStr (s : str)
| JArr (items : list value)
| JObj (members : list (str * value)).

(** *** Encoding ([ensure_ascii=True], the default) *)

Definition hex_digit (d : N) : char := if d <? 10 then 48 + d else 87 + d.

(** ['\\u{0:04x}'.format(n)] *)
Definition u_escape (n : N) : str :=
  [92; 117; hex_digit (n / 4096 mod 16); hex_digit (n / 256 mod 16);
   hex_digit (n / 16 mod 16); hex_digit (n mod 16)].

(** The replacement [encode_basestring_ascii] makes for one character. *)
Definition escape_char (c : char) : str :=
  if c =? 34 then [92; 34]
  else if c =? 92 then [92; 92]
  else if c =? 10 then [92; 110]
  else if c =? 13 then [92; 114]
  else if c =? 9 then [92; 116]
  else if c =? 8 then [92; 98]
  else if c =? 12 then [92; 102]
  else if (32 <=? c) && (c <=? 126) then [c]
  else if c <? 65536 then u_escape c
  else
    let n := c - 65536 in
    u_escape (N.lor 55296 (N.land (N.shiftr n 10) 1023))
    ++ u_escape (N.lor 56320 (N.land n 1023)).

Definition encode_basestring_ascii (s : str) : str :=
  [34] ++ flat_map escape_char s ++ [34].

(** The default item separator, [", "] *)
Definition ITEM_SEPARATOR : str := [44; 32].

(** [json.dumps(l)] for [l : list[str]], with the default separators. *)
Definition dumps (l : list str) : str :=
  [91] ++ join ITEM_SEPARATOR (map encode_basestring_ascii l) ++ [93].

(** *** Decoding *)

(** What a scan gives: a value and the rest of the input; [Failed], which
    [json.loads] reports as [JSONDecodeError]; [Raised e] for an error of
    another class, which [json.loads] lets through; [NoFuel] when the model
    runs out of steps. *)
Inductive scan (A : Type) :=
| Scanned (a : A) (rest : str)
| Failed
| NoFuel
| Raised (e : exn).
Arguments Scanned {A} a rest.
Arguments Failed {A}.
Arguments NoFuel {A}.
Arguments Raised {A} e.

Definition is_ws (c : char) : bool :=
  (c =? 32) || (c =? 9) || (c =? 10) || (c =? 13).

Definition skip_ws (s : str) : str := lstrip_by is_ws s.

Definition hex_val (c : char) : option N :=
  if (48 <=? c) && (c <=? 57) then Some (c - 48)
  else if (97 <=? c) && (c <=? 102) then Some (c - 87)
  else if (65 <=? c) && (c <=? 70) then Some (c - 55)
  else None.

(** [_decode_uXXXX]: four hexadecimal digits *)
Definition hex4 (s : str) : option (N * str) :=
  match s with
  | a :: b :: c :: d :: rest =>
      match hex_val a, hex_val b, hex_val c, hex_val d with
      | Some x, Some y, Some z, Some w =>
          Some (((x * 16 + y) * 16 + z) * 16 + w, rest)
      | _, _, _, _ => None
      end
  | _ => None
  end.

(** The [BACKSLASH] table *)
Definition unescape (e : char) : option char :=
  if e =? 34 then Some 34
  else if e =? 92 then Some 92
  else if e =? 47 then Some 47
  else if e =? 98 then Some 8
  else if e =? 102 then Some 12
  else if e =? 110 then Some 10
  else if e =? 114 then Some 13
  else if e =? 116 then Some 9
  else None.

Definition is_high (u : N) : bool := (55296 <=? u) && (u <=? 56319).
Definition is_low (u : N) : bool := (56320 <=? u) && (u <=? 57343).

(** What follows a [\uXXXX] escape of value [uni]: the character it stands
    for and the rest of the input.  A high surrogate followed by the
    escape of a low surrogate is joined with it. *)
Definition after_u (uni : N) (s : str) : option (char * str) :=
  if is_high uni && startswith [92; 117] s then
    match hex4 (drop 2 s) with
    | None => None
    | Some (uni2, s') =>
        if is_low uni2
        then Some (65536 + N.lor (N.shiftl (uni - 55296) 10) (uni2 - 56320), s')
        else Some (uni, s)
    end
  else Some (uni, s).

(** [scanstring] in strict mode, from just after the opening quote. *)
Fixpoint scanstring (fuel : nat) (acc : str) (s : str) : scan str :=
  match s with
  | [] => Failed
  | c :: s1 =>
      match fuel with
      | O => NoFuel
      | S f =>
          if c =? 34 then Scanned acc s1
          else if c =? 92 then
            match s1 with
            | [] => Failed
            | e :: s2 =>
                if e =? 117 then
                  match hex4 s2 with
                  | None => Failed
                  | Some (uni, s3) =>
                      match after_u uni s3 with
                      | None => Failed
                      | Some (ch, s4) => scanstring f (acc ++ [ch]) s4
                      end
                  end
                else
                  match unescape e with
                  | None => Failed
                  | Some ch => scanstring f (acc ++ [ch]) s2
                  end
            end
          else if c <? 32 then Failed
          else scanstring f (acc ++ [c]) s1
      end
  end.

Definition is_digit (c : char) : bool := (48 <=? c) && (c <=? 57).

Fixpoint span (p : char -> bool) (s : str) : str * str :=
  match s with
  | [] => ([], [])
  | c :: s' =>
      if p c then let (a, b) := span p s' in (c :: a, b) else ([], s)
  end.

(** [NUMBER_RE], group by group: an optional minus sign and either [0] or
    a non-zero digit followed by digits; optionally a dot and at least one
    digit; optionally [e] or [E], an optional sign and at least one
    digit. *)
Definition digits_part (s : str) : option (str * str) :=
  match s with
  | c :: t =>
      if c =? 48 then Some ([48], t)
      else if is_digit c then let (ds, r) := span is_digit t in Some (c :: ds, r)
      else None
  | [] => None
  end.

Definition int_part (s : str) : option (str * str) :=
  match s with
  | c :: t =>
      if c =? 45 then
        match digits_part t with
        | Some (ds, r) => Some (45 :: ds, r)
        | None => None
        end
      else digits_part s
  | [] => None
  end.

Definition frac_part (s : str) : str * str :=
  match s with
  | c :: t =>
      if c =? 46 then
        match span is_digit t with
        | ([], _) => ([], s)
        | (ds, r) => (46 :: ds, r)
        end
      else ([], s)
  | [] => ([], s)
  end.

Definition exp_digits (pre : str) (t s : str) : str * str :=
  match span is_digit t with
  | ([], _) => ([], s)
  | (ds, r) => (pre ++ ds, r)
  end.

Definition exp_part (s : str) : str * str :=
  match s with
  | c :: t =>
      if (c =? 101) || (c =? 69) then
        match t with
        | sg :: t' =>
            if (sg =? 45) || (sg =? 43) then exp_digits [c; sg] t' s
            else exp_digits [c] t s
        | [] => ([], s)
        end
      else ([], s)
  | [] => ([], s)
  end.

Definition decimal (ds : str) : Z :=
  fold_left (fun a d => (a * 10 + (Z.of_N d - 48))%Z) ds 0%Z.

Definition int_of (lexeme : str) : Z :=
  match lexeme with
  | c :: ds => if c =? 45 then (- decimal ds)%Z else decimal lexeme
  | [] => 0%Z
  end.

(** [sys.get_int_max_str_digits()], as the interpreter starts *)
Definition INT_MAX_STR_DIGITS : nat := 4300.

(** The digits of an integer literal, its sign apart *)
Definition digit_count (lexeme : str) : nat :=
  match lexeme with
  | c :: ds => if c =? 45 then length ds else length lexeme
  | [] => O
  end.

(** [int(integer)]: a literal of more digits than the limit is refused
    with [ValueError]. *)
Definition parse_int (lexeme : str) : result Z :=
  if (INT_MAX_STR_DIGITS <? digit_count lexeme)%nat
  then Raise ValueError else Ok (int_of lexeme).

Definition match_number (s : str) : option (result value * str) :=
  match int_part s with
  | None => None
  | Some (i, r1) =>
      let (f, r2) := frac_part r1 in
      let (e, r3) := exp_part r2 in
      match f, e with
      | [], [] =>
          Some (match parse_int i with
                | Ok z => Ok (JInt z)
                | Raise x => Raise x
                end, r3)
      | _, _ => Some (Ok (JFloat (i ++ f ++ e)), r3)
      end
  end.

Definition str_eqb (a b : str) : bool := bool_decide (a = b).

(** [d[k] = v] on the bindings read so far *)
Fixpoint dict_set (k : str) (v : value) (d : list (str * value))
  : list (str * value) :=
  match d with
  | [] => [(k, v)]
  | (k', v') :: d' =>
      if str_eqb k k' then (k, v) :: d' else (k', v') :: dict_set k v d'
  end.

(** The loop of [JSONArray], [s] standing at an element. *)
Fixpoint parse_array (scan_value : str -> scan value) (n : nat)
    (acc : list value) (s : str) : scan (list value) :=
  match n with
  | O => NoFuel
  | S n' =>
      match scan_value s with
      | Scanned v r =>
          match skip_ws r with
          | c :: r' =>
              if c =? 93 then Scanned (acc ++ [v]) r'
              else if c =? 44 then
                parse_array scan_value n' (acc ++ [v]) (skip_ws r')
              else Failed
          | [] => Failed
          end
      | Failed => Failed
      | NoFuel => NoFuel
      | Raised e => Raised e
      end
  end.

(** The loop of [JSONObject], [s] standing where a key must open. *)
Fixpoint parse_object (scan_value : str -> scan value) (n : nat)
    (acc : list (str * value)) (s : str) : scan (list (str * value)) :=
  match n with
  | O => NoFuel
  | S n' =>
      match s with
      | q :: s1 =>
          if q =? 34 then
            match scanstring (length s1) [] s1 with
            | Scanned key r =>
                match skip_ws r with
                | c :: r1 =>
                    if c =? 58 then
                      match scan_value (skip_ws r1) with
                      | Scanned v r2 =>
                          match skip_ws r2 with
                          | c' :: r3 =>
                              if c' =? 125 then Scanned (dict_set key v acc) r3
                              else if c' =? 44 then
                                parse_object scan_value n' (dict_set key v acc)
                                  (skip_ws r3)
                              else Failed
                          | [] => Failed
                          end
                      | Failed => Failed
                      | NoFuel => NoFuel
                      | Raised e => Raised e
                      end
                    else Failed
                | [] => Failed
                end
            | Failed => Failed
            | NoFuel => NoFuel
            | Raised e => Raised e
            end
          else Failed
      | [] => Failed
      end
  end.

Definition scan_map {A B} (f : A -> B) (r : scan A) : scan B :=
  match r with
  | Scanned a rest => Scanned (f a) rest
  | Failed => Failed
  | NoFuel => NoFuel
  | Raised e => Raised e
  end.

Definition constant (name : string) (v : value) (s : str)
  : option (result value * str) :=
  if startswith (lit name) s
  then Some (Ok v, drop (String.length name) s) else None.

Definition first_of {A} (a b : option A) : option A :=
  match a with Some _ => a | None => b end.

(** The literals and numbers [scan_once] tries, in its order. *)
Definition scan_atom (s : str) : scan value :=
  match
    first_of (constant "null" JNull s)
   (first_of (constant "true" (JBool true) s)
   (first_of (constant "false" (JBool false) s)
   (first_of (match_number s)
   (first_of (constant "NaN" (JFloat (lit "NaN")) s)
   (first_of (constant "Infinity" (JFloat (lit "Infinity")) s)
             (constant "-Infinity" (JFloat (lit "-Infinity")) s))))))
  with
  | Some (Ok v, r) => Scanned v r
  | Some (Raise e, _) => Raised e
  | None => Failed
  end.

(** [scan_once]: one JSON value at the head of [s].  Entering an object
    or an array is a nested call of the interpreter: [depth] is the number
    of such calls still allowed, and with none left the scan ends in
    [RecursionError].  [fuel] bounds the steps of the model. *)
Fixpoint scan_once (fuel depth : nat) (s : str) : scan value :=
  match s with
  | [] => Failed
  | c :: s' =>
      match fuel with
      | O => NoFuel
      | S f =>
          if c =? 34 then scan_map JStr (scanstring (length s') [] s')
          else if c =? 123 then
            match depth with
            | O => Raised RecursionError
            | S depth' =>
                match skip_ws s' with
                | c' :: r =>
                    if c' =? 125 then Scanned (JObj []) r
                    else scan_map JObj
                           (parse_object (scan_once f depth') (S f) [] (c' :: r))
                | [] => Failed
                end
            end
          else if c =? 91 then
            match depth with
            | O => Raised RecursionError
            | S depth' =>
                match skip_ws s' with
                | c' :: r =>
                    if c' =? 93 then Scanned (JArr []) r
                    else scan_map JArr
                           (parse_array (scan_once f depth') (S f) [] (c' :: r))
                | [] => Failed
                end
            end
          else scan_atom s
      end
  end.

(** [json.loads(s)] called where [depth] nested calls are still allowed.
    The steps of the model are bounded by fuel; the length of the input is
    fuel enough ([scan_once_shrinks]), so [NoFuel] is never the outcome. *)
Definition loads_at (depth : nat) (s : str) : result value :=
  if startswith [65279] s then Raise JSONDecodeError
  else
    let s0 := skip_ws s in
    match scan_once (length s0) depth s0 with
    | Scanned v r =>
        match skip_ws r with
        | [] => Ok v
        | _ :: _ => Raise JSONDecodeError
        end
    | Failed => Raise JSONDecodeError
    | NoFuel => Raise RecursionError
    | Raised e => Raise e
    end.

(** [sys.getrecursionlimit()], as the interpreter starts.  The nesting
    [json.loads] can follow is this limit less the calls in progress when
    it is called, which depend on the caller; the model grants the whole
    limit.  No property below depends on its value beyond its being
    positive: a text nested more deeply than the calls left allow ends in
    [RecursionError], here as in the interpreter. *)
Definition RECURSION_LIMIT : nat := 1000.

(** [json.loads(s)] *)
Definition loads (s : str) : result value := loads_at RECURSION_LIMIT s.

(** A scan that had enough fuel: it did not run out, and it left less than
    it was given. *)
Definition shrinks {A} (r : scan A) (s : str) : Prop :=
  match r with
  | Scanned _ rest => (length rest < length s)%nat
  | Failed => True
  | NoFuel => False
  | Raised _ => True
  end.

End Json.

(** ** [database.py] *)

Module Database.
Import Py Json.

(** [class Meeting(BaseModel)] *)
Record Meeting := {
  id : option Z;
  title : str;
  date : str;
  transcript : str;
  summary : str;
  key_points : list str;
  action_items : list str;
  audio_path : str
}.

Definition set_id (m : Meeting) (i : option Z) : Meeting :=
  {| id := i; title := title m; date := date m; transcript := transcript m;
     summary := summary m; key_points := key_points m;
     action_items := action_items m; audio_path := audio_path m |}.

Definition set_title (m : Meeting) (t : str) : Meeting :=
  {| id := id m; title := t; date := date m; transcript := transcript m;
     summary := summary m; key_points := key_points m;
     action_items := action_items m; audio_path := audio_path m |}.

(** The validation pydantic runs on a [list[str]] field: a list whose
    items are all strings passes unchanged, anything else is rejected. *)
Fixpoint all_str (items : list value) : option (list str) :=
  match items with
  | [] => Some []
  | JStr s :: items' =>
      match all_str items' with
      | Some l => Some (s :: l)
      | None => None
      end
  | _ :: _ => None
  end.

Definition validate_str_list (v : value) : result (list str) :=
  match v with
  | JArr items =>
      match all_str items with
      | Some l => Ok l
      | None => Raise ValidationError
      end
  | _ => Raise ValidationError
  end.

(** The columns of a row of [meetings] other than its rowid [id]; all of
    them are TEXT. *)
Record columns := {
  c_title : str;
  c_date : str;
  c_transcript : str;
  c_summary : str;
  c_key_points : str;
  c_action_items : str;
  c_audio_path : str
}.

(** The database file: the table, keyed by rowid, and the counter that
    AUTOINCREMENT keeps in [sqlite_sequence]. *)
Record db := {
  rows : gmap Z columns;
  sequence : Z
}.

(** [_init_db] on a path that holds no database yet *)
Definition init_db : db := {| rows := ∅; sequence := 0 |}.

Definition row_count (d : db) : nat := size (rows d).

(** The seven values bound by INSERT and by UPDATE *)
Definition values_of (m : Meeting) : columns :=
  {| c_title := title m;
     c_date := date m;
     c_transcript := transcript m;
     c_summary := summary m;
     c_key_points := dumps (key_points m);
     c_action_items := dumps (action_items m);
     c_audio_path := audio_path m |}.

Definition largest_rowid (t : gmap Z columns) : Z :=
  map_fold (fun k _ acc => Z.max k acc) 0%Z t.

(** INSERT INTO meetings (...) VALUES (...): AUTOINCREMENT takes one more
    than the largest rowid the table has ever held. *)
Definition sql_insert (c : columns) (d : db) : Z * db :=
  let rowid := (Z.max (largest_rowid (rows d)) (sequence d) + 1)%Z in
  (rowid, {| rows := <[rowid := c]> (rows d); sequence := rowid |}).

(** UPDATE meetings SET ... WHERE id=? *)
Definition sql_update (i : Z) (c : columns) (d : db) : db :=
  {| rows := alter (fun _ => c) i (rows d); sequence := sequence d |}.

(** DELETE FROM meetings WHERE id = ? *)
Definition sql_delete (i : Z) (d : db) : db :=
  {| rows := delete i (rows d); sequence := sequence d |}.

(** [x or 0] on an integer *)
Definition or_zero (x : Z) : Z := if (x =? 0)%Z then 0%Z else x.

(** [save_meeting], its parameters bound: the identifier returned, the
    caller's record as the call leaves it, and the database.  The binding
    of the parameters, which can fail, is in [MeetingDatabase] below. *)
Definition save_meeting (meeting : Meeting) (d : db) : Z * Meeting * db :=
  match id meeting with
  | None =>
      let (lastrowid, d') := sql_insert (values_of meeting) d in
      let meeting' := set_id meeting (Some (or_zero lastrowid)) in
      (or_zero lastrowid, meeting', d')
  | Some i => (i, meeting, sql_update i (values_of meeting) d)
  end.

(** [_row_to_meeting] *)
Definition _row_to_meeting (i : Z) (row : columns) : result Meeting :=
  match loads (c_key_points row) with
  | Raise e => Raise e
  | Ok kp =>
      match loads (c_action_items row) with
      | Raise e => Raise e
      | Ok ai =>
          match validate_str_list kp with
          | Raise e => Raise e
          | Ok kp' =>
              match validate_str_list ai with
              | Raise e => Raise e
              | Ok ai' =>
                  Ok {| id := Some i;
                        title := c_title row;
                        date := c_date row;
                        transcript := c_transcript row;
                        summary := c_summary row;
                        key_points := kp';
                        action_items := ai';
                        audio_path := c_audio_path row |}
              end
          end
      end
  end.

(** [get_meeting], its parameter bound *)
Definition get_meeting (meeting_id : Z) (d : db) : result (option Meeting) :=
  match rows d !! meeting_id with
  | None => Ok None
  | Some row =>
      match _row_to_meeting meeting_id row with
      | Ok m => Ok (Some m)
      | Raise e => Raise e
      end
  end.

(** [delete_meeting], its parameter bound: what is returned, and the
    database. *)
Definition delete_meeting (meeting_id : Z) (d : db) : option str * db :=
  match rows d !! meeting_id with
  | None => (None, d)
  | Some row => (Some (c_audio_path row), sql_delete meeting_id d)
  end.

(** Comparison of TEXT values under the BINARY collation: on well-formed
    text the order of the UTF-8 bytes is the order of the code points. *)
Fixpoint str_compare (a b : str) : comparison :=
  match a, b with
  | [], [] => Eq
  | [], _ :: _ => Lt
  | _ :: _, [] => Gt
  | x :: a', y :: b' =>
      match N.compare x y with
      | Eq => str_compare a' b'
      | c => c
      end
  end.

(** ORDER BY date DESC.  SQL leaves the order of rows with equal dates
    open; here they come in rowid order. *)
Definition date_desc (a b : Z * columns) : bool :=
  match str_compare (c_date a.2) (c_date b.2) with
  | Gt => true
  | Eq => (a.1 <=? b.1)%Z
  | Lt => false
  end.

Definition newest_first : relation (Z * columns) :=
  fun a b => date_desc a b = true.

#[global] Instance newest_first_dec (a b : Z * columns) :
  Decision (newest_first a b) := decide (date_desc a b = true).

Definition order_by_date_desc (l : list (Z * columns)) : list (Z * columns) :=
  merge_sort newest_first l.

(** ASCII letters compare without case in LIKE. *)
Definition lower (c : char) : char :=
  if (65 <=? c) && (c <=? 90) then c + 32 else c.

(** [patternCompare] with the defaults of LIKE, on a pattern and a text
    as SQLite hands them over, up to their terminating NUL: [%] stands for
    any run of characters, [_] for any one character, and there is no
    escape character. *)
Fixpoint patternCompare (pat text : str) : bool :=
  match pat with
  | [] => match text with [] => true | _ :: _ => false end
  | p :: pat' =>
      if p =? 37 then
        (fix any (t : str) : bool :=
           patternCompare pat' t
           || match t with [] => false | _ :: t' => any t' end)
          text
      else
        match text with
        | [] => false
        | c :: text' =>
            ((p =? 95) || (lower p =? lower c)) && patternCompare pat' text'
        end
  end.

(** [sqlite3_value_text]: a TEXT value read as a NUL-terminated string
    ends at its first NUL character. *)
Fixpoint c_string (s : str) : str :=
  match s with
  | [] => []
  | c :: s' => if c =? 0 then [] else c :: c_string s'
  end.

(** [sqlite3_value_bytes]: the length of well-formed text in UTF-8 *)
Definition utf8_bytes (c : char) : N :=
  if c <? 128 then 1 else if c <? 2048 then 2 else if c <? 65536 then 3 else 4.

Definition utf8_length (s : str) : N :=
  fold_right (fun c n => utf8_bytes c + n) 0 s.

(** SQLITE_MAX_LIKE_PATTERN_LENGTH *)
Definition LIKE_PATTERN_LENGTH : N := 50000.

(** The guard of [likeFunc]: a pattern of more bytes is refused ("LIKE or
    GLOB pattern too complex"). *)
Definition pattern_too_long (pat : str) : bool :=
  LIKE_PATTERN_LENGTH <? utf8_length pat.

(** [text LIKE pat], for a pattern [likeFunc] accepts *)
Definition like (pat text : str) : bool :=
  patternCompare (c_string pat) (c_string text).

(** WHERE title LIKE ? OR transcript LIKE ? OR summary LIKE ? *)
Definition where_like (pat : str) (row : Z * columns) : bool :=
  like pat (c_title row.2) || like pat (c_transcript row.2)
  || like pat (c_summary row.2).

(** [[self._row_to_meeting(row) for row in rows]] *)
Fixpoint to_meetings (l : list (Z * columns)) : result (list Meeting) :=
  match l with
  | [] => Ok []
  | (i, row) :: l' =>
      match _row_to_meeting i row with
      | Raise e => Raise e
      | Ok m =>
          match to_meetings l' with
          | Raise e => Raise e
          | Ok ms => Ok (m :: ms)
          end
      end
  end.

(** SELECT * FROM meetings ORDER BY date DESC *)
Definition select_all (d : db) : list (Z * columns) :=
  order_by_date_desc (map_to_list (rows d)).

(** SELECT * FROM meetings WHERE ... ORDER BY date DESC *)
Definition select_like (pat : str) (d : db) : list (Z * columns) :=
  order_by_date_desc (filter (fun r => where_like pat r = true) (map_to_list (rows d))).

(** [get_all_meetings] *)
Definition get_all_meetings (d : db) : result (list Meeting) :=
  to_meetings (select_all d).

(** [search_meetings].  The WHERE clause is evaluated on every row scanned,
    its first LIKE first: with a pattern over the limit the statement fails
    on the first row ([sqlite3.OperationalError]), so it fails unless the
    table is empty. *)
Definition search_meetings (query : str) (d : db) : result (list Meeting) :=
  let pat := [37] ++ query ++ [37] in
  if pattern_too_long pat && negb (bool_decide (rows d = ∅))
  then Raise OperationalError
  else to_meetings (select_like pat d).

(** *** Vocabulary of the properties *)

(** The list fields of a record hold well-formed text. *)
Definition valid_lists (m : Meeting) : Prop :=
  Forall well_formed (key_points m) /\ Forall well_formed (action_items m).

(** The states of the database file that the program produces. *)
Inductive reachable : db -> Prop :=
| reach_init : reachable init_db
| reach_save m d : reachable d -> valid_lists m -> reachable (save_meeting m d).2
| reach_delete i d : reachable d -> reachable (delete_meeting i d).2.

(** Every row is what [save_meeting] writes for some record. *)
Definition decodable (d : db) : Prop :=
  forall i row, rows d !! i = Some row ->
    exists m, valid_lists m /\ row = values_of m.




(** [q] holds no NUL character *)
Definition nul_free (q : str) : Prop := Forall (fun c => c <> 0) q.

(** [q] between two [%] is a pattern LIKE accepts *)
Definition searchable (q : str) : Prop :=
  pattern_too_long ([37] ++ q ++ [37]) = false.




(** [a] is dated no earlier than [b] *)
Definition date_ge (a b : Meeting) : Prop :=
  str_compare (date a) (date b) <> Lt.

End Database.

(** ** The methods of [MeetingDatabase] as they are called *)

Module MeetingDatabase.
Import Py Json Database.

(** sqlite3 binds a Python [int] as a signed 64-bit INTEGER. *)
Definition fits_int64 (i : Z) : bool :=
  (-9223372036854775808 <=? i)%Z && (i <=? 9223372036854775807)%Z.

(** Running a statement that has [i] among its parameters: an [int] that
    does not fit is refused before the statement runs ([OverflowError],
    "Python int too large to convert to SQLite INTEGER"). *)
Definition bind_int {A} (i : Z) (run : A) : result A :=
  if fits_int64 i then Ok run else Raise OverflowError.

(** [save_meeting]: INSERT binds no identifier, UPDATE binds
    [meeting.id]. *)
Definition save_meeting (meeting : Meeting) (d : db)
  : result (Z * Meeting * db) :=
  match id meeting with
  | None => Ok (Database.save_meeting meeting d)
  | Some i => bind_int i (Database.save_meeting meeting d)
  end.

(** [get_meeting] *)
Definition get_meeting (meeting_id : Z) (d : db) : result (option Meeting) :=
  match bind_int meeting_id (Database.get_meeting meeting_id d) with
  | Ok r => r
  | Raise e => Raise e
  end.

(** [delete_meeting] *)
Definition delete_meeting (meeting_id : Z) (d : db)
  : result (option str * db) :=
  bind_int meeting_id (Database.delete_meeting meeting_id d).

End MeetingDatabase.

(** ** [summarizer.py] *)

Module Summarizer.
Import Py Json.

(** A request to the chat endpoint: the system prompt and the user message. *)
Abbreviation request := (list N * list N)%type (only parsing).

(** Code that talks to the endpoint: it may raise, and it extends the log of
    the requests sent so far. *)
Definition M (A : Type) : Type := list request -> result A * list request.

Definition ret {A} (a : A) : M A := fun log => (Ok a, log).

Definition bind {A B} (m : M A) (k : A -> M B) : M B :=
  fun log =>
    match m log with
    | (Ok a, log') => k a log'
    | (Raise e, log') => (Raise e, log')
    end.

Notation "x <- m ;; k" := (bind m (fun x => k))
  (at level 100, m at next level, right associativity).

(** [[f(c) for c in l]] *)
Fixpoint for_each {A B} (f : A -> M B) (l : list A) : M (list B) :=
  match l with
  | [] => ret []
  | a :: l' => b <- f a ;; bs <- for_each f l' ;; ret (b :: bs)
  end.

(** [range(0, stop, step)] for a positive [step] *)
Fixpoint range_from (count start step : nat) : list nat :=
  match count with
  | O => []
  | S k => start :: range_from k (start + step) step
  end.

Definition range (stop step : nat) : list nat :=
  range_from ((stop + step - 1) / step)%nat O step.

Definition MAX_WORDS : nat := 800.

(** [_chunk_transcript]; [max_words] is positive (the source only ever
    uses the default, 800). *)
Definition _chunk_transcript (text : str) (max_words : nat) : list str :=
  let words := split text in
  map (fun i => join [SPACE] (take max_words (drop i words)))
      (range (length words) max_words).

Definition FENCE_JSON : str := lit "```json".
Definition FENCE : str := lit "```".
Definition BULLETS : str := [8226] ++ lit "-*0123456789. " ++ [34].

Definition CODE_PREFIXES : list str :=
  [lit "import"; lit "def "; lit "for "; lit "action_"; lit "meeting_";
   lit "#"; lit "json"; lit "print"].

Definition is_bracket_line (s : str) : bool :=
  str_eqb s (lit "[") || str_eqb s (lit "]").

(** The list comprehension of the [except] branch *)
Definition fallback_lines (response : str) : list str :=
  map (fun line => lstrip BULLETS (strip line))
      (filter (fun line =>
                 truthy (strip line)
                 && negb (is_bracket_line (strip line))
                 && negb (startswith_any CODE_PREFIXES (strip line)) = true)
              (split_on NL response)).

(** The text handed to [json.loads] *)
Definition cleaned_response (response : str) : str :=
  let cleaned := strip response in
  let cleaned := strip (replace FENCE [] (replace FENCE_JSON [] cleaned)) in
  let start := find (lit "[") cleaned in
  let stop := (rfind (lit "]") cleaned + 1)%Z in
  if negb (start =? -1)%Z && (start <? stop)%Z
  then slice start stop cleaned
  else cleaned.

(** [_parse_json_list]: only [json.JSONDecodeError] is caught. *)
Definition _parse_json_list (response : str) : result value :=
  match loads (cleaned_response response) with
  | Ok v => Ok v
  | Raise JSONDecodeError => Ok (JArr (map JStr (fallback_lines response)))
  | Raise e => Raise e
  end.

Definition SUMMARY_PROMPT : str :=
  lit "You are a professional meeting notes assistant. "
  ++ lit "Generate a clear, concise summary of the meeting transcript. "
  ++ lit "Focus on decisions made, topics discussed, and overall outcomes. "
  ++ lit "Write in a professional tone using past tense.".

Definition list_prompt (example1 example2 task : string) : str :=
  lit "OUTPUT FORMAT: JSON array only. Example: ["
  ++ [34] ++ lit example1 ++ [34] ++ lit ", " ++ [34] ++ lit example2 ++ [34]
  ++ lit "]" ++ [NL]
  ++ lit "RULES: No code. No explanation. No markdown. No imports. No variables."
  ++ [NL] ++ lit task.

Definition KEY_POINTS_PROMPT : str :=
  list_prompt "Point 1" "Point 2"
    "TASK: Extract the most important key points from the meeting transcript below.".

Definition ACTION_ITEMS_PROMPT : str :=
  list_prompt "Action 1" "Action 2"
    "TASK: Extract all action items and follow-ups from the meeting transcript below.".

Definition TITLE_PROMPT : str :=
  lit "OUTPUT FORMAT: Plain text title only, max 10 words." ++ [NL]
  ++ lit "RULES: No code. No explanation. No markdown. No quotes." ++ [NL]
  ++ lit "TASK: Generate a short descriptive title for the meeting transcript below.".

Definition QA_PROMPT : str :=
  lit "You are a professional meeting notes assistant. "
  ++ lit "Answer the user's question based ONLY on the meeting transcript provided. "
  ++ lit "If the answer is not in the transcript, say so clearly.".

(** [f"Meeting transcript:\n\n{t}"] *)
Definition transcript_message (t : str) : str :=
  lit "Meeting transcript:" ++ [NL; NL] ++ t.

(** [" ".join(transcript.split()[:800])] *)
Definition truncate (transcript : str) : str :=
  join [SPACE] (take 800 (split transcript)).

(** What [process_meeting] returns *)
Record analysis := {
  a_title : str;
  a_summary : str;
  a_key_points : value;
  a_action_items : value
}.

Section Client.

(** [self.client.chat.completions.create]: given the log ending in the
    request just sent, the [content] of the first choice ([None] when the
    message has none), or the error the call raises. *)
Variable endpoint : list request -> result (option str).

(** [_chat] *)
Definition _chat (system_prompt user_message : str) : M str :=
  fun log =>
    let log' := log ++ [(system_prompt, user_message)] in
    match endpoint log' with
    | Ok content =>
        (Ok (strip (match content with Some c => c | None => [] end)), log')
    | Raise e => (Raise e, log')
    end.

(** [generate_summary] *)
Definition generate_summary (transcript : str) : M str :=
  let chunks := _chunk_transcript transcript MAX_WORDS in
  if (length chunks =? 1)%nat
  then _chat SUMMARY_PROMPT (transcript_message transcript)
  else
    partial <- for_each (fun c => _chat SUMMARY_PROMPT (transcript_message c)) chunks ;;
    let combined := join [NL; NL] partial in
    _chat SUMMARY_PROMPT (transcript_message combined).

Definition lift {A} (r : result A) : M A := fun log => (r, log).

(** [extract_key_points] *)
Definition extract_key_points (transcript : str) : M value :=
  let transcript := truncate transcript in
  response <- _chat KEY_POINTS_PROMPT (transcript_message transcript) ;;
  lift (_parse_json_list response).

(** [extract_action_items] *)
Definition extract_action_items (transcript : str) : M value :=
  let transcript := truncate transcript in
  response <- _chat ACTION_ITEMS_PROMPT (transcript_message transcript) ;;
  lift (_parse_json_list response).

(** [generate_title] *)
Definition generate_title (transcript : str) : M str :=
  let transcript := truncate transcript in
  _chat TITLE_PROMPT (transcript_message transcript).

(** [answer_question] *)
Definition answer_question (transcript question : str) : M str :=
  let transcript := truncate transcript in
  let user_message :=
    transcript_message transcript ++ [NL; NL] ++ lit "Question: " ++ question in
  _chat QA_PROMPT user_message.

(** [process_meeting] *)
Definition process_meeting (transcript : str) : M analysis :=
  t <- generate_title transcript ;;
  s <- generate_summary transcript ;;
  k <- extract_key_points transcript ;;
  a <- extract_action_items transcript ;;
  ret {| a_title := t; a_summary := s; a_key_points := k; a_action_items := a |}.

End Client.

(** *** Vocabulary of the properties *)

(** An endpoint that answers every request *)
Definition responsive (endpoint : list request -> result (option str)) : Prop :=
  forall log, exists content, endpoint log = Ok content.

(** The request that asks for the summary of [c] *)
Definition summary_request (c : str) : request :=
  (SUMMARY_PROMPT, transcript_message c).

End Summarizer.

(** ** [transcriber.py] *)

Module Transcriber.
Import Py.

(** A segment as the engine reports it; a key may be missing. *)
Record raw_segment := {
  seg_start : option Q;
  seg_end : option Q;
  seg_text : option str
}.

(** What [self.model.transcribe] returns *)
Record raw_transcription := {
  raw_text : option str;
  raw_segments : option (list raw_segment);
  raw_language : option str
}.

Record segment := {
  s_start : option Q;
  s_end : option Q;
  s_text : str
}.

Record transcription := {
  text : str;
  segments : list segment;
  language : str
}.

Section Engine.

(** The Whisper model applied to a path *)
Variable whisper : str -> result raw_transcription.

(** [transcribe_file] *)
Definition transcribe_file (audio_path : str) : result transcription :=
  match whisper audio_path with
  | Raise e => Raise e
  | Ok r =>
      Ok {| text := strip (default [] (raw_text r));
            segments :=
              map (fun seg =>
                     {| s_start := seg_start seg;
                        s_end := seg_end seg;
                        s_text := strip (default [] (seg_text seg)) |})
                  (default [] (raw_segments r));
            language := default (lit "en") (raw_language r) |}
  end.

End Engine.

End Transcriber.

(** ** [app.py]: the processing pipeline and the delete button *)

Module App.
Import Py Json Database Summarizer Transcriber.

(** What the application acts on: the database file, the requests sent to
    the chat endpoint, the other files on disk, and the session. *)
Record world := {
  database : db;
  chat_log : list request;
  files : gset str;
  current_meeting : option Meeting;
  status : option str
}.

Definition set_database (d : db) (w : world) : world :=
  {| database := d; chat_log := chat_log w; files := files w;
     current_meeting := current_meeting w; status := status w |}.

Definition set_chat_log (l : list request) (w : world) : world :=
  {| database := database w; chat_log := l; files := files w;
     current_meeting := current_meeting w; status := status w |}.

Definition set_files (f : gset str) (w : world) : world :=
  {| database := database w; chat_log := chat_log w; files := f;
     current_meeting := current_meeting w; status := status w |}.

Definition set_current_meeting (m : option Meeting) (w : world) : world :=
  {| database := database w; chat_log := chat_log w; files := files w;
     current_meeting := m; status := status w |}.

Definition set_status (label : str) (w : world) : world :=
  {| database := database w; chat_log := chat_log w; files := files w;
     current_meeting := current_meeting w; status := Some label |}.

(** [db.save_meeting], [db.get_meeting] and [db.delete_meeting] as the
    application calls them: each opens the database file and nothing else. *)
Definition db_save_meeting (m : Meeting) (w : world) : Z * Meeting * world :=
  let '(i, m', d') := save_meeting m (database w) in (i, m', set_database d' w).

Definition db_get_meeting (i : Z) (w : world) : result (option Meeting) :=
  get_meeting i (database w).

Definition db_delete_meeting (i : Z) (w : world) : option str * world :=
  let (r, d') := delete_meeting i (database w) in (r, set_database d' w).

(** A method of [MeetingDatabase] called on the database file of the
    application: it touches nothing else, and when it raises nothing has
    changed. *)
Definition on_database {A} (call : db -> result (A * db)) (w : world)
  : result A * world :=
  match call (database w) with
  | Ok (a, d') => (Ok a, set_database d' w)
  | Raise e => (Raise e, w)
  end.

(** The delete button of the sidebar: the caller removes the audio file. *)
Definition on_delete (meeting : Meeting) (w : world) : world :=
  let w1 :=
    match id meeting with
    | Some i =>
        let (audio_path, w') := db_delete_meeting i w in
        match audio_path with
        | Some p =>
            if truthy p && bool_decide (p ∈ files w')
            then set_files (files w' ∖ {[p]}) w'
            else w'
        | None => w'
        end
    | None => w
    end in
  match current_meeting w1 with
  | Some cur =>
      if bool_decide (id cur = id meeting)
      then set_current_meeting None w1 else w1
  | None => w1
  end.

(** How a run of [_process_audio] ends when nothing is raised *)
Inductive outcome :=
| TooShort
| NoSpeech
| Processed.

Section Pipeline.

Variable endpoint : list request -> result (option str).
Variable whisper : str -> result raw_transcription.

(** [sf.info(path).duration], in seconds, or the error of the probe *)
Variable sf_info : str -> result Q.

(** [datetime.now().strftime("%Y-%m-%d %H:%M")], the default [date] *)
Variable now : str.

(** [Meeting(title=..., transcript=..., summary=..., key_points=...,
    action_items=..., audio_path=...)] *)
Definition new_meeting (a : analysis) (transcript audio_path : str)
  : result Meeting :=
  match validate_str_list (a_key_points a) with
  | Raise e => Raise e
  | Ok kp =>
      match validate_str_list (a_action_items a) with
      | Raise e => Raise e
      | Ok ai =>
          Ok {| id := None;
                title := a_title a;
                date := now;
                transcript := transcript;
                summary := a_summary a;
                key_points := kp;
                action_items := ai;
                audio_path := audio_path |}
      end
  end.

(** Step 1: [true] when the probe succeeds and reports less than a second *)
Definition too_short (audio_path : str) : bool :=
  match sf_info audio_path with
  | Ok duration => negb (Qle_bool 1 duration)
  | Raise _ => false
  end.

(** [_process_audio].  [st.status] shows its label on entry; when the block
    is left by an exception the label stays. *)
Definition _process_audio (audio_path : str) (w : world)
  : result outcome * world :=
  let w := set_status (lit "Processing meeting...") w in
  if too_short audio_path then
    (Ok TooShort, set_status (lit "Audio too short") w)
  else
    match transcribe_file whisper audio_path with
    | Raise e => (Raise e, w)
    | Ok result =>
        let transcript := text result in
        if negb (truthy (strip transcript)) then
          (Ok NoSpeech, set_status (lit "No speech detected") w)
        else
          match process_meeting endpoint transcript (chat_log w) with
          | (Raise e, log) => (Raise e, set_chat_log log w)
          | (Ok ai_result, log) =>
              let w1 := set_chat_log log w in
              match new_meeting ai_result transcript audio_path with
              | Raise e => (Raise e, w1)
              | Ok meeting =>
                  let '(_, meeting', w2) := db_save_meeting meeting w1 in
                  let w3 := set_current_meeting (Some meeting') w2 in
                  (Ok Processed, set_status (lit "Meeting processed!") w3)
              end
          end
    end.

End Pipeline.

End App.

(** ** Sample data: the fixtures of [tests/test_database.py] and stubs for
    the external services *)

Module Samples.
Import Py Json Database Summarizer Transcriber App.

Definition sample_meeting : Meeting :=
  {| id := None;
     title := lit "Sprint Planning";
     date := lit "2024-03-01 09:00";
     transcript := lit "We discussed the upcoming sprint goals and assigned tasks.";
     summary := lit "The team planned the next sprint and assigned responsibilities.";
     key_points := [lit "New feature prioritized"; lit "Bug fixes scheduled"];
     action_items := [lit "Alice to design UI mockups"; lit "Bob to fix login bug"];
     audio_path := [] |}.

Definition python_workshop : Meeting :=
  {| id := None;
     title := lit "Python Workshop";
     date := lit "2024-03-02 09:00";
     transcript := lit "We learned about decorators";
     summary := [];
     key_points := [];
     action_items := [];
     audio_path := [] |}.

Definition stale_meeting : Meeting := set_id sample_meeting (Some 999%Z).

(** A record that carries 2^63, one more than the largest INTEGER of
    SQLite *)
Definition far_meeting : Meeting :=
  set_id sample_meeting (Some 9223372036854775808%Z).

Definition sample_db : db := (save_meeting sample_meeting init_db).2.

Definition workshop_db : db := (save_meeting python_workshop sample_db).2.

(** An endpoint that answers [answer] to every request *)
Definition answers (answer : string) : list request -> result (option str) :=
  fun _ => Ok (Some (lit answer)).

(** A speech engine that hears [heard] in every file *)
Definition hears (heard : string) : str -> result raw_transcription :=
  fun _ => Ok {| raw_text := Some (lit heard);
                 raw_segments := None;
                 raw_language := None |}.

(** A probe that reports [seconds] for every file *)
Definition lasts (seconds : Q) : str -> result Q := fun _ => Ok seconds.

Definition empty_world : world :=
  {| database := init_db; chat_log := []; files := ∅;
     current_meeting := None; status := None |}.

Definition sample_world : world :=
  {| database := sample_db; chat_log := []; files := ∅;
     current_meeting := None; status := None |}.

(** A record whose audio file is on disk, and the state after it is saved *)
Definition recorded_meeting : Meeting :=
  {| id := None;
     title := lit "Retrospective";
     date := lit "2024-03-03 09:00";
     transcript := lit "What went well";
     summary := [];
     key_points := [];
     action_items := [];
     audio_path := lit "uploads/a.wav" |}.

Definition recorded_world : world :=
  {| database := (save_meeting recorded_meeting init_db).2;
     chat_log := [];
     files := {[ lit "uploads/a.wav" ]};
     current_meeting := None;
     status := None |}.

(** A transcript of [n] words *)
Definition words (n : nat) : str := concat (repeat (lit "word ") n).

End Samples.

(** ** Vocabulary of the further properties *)

Module Vocabulary.
Import Py Json Database Summarizer Transcriber App.

(** The WHERE clause of [search_meetings], read on a record *)
Definition meeting_like (pat : str) (m : Meeting) : bool :=
  like pat (title m) || like pat (transcript m) || like pat (summary m).

(** Every identifier in use lies between 1 and the AUTOINCREMENT counter. *)
Definition ids_in_range (d : db) : Prop :=
  forall i, is_Some (rows d !! i) -> (1 <= i <= sequence d)%Z.

(** [s] neither starts nor ends with whitespace. *)
Definition stripped (s : str) : Prop :=
  (forall c, head s = Some c -> isspace c = false)
  /\ (forall c, last s = Some c -> isspace c = false).

(** [s] holds no backtick, hence no code fence. *)
Definition no_backtick (s : str) : Prop := Forall (fun c => c <> 96) s.

(** The step of [_parse_json_list] that keeps the text from the first
    opening bracket to the last closing one *)
Definition between_brackets (cleaned : str) : str :=
  let start := find (lit "[") cleaned in
  let stop := (rfind (lit "]") cleaned + 1)%Z in
  if negb (start =? -1)%Z && (start <? stop)%Z
  then slice start stop cleaned
  else cleaned.

(** A printable ASCII character *)
Definition printable (c : char) : bool := (32 <=? c) && (c <=? 126).

(** Code that only adds requests to the log and, when it raises, raises
    what the endpoint raised on the last request it sent. *)
Definition stops_at_error (endpoint : list request -> result (option str))
    {A} (m : M A) : Prop :=
  forall log r log',
    m log = (r, log') ->
    (exists sent, log' = log ++ sent)
    /\ (forall x, r = Raise x -> endpoint log' = Raise x).

(** How a run that ended with the log [log] came to raise [x]: the
    endpoint raised it on the last request; or the endpoint answered the
    last request and [_parse_json_list] raised it on the answer, which it
    does for the [ValueError] and the [RecursionError] of [json.loads]. *)
Definition failed_at (endpoint : list request -> result (option str))
    (x : exn) (log : list request) : Prop :=
  endpoint log = Raise x
  \/ ((x = ValueError \/ x = RecursionError)
      /\ exists content,
           endpoint log = Ok content
           /\ _parse_json_list (strip (default [] content)) = Raise x).

(** Code that only adds requests to the log and, when it raises, raises
    at the last request it sent. *)
Definition stops_at_failure (endpoint : list request -> result (option str))
    {A} (m : M A) : Prop :=
  forall log r log',
    m log = (r, log') ->
    (exists sent, log' = log ++ sent)
    /\ (forall x, r = Raise x -> failed_at endpoint x log').

(** [_parse_json_list] raises on no answer of the endpoint: [json.loads]
    raises nothing but [JSONDecodeError] on them. *)
Definition parseable_answers (endpoint : list request -> result (option str))
  : Prop :=
  forall log content,
    endpoint log = Ok content ->
    exists v, _parse_json_list (strip (default [] content)) = Ok v.

End Vocabulary.

(** ** [Transcriber.model]: the lazily loaded engine *)

Module LazyModel.
Import Py Transcriber.

Section Lazy.

(** The type of loaded models, [whisper.load_model] and
    [Whisper.transcribe]. *)
Variable Model : Type.
Variable load_model : str -> result Model.
Variable transcribe : Model -> str -> result raw_transcription.

(** The attributes of a [Transcriber] *)
Record transcriber := {
  model_size : str;
  _model : option Model
}.

(** The property [model]: the model, the object as the access leaves it,
    and the number of calls of [load_model] made so far. *)
Definition model (self : transcriber) (loads : nat)
  : result Model * transcriber * nat :=
  match _model self with
  | Some m => (Ok m, self, loads)
  | None =>
      match load_model (model_size self) with
      | Ok m => (Ok m, {| model_size := model_size self; _model := Some m |}, S loads)
      | Raise e => (Raise e, self, S loads)
      end
  end.

(** [transcribe_file] on an object: [self.model.transcribe(...)] *)
Definition transcribe_file_on (self : transcriber) (loads : nat) (audio_path : str)
  : result transcription * transcriber * nat :=
  match model self loads with
  | (Ok m, self', loads') => (transcribe_file (transcribe m) audio_path, self', loads')
  | (Raise e, self', loads') => (Raise e, self', loads')
  end.

(** Successive calls of [transcribe_file] on the same object *)
Fixpoint transcribe_files (self : transcriber) (loads : nat) (paths : list str)
  : list (result transcription) * transcriber * nat :=
  match paths with
  | [] => ([], self, loads)
  | p :: paths' =>
      let '(r, self', loads') := transcribe_file_on self loads p in
      let '(rs, self'', loads'') := transcribe_files self' loads' paths' in
      (r :: rs, self'', loads'')
  end.

End Lazy.

Arguments model_size {Model} t.
Arguments _model {Model} t.

End LazyModel.

(** ** [app.py]: the session state *)

Module Session.
Import Py Database.

(** The values kept in [st.session_state] *)
Inductive session_value :=
| SText (s : str)
| SMeeting (m : option Meeting)
| SFlag (b : bool).

(** The [defaults] of [init_session_state], in the order of the dict *)
Definition defaults : list (str * session_value) :=
  [(lit "transcript", SText []);
   (lit "current_meeting", SMeeting None);
   (lit "processing", SFlag false)].

(** The body of the loop: [if key not in st.session_state: ...] *)
Definition set_default (state : gmap (list N) session_value)
    (item : str * session_value) : gmap (list N) session_value :=
  match state !! item.1 with
  | Some _ => state
  | None => <[item.1 := item.2]> state
  end.

(** [init_session_state] *)
Definition init_session_state (state : gmap (list N) session_value)
  : gmap (list N) session_value :=
  foldl set_default state defaults.

End Session.

(** ** Further sample data *)

Module MoreSamples.
Import Py Json Database Summarizer Transcriber App Samples.

(** A second record that names the audio file of [recorded_meeting] *)
Definition second_take : Meeting :=
  {| id := None;
     title := lit "Retrospective, second take";
     date := lit "2024-03-04 09:00";
     transcript := lit "What to improve";
     summary := [];
     key_points := [];
     action_items := [];
     audio_path := lit "uploads/a.wav" |}.

Definition shared_world : world :=
  {| database := (save_meeting second_take (database recorded_world)).2;
     chat_log := [];
     files := {[ lit "uploads/a.wav" ]};
     current_meeting := None;
     status := None |}.

(** The database after the first record was saved and deleted: no row,
    and a counter that remembers the identifier *)
Definition init_db_after_one : db := {| rows := ∅; sequence := 1 |}.

(** An array that holds one integer of 4301 digits, and an endpoint that
    answers it to every request *)
Definition many_digits : str := [91] ++ N.iter 4301 (cons 49) [] ++ [93].

Definition answers_many_digits : list request -> result (option str) :=
  fun _ => Ok (Some many_digits).

(** 1200 arrays, each inside the one before *)
Definition deeply_nested : str :=
  N.iter 1200 (cons 91) [] ++ N.iter 1200 (cons 93) [].

(** A record whose title holds a NUL character, and the database that
    holds it *)
Definition nul_meeting : Meeting :=
  {| id := None;
     title := [97; 0; 98];
     date := lit "2024-03-05 09:00";
     transcript := [];
     summary := [];
     key_points := [];
     action_items := [];
     audio_path := [] |}.

Definition nul_db : db := (save_meeting nul_meeting init_db).2.

(** An endpoint that fails on every request *)
Definition unreachable : list request -> result (option str) :=
  fun _ => Raise EngineError.

(** A probe that cannot read any file *)
Definition unreadable : str -> result Q := fun _ => Raise EngineError.

(** What an engine reports for a file with two segments *)
Definition two_segments : raw_transcription :=
  {| raw_text := Some (lit " Hello there. General remarks. ");
     raw_segments :=
       Some [ {| seg_start := Some 0%Q; seg_end := Some 1.5%Q;
                 seg_text := Some (lit " Hello there.") |};
              {| seg_start := Some 1.5%Q; seg_end := Some 3%Q;
                 seg_text := Some (lit " General remarks.") |} ];
     raw_language := Some (lit "en") |}.

End MoreSamples.

(** * Properties *)

Import Py Json Database Summarizer Transcriber App Samples.

Ltac dlia := zify; Z.to_euclidean_division_equations; lia.

(** ** Strings *)

Section Strings.

Lemma startswith_app q b : startswith q (q ++ b) = true.
Proof.
  induction q as [| c q IH]; [done |]. cbn. by rewrite N.eqb_refl, IH.
Qed.




Lemma lstrip_by_length p s : (length (lstrip_by p s) <= length s)%nat.
Proof.
  induction s as [| c s IH]; [done |]. cbn. destruct (p c); cbn; lia.
Qed.

Lemma lstrip_by_all p s : Forall (fun c => p c = true) s -> lstrip_by p s = [].
Proof.
  induction 1 as [| c s Hc _ IH]; [done |]. cbn. by rewrite Hc.
Qed.

(** A string that is empty or holds only whitespace strips to the empty
    string. *)
Lemma strip_blank s : Forall (fun c => isspace c = true) s -> strip s = [].
Proof.
  intros H. unfold strip, rstrip_by. by rewrite (lstrip_by_all isspace s H).
Qed.

Lemma split_go_word w : forall cur s,
  nospace w -> split_go cur (w ++ s) = split_go (cur ++ w) s.
Proof.
  induction w as [| c w IH]; intros cur s Hw.
  - by rewrite app_nil_r.
  - apply Forall_cons in Hw as [Hc Hw]. cbn [app split_go]. rewrite Hc.
    rewrite IH by done. by rewrite <- app_assoc.
Qed.

Lemma flush_word cur : nospace cur -> Forall word (flush cur).
Proof.
  intros H. destruct cur as [| c cur]; [constructor |].
  apply Forall_singleton. split; done.
Qed.

Lemma split_go_words s : forall cur,
  nospace cur -> Forall word (split_go cur s).
Proof.
  induction s as [| c s IH]; intros cur Hcur; cbn [split_go].
  - by apply flush_word.
  - destruct (isspace c) eqn:Hc.
    + apply Forall_app. split; [by apply flush_word | apply IH; constructor].
    + apply IH. apply Forall_app. split; [done |]. by apply Forall_singleton.
Qed.

(** [split] returns words. *)
Lemma split_words s : Forall word (split s).
Proof. apply split_go_words. constructor. Qed.

Lemma split_go_space s1 : forall cur c s2,
  isspace c = true ->
  split_go cur (s1 ++ c :: s2) = split_go cur s1 ++ split s2.
Proof.
  induction s1 as [| a s1 IH]; intros cur c s2 Hc; cbn [app split_go].
  - by rewrite Hc.
  - destruct (isspace a); [| by apply IH].
    rewrite <- app_assoc. f_equal. by apply IH.
Qed.

Lemma split_app_space t extra :
  split (t ++ [SPACE] ++ extra) = split t ++ split extra.
Proof. apply split_go_space. reflexivity. Qed.

Lemma split_one_word w : word w -> split w = [w].
Proof.
  intros [Hne Hw]. unfold split. rewrite <- (app_nil_r w) at 1.
  rewrite split_go_word by done. cbn. by destruct w.
Qed.

(** Joining words with single spaces and splitting again gives the words
    back. *)
Lemma split_join ws : Forall word ws -> split (join [SPACE] ws) = ws.
Proof.
  induction ws as [| w ws IH]; intros H; [done |].
  apply Forall_cons in H as [Hw Hws].
  destruct ws as [| w2 ws]; [by apply split_one_word |].
  change (join [SPACE] (w :: w2 :: ws))
    with (w ++ [SPACE] ++ join [SPACE] (w2 :: ws)).
  by rewrite split_app_space, IH, split_one_word.
Qed.

End Strings.

(** ** JSON: decoding what [dumps] writes *)

Section JsonRoundTrip.

Lemma hex_val_digit d : d < 16 -> hex_val (hex_digit d) = Some d.
Proof.
  intros H.
  assert (d = 0 \/ d = 1 \/ d = 2 \/ d = 3 \/ d = 4 \/ d = 5 \/ d = 6 \/ d = 7 \/
          d = 8 \/ d = 9 \/ d = 10 \/ d = 11 \/ d = 12 \/ d = 13 \/ d = 14 \/ d = 15)
    as Hd by lia.
  repeat (destruct Hd as [-> | Hd]; [reflexivity |]). subst d. reflexivity.
Qed.

Lemma hex4_u_escape n rest :
  n < 65536 ->
  exists a b c d,
    u_escape n = [92; 117; a; b; c; d]
    /\ hex4 (a :: b :: c :: d :: rest) = Some (n, rest).
Proof.
  intros H. unfold u_escape. do 4 eexists. split; [reflexivity |].
  unfold hex4. rewrite !hex_val_digit by (apply N.mod_lt; lia).
  do 2 f_equal. dlia.
Qed.

Lemma lor_high_low a b k :
  b < 2 ^ k -> N.lor (N.shiftl a k) b = N.shiftl a k + b.
Proof.
  intros Hb. rewrite N.add_nocarry_lxor, N.lxor_lor; auto.
  all: apply N.bits_inj; intros i; rewrite N.land_spec, N.bits_0;
    destruct (N.lt_ge_cases i k) as [Hi | Hi];
    [ rewrite N.shiftl_spec_low by done; reflexivity
    | rewrite <- (N.mod_small b (2 ^ k)) by done;
      rewrite N.mod_pow2_bits_high by done; apply andb_false_r ].
Qed.

(** The two halves [escape_char] writes for a character above the BMP. *)
Lemma surrogates_of n :
  n < 1048576 ->
  N.lor 55296 (N.land (N.shiftr n 10) 1023) = 55296 + n / 1024
  /\ N.lor 56320 (N.land n 1023) = 56320 + n mod 1024.
Proof.
  intros H.
  change 1023 with (N.ones 10). rewrite !N.land_ones, N.shiftr_div_pow2.
  change (2 ^ 10) with 1024.
  assert (n / 1024 < 1024) by (apply N.Div0.div_lt_upper_bound; lia).
  rewrite (N.mod_small (n / 1024)) by done.
  change 55296 with (N.shiftl 54 10). change 56320 with (N.shiftl 55 10).
  rewrite !lor_high_low; [done | |]; change (2 ^ 10) with 1024;
    [apply N.mod_lt |]; lia.
Qed.

Lemma join_surrogates x y :
  x < 1024 -> y < 1024 ->
  65536 + N.lor (N.shiftl (55296 + x - 55296) 10) (56320 + y - 56320)
  = 65536 + x * 1024 + y.
Proof.
  intros Hx Hy. replace (55296 + x - 55296) with x by lia.
  replace (56320 + y - 56320) with y by lia.
  rewrite lor_high_low by (change (2 ^ 10) with 1024; lia).
  rewrite N.shiftl_mul_pow2. change (2 ^ 10) with 1024. lia.
Qed.

Lemma scanstring_quote f acc s : scanstring (S f) acc (34 :: s) = Scanned acc s.
Proof. reflexivity. Qed.

Lemma scanstring_u f acc s :
  scanstring (S f) acc (92 :: 117 :: s) =
  match hex4 s with
  | None => Failed
  | Some (uni, s3) =>
      match after_u uni s3 with
      | None => Failed
      | Some (ch, s4) => scanstring f (acc ++ [ch]) s4
      end
  end.
Proof. reflexivity. Qed.

Lemma scanstring_plain f acc c s :
  c <> 34 -> c <> 92 -> 32 <= c ->
  scanstring (S f) acc (c :: s) = scanstring f (acc ++ [c]) s.
Proof.
  intros H1 H2 H3. cbn [scanstring].
  rewrite (proj2 (N.eqb_neq _ _) H1), (proj2 (N.eqb_neq _ _) H2).
  rewrite (proj2 (N.ltb_ge _ _) H3). reflexivity.
Qed.

(** One turn of [scanstring] reads back what [escape_char] wrote. *)
Lemma scanstring_escape_char c f acc rest :
  is_scalar c = true ->
  scanstring (S f) acc (escape_char c ++ rest) = scanstring f (acc ++ [c]) rest.
Proof.
  intros Hc. unfold is_scalar in Hc.
  apply andb_true_iff in Hc as [Hlt Hns]. apply N.ltb_lt in Hlt.
  apply negb_true_iff, andb_false_iff in Hns.
  unfold escape_char.
  repeat match goal with
  | |- context [if ?x =? ?k then _ else _] =>
      destruct (N.eqb_spec x k) as [-> | ?]; [reflexivity |]
  end.
  destruct ((32 <=? c) && (c <=? 126)) eqn:Hp.
  { apply andb_true_iff in Hp as [Hp _]. apply N.leb_le in Hp.
    apply scanstring_plain; done. }
  destruct (N.ltb_spec c 65536) as [Hb | Hb].
  - destruct (hex4_u_escape c rest Hb) as (h3 & h2 & h1 & h0 & -> & Hh).
    cbn [app]. rewrite scanstring_u, Hh. unfold after_u.
    replace (is_high c) with false; [done |].
    unfold is_high. destruct Hns as [H | H]; apply N.leb_gt in H;
      symmetry; apply andb_false_iff; [left | right]; apply N.leb_gt; lia.
  - assert (exists m, c = 65536 + m /\ m < 1048576) as (m & -> & Hm)
      by (exists (c - 65536); lia).
    replace (65536 + m - 65536) with m by lia.
    destruct (surrogates_of m Hm) as [-> ->].
    assert (m / 1024 < 1024) as Hx by (apply N.Div0.div_lt_upper_bound; lia).
    assert (m mod 1024 < 1024) as Hy by (apply N.mod_lt; lia).
    destruct (hex4_u_escape (55296 + m / 1024)
                (u_escape (56320 + m mod 1024) ++ rest))
      as (a3 & a2 & a1 & a0 & -> & Ha); [dlia |].
    destruct (hex4_u_escape (56320 + m mod 1024) rest)
      as (b3 & b2 & b1 & b0 & Eb & Hb'); [dlia |].
    cbn [app]. rewrite scanstring_u, Ha. unfold after_u. rewrite Eb.
    replace (is_high (55296 + m / 1024)) with true
      by (symmetry; unfold is_high; apply andb_true_iff; split;
          apply N.leb_le; dlia).
    cbn [app startswith drop andb N.eqb Pos.eqb]. rewrite Hb'.
    replace (is_low (56320 + m mod 1024)) with true
      by (symmetry; unfold is_low; apply andb_true_iff; split;
          apply N.leb_le; dlia).
    rewrite join_surrogates by done.
    do 3 f_equal. dlia.
Qed.

Lemma escape_char_nonempty c : (1 <= length (escape_char c))%nat.
Proof.
  unfold escape_char, u_escape.
  repeat match goal with
  | |- context [if ?b then _ else _] => destruct b
  end; cbn; lia.
Qed.

Lemma flat_map_escape_length s :
  (length s <= length (flat_map escape_char s))%nat.
Proof.
  induction s as [| c s IH]; [done |].
  cbn [flat_map]. rewrite length_app. pose proof (escape_char_nonempty c).
  cbn [length]. lia.
Qed.

Lemma well_formed_cons c s :
  well_formed (c :: s) <-> is_scalar c = true /\ well_formed s.
Proof. unfold well_formed. cbn [forallb]. apply andb_true_iff. Qed.

Lemma scanstring_body s : forall fuel acc rest,
  well_formed s -> (length s < fuel)%nat ->
  scanstring fuel acc (flat_map escape_char s ++ 34 :: rest)
  = Scanned (acc ++ s) rest.
Proof.
  induction s as [| c s IH]; intros fuel acc rest Hwf Hfuel.
  - destruct fuel; [cbn in Hfuel; lia |]. cbn [flat_map app].
    rewrite scanstring_quote, app_nil_r. reflexivity.
  - apply well_formed_cons in Hwf as [Hc Hs].
    destruct fuel; [cbn in Hfuel; lia |]. cbn [flat_map]. rewrite <- app_assoc.
    rewrite scanstring_escape_char by done.
    rewrite IH by (cbn in Hfuel; done || lia).
    rewrite <- app_assoc. reflexivity.
Qed.

Lemma scan_once_string f depth s rest :
  well_formed s ->
  scan_once (S f) depth (encode_basestring_ascii s ++ rest)
  = Scanned (JStr s) rest.
Proof.
  intros Hwf. unfold encode_basestring_ascii.
  cbn [app scan_once N.eqb Pos.eqb]. rewrite <- app_assoc. cbn [app].
  rewrite scanstring_body; [reflexivity | done |].
  rewrite length_app. pose proof (flat_map_escape_length s). cbn [length]. lia.
Qed.

Lemma parse_array_strings depth l : forall f n acc rest,
  l <> [] -> Forall well_formed l -> (length l <= n)%nat ->
  parse_array (scan_once (S f) depth) n acc
    (join ITEM_SEPARATOR (map encode_basestring_ascii l) ++ 93 :: rest)
  = Scanned (acc ++ map JStr l) rest.
Proof.
  induction l as [| s l IH]; intros f n acc rest Hne Hwf Hn; [done |].
  apply Forall_cons in Hwf as [Hs Hl].
  destruct n as [| n]; [cbn in Hn; lia |].
  destruct l as [| s2 l].
  - cbn [map join parse_array]. rewrite scan_once_string by done.
    cbn. reflexivity.
  - change (join ITEM_SEPARATOR (map encode_basestring_ascii (s :: s2 :: l)))
      with (encode_basestring_ascii s ++ ITEM_SEPARATOR
            ++ join ITEM_SEPARATOR (map encode_basestring_ascii (s2 :: l))).
    rewrite <- !app_assoc. cbn [parse_array].
    rewrite scan_once_string by done.
    cbn [ITEM_SEPARATOR app skip_ws lstrip_by is_ws N.eqb Pos.eqb orb].
    change (lstrip_by is_ws ?x) with (skip_ws x).
    replace (skip_ws (join ITEM_SEPARATOR (map encode_basestring_ascii (s2 :: l))
                      ++ 93 :: rest))
      with (join ITEM_SEPARATOR (map encode_basestring_ascii (s2 :: l)) ++ 93 :: rest).
    2:{ cbn [map join]. destruct l; reflexivity. }
    rewrite IH; [| done | done | cbn in Hn |- *; lia].
    rewrite <- app_assoc. reflexivity.
Qed.

Lemma join_encoded_length l :
  (length l <= length (join ITEM_SEPARATOR (map encode_basestring_ascii l)))%nat.
Proof.
  induction l as [| s l IH]; [done |].
  destruct l as [| s2 l]; [cbn; lia |].
  change (join ITEM_SEPARATOR (map encode_basestring_ascii (s :: s2 :: l)))
    with (encode_basestring_ascii s ++ ITEM_SEPARATOR
          ++ join ITEM_SEPARATOR (map encode_basestring_ascii (s2 :: l))).
  assert (1 <= length (encode_basestring_ascii s))%nat by (cbn; lia).
  rewrite !length_app. cbn [length] in *. lia.
Qed.

(** [json.loads(json.dumps(l))] is [l], wherever one nested call is
    allowed. *)
Lemma loads_at_dumps depth l :
  Forall well_formed l -> loads_at (S depth) (dumps l) = Ok (JArr (map JStr l)).
Proof.
  intros Hwf. unfold dumps.
  destruct l as [| s l]; [reflexivity |].
  unfold loads_at.
  cbn [app startswith N.eqb Pos.eqb andb skip_ws lstrip_by is_ws orb].
  set (t := join ITEM_SEPARATOR (map encode_basestring_ascii (s :: l)) ++ [93]).
  assert (exists t', t = 34 :: t') as [t' Ht].
  { unfold t. cbn [map join]. destruct l; cbn; eauto. }
  assert (length (s :: l) <= length t)%nat as Hlen.
  { unfold t. rewrite length_app.
    pose proof (join_encoded_length (s :: l)). lia. }
  assert (skip_ws t = 34 :: t') as Hsk by (rewrite Ht; reflexivity).
  cbn [length scan_once N.eqb Pos.eqb].
  destruct (length t) as [| f] eqn:Hf; [cbn in Hlen; lia |].
  rewrite Hsk. cbn [N.eqb Pos.eqb]. rewrite <- Ht.
  unfold t. rewrite parse_array_strings; [reflexivity | done | done | lia].
Qed.

Lemma loads_dumps l :
  Forall well_formed l -> loads (dumps l) = Ok (JArr (map JStr l)).
Proof. apply (loads_at_dumps (pred RECURSION_LIMIT)). Qed.

Lemma all_str_strings l : all_str (map JStr l) = Some l.
Proof. induction l as [| s l IH]; [done |]. cbn. rewrite IH. reflexivity. Qed.

End JsonRoundTrip.

(** ** JSON: the decoder never runs out of fuel *)

Section JsonFuel.

Lemma shrinks_le {A} (r : scan A) s1 s2 :
  shrinks r s1 -> (length s1 <= length s2)%nat -> shrinks r s2.
Proof. destruct r; cbn; [lia | done | done | done]. Qed.

Lemma shrinks_map {A B} (f : A -> B) r s : shrinks r s -> shrinks (scan_map f r) s.
Proof. by destruct r. Qed.

Lemma skip_ws_length s : (length (skip_ws s) <= length s)%nat.
Proof. apply lstrip_by_length. Qed.

Lemma hex4_length s u r : hex4 s = Some (u, r) -> length s = (4 + length r)%nat.
Proof.
  destruct s as [| a [| b [| c [| d rest]]]]; try discriminate. cbn.
  destruct (hex_val a), (hex_val b), (hex_val c), (hex_val d); try discriminate.
  by intros [= _ <-].
Qed.

Lemma after_u_length uni s ch r :
  after_u uni s = Some (ch, r) -> (length r <= length s)%nat.
Proof.
  unfold after_u. destruct (is_high uni && startswith [92; 117] s).
  - destruct (hex4 (drop 2 s)) as [[uni2 s'] |] eqn:Hh; [| done].
    apply hex4_length in Hh. rewrite length_drop in Hh.
    destruct (is_low uni2); intros [= _ <-]; lia.
  - by intros [= _ <-].
Qed.

Lemma scanstring_shrinks fuel : forall acc s,
  (length s <= fuel)%nat -> shrinks (scanstring fuel acc s) s.
Proof.
  induction fuel as [| f IH]; intros acc [| c s1] Hlen; try done.
  { cbn in Hlen. lia. }
  cbn [scanstring]. cbn [length] in Hlen.
  destruct (c =? 34); [cbn; lia |].
  destruct (c =? 92).
  - destruct s1 as [| e s2]; [done |]. cbn [length] in Hlen.
    destruct (e =? 117).
    + destruct (hex4 s2) as [[uni s3] |] eqn:Hh; [| done].
      apply hex4_length in Hh.
      destruct (after_u uni s3) as [[ch s4] |] eqn:Hu; [| done].
      apply after_u_length in Hu.
      eapply shrinks_le; [apply IH |]; cbn [length]; lia.
    + destruct (unescape e); [| done].
      eapply shrinks_le; [apply IH |]; cbn [length]; lia.
  - destruct (c <? 32); [done |].
    eapply shrinks_le; [apply IH |]; cbn [length]; lia.
Qed.

Lemma span_length p s : (length (span p s).2 <= length s)%nat.
Proof.
  induction s as [| c s IH]; [done |]. cbn [span].
  destruct (p c); [| done]. destruct (span p s). cbn in *. lia.
Qed.

Lemma digits_part_length s ds r :
  digits_part s = Some (ds, r) -> (length r < length s)%nat.
Proof.
  destruct s as [| c t]; [done |]. cbn [digits_part].
  destruct (c =? 48); [intros [= _ <-]; cbn; lia |].
  destruct (is_digit c); [| done].
  pose proof (span_length is_digit t). destruct (span is_digit t).
  intros [= _ <-]. cbn in *. lia.
Qed.

Lemma int_part_length s ds r :
  int_part s = Some (ds, r) -> (length r < length s)%nat.
Proof.
  destruct s as [| c t]; [done |]. cbn [int_part].
  destruct (c =? 45); [| apply digits_part_length].
  destruct (digits_part t) as [[ds' r'] |] eqn:Hd; [| done].
  apply digits_part_length in Hd. intros [= _ <-]. cbn. lia.
Qed.

Lemma frac_part_length s : (length (frac_part s).2 <= length s)%nat.
Proof.
  destruct s as [| c t]; [done |]. cbn [frac_part].
  destruct (c =? 46); [| done].
  pose proof (span_length is_digit t). destruct (span is_digit t) as [[| d ds] r]; cbn in *; lia.
Qed.

Lemma exp_digits_length pre t s :
  (length t <= length s)%nat -> (length (exp_digits pre t s).2 <= length s)%nat.
Proof.
  intros H. unfold exp_digits.
  pose proof (span_length is_digit t). destruct (span is_digit t) as [[| d ds] r]; cbn in *; lia.
Qed.

Lemma exp_part_length s : (length (exp_part s).2 <= length s)%nat.
Proof.
  destruct s as [| c t]; [done |]. cbn [exp_part].
  destruct ((c =? 101) || (c =? 69)); [| done].
  destruct t as [| sg t']; [done |].
  destruct ((sg =? 45) || (sg =? 43)); apply exp_digits_length; cbn; lia.
Qed.

Lemma match_number_length s v r :
  match_number s = Some (v, r) -> (length r < length s)%nat.
Proof.
  unfold match_number. destruct (int_part s) as [[i r1] |] eqn:Hi; [| done].
  apply int_part_length in Hi.
  pose proof (frac_part_length r1). destruct (frac_part r1) as [f r2].
  pose proof (exp_part_length r2). destruct (exp_part r2) as [e r3].
  cbn in *. destruct f, e; intros [= _ <-]; lia.
Qed.

Lemma constant_length name v s v' r :
  (0 < String.length name)%nat ->
  constant name v s = Some (v', r) -> (length r < length s)%nat.
Proof.
  intros Hn. unfold constant. destruct (startswith (lit name) s) eqn:Hs; [| done].
  intros [= _ <-]. rewrite length_drop.
  destruct s; [| cbn [length]; lia].
  destruct name; [cbn in Hn; lia | done].
Qed.

Lemma scan_atom_shrinks s : shrinks (scan_atom s) s.
Proof.
  unfold scan_atom, first_of.
  repeat match goal with
  | |- context [constant ?n ?v s] =>
      let H := fresh in
      destruct (constant n v s) as [[[? | ?] ?] |] eqn:H;
      [apply constant_length in H; [exact H | cbn; lia] | done |]
  | |- context [match_number s] =>
      let H := fresh in
      destruct (match_number s) as [[[? | ?] ?] |] eqn:H;
      [apply match_number_length in H; exact H | done |]
  end.
  done.
Qed.

Lemma parse_array_shrinks scan_value m n : forall acc s,
  (forall s', (length s' <= m)%nat -> shrinks (scan_value s') s') ->
  (length s <= m)%nat -> (length s < n)%nat ->
  shrinks (parse_array scan_value n acc s) s.
Proof.
  induction n as [| n IH]; intros acc s Hv Hm Hn; [lia |].
  cbn [parse_array]. specialize (Hv s Hm) as Hs.
  destruct (scan_value s) as [v r | | |]; [| done | done | done]. cbn in Hs.
  pose proof (skip_ws_length r). destruct (skip_ws r) as [| c r']; [done |].
  cbn [length] in *.
  destruct (c =? 93); [cbn; lia |].
  destruct (c =? 44); [| done].
  pose proof (skip_ws_length r').
  eapply shrinks_le; [apply IH; [done | lia | lia] | lia].
Qed.

Lemma parse_object_shrinks scan_value m n : forall acc s,
  (forall s', (length s' <= m)%nat -> shrinks (scan_value s') s') ->
  (length s <= m)%nat -> (length s < n)%nat ->
  shrinks (parse_object scan_value n acc s) s.
Proof.
  induction n as [| n IH]; intros acc s Hv Hm Hn; [lia |].
  cbn [parse_object]. destruct s as [| q s1]; [done |].
  destruct (q =? 34); [| done]. cbn [length] in *.
  pose proof (scanstring_shrinks (length s1) [] s1 (Nat.le_refl _)) as Hk.
  destruct (scanstring (length s1) [] s1) as [key r | | |];
    [| done | done | done]. cbn in Hk.
  pose proof (skip_ws_length r). destruct (skip_ws r) as [| c r1]; [done |].
  cbn [length] in *. destruct (c =? 58); [| done].
  pose proof (skip_ws_length r1).
  assert (length (skip_ws r1) <= m)%nat as Hr1 by lia.
  specialize (Hv _ Hr1) as Hs.
  destruct (scan_value (skip_ws r1)) as [v r2 | | |];
    [| done | done | done]. cbn in Hs.
  pose proof (skip_ws_length r2). destruct (skip_ws r2) as [| c' r3]; [done |].
  cbn [length] in *.
  destruct (c' =? 125); [cbn; lia |].
  destruct (c' =? 44); [| done].
  pose proof (skip_ws_length r3).
  eapply shrinks_le; [apply IH; [done | lia | lia] | cbn [length]; lia].
Qed.

Lemma scan_once_shrinks fuel : forall depth s,
  (length s <= fuel)%nat -> shrinks (scan_once fuel depth s) s.
Proof.
  induction fuel as [| f IH]; intros depth [| c s'] Hlen; try done.
  { cbn in Hlen. lia. }
  cbn [scan_once]. cbn [length] in Hlen.
  destruct (c =? 34).
  { apply shrinks_map. eapply shrinks_le; [by apply scanstring_shrinks | cbn; lia]. }
  destruct (c =? 123).
  { destruct depth as [| depth]; [done |].
    pose proof (skip_ws_length s'). destruct (skip_ws s') as [| c' r]; [done |].
    cbn [length] in *. destruct (c' =? 125); [cbn; lia |].
    apply shrinks_map. eapply shrinks_le.
    - apply (parse_object_shrinks _ f);
        [intros; by apply IH | cbn [length]; lia | cbn [length]; lia].
    - cbn [length]. lia. }
  destruct (c =? 91).
  { destruct depth as [| depth]; [done |].
    pose proof (skip_ws_length s'). destruct (skip_ws s') as [| c' r]; [done |].
    cbn [length] in *. destruct (c' =? 93); [cbn; lia |].
    apply shrinks_map. eapply shrinks_le.
    - apply (parse_array_shrinks _ f);
        [intros; by apply IH | cbn [length]; lia | cbn [length]; lia].
    - cbn [length]. lia. }
  apply scan_atom_shrinks.
Qed.
(** *** The errors of [json.loads] *)

Lemma scanstring_not_raised fuel : forall acc s e,
  scanstring fuel acc s <> Raised e.
Proof.
  induction fuel as [| f IH]; intros acc [| c s1] e; try done.
  cbn [scanstring].
  destruct (c =? 34); [done |].
  destruct (c =? 92).
  - destruct s1 as [| x s2]; [done |].
    destruct (x =? 117).
    + destruct (hex4 s2) as [[uni s3] |]; [| done].
      destruct (after_u uni s3) as [[ch s4] |]; [apply IH | done].
    + destruct (unescape x); [apply IH | done].
  - destruct (c <? 32); [done | apply IH].
Qed.

Lemma match_number_raised s e r :
  match_number s = Some (Raise e, r) -> e = ValueError.
Proof.
  unfold match_number. destruct (int_part s) as [[i r1] |]; [| done].
  destruct (frac_part r1) as [f r2]. destruct (exp_part r2) as [x r3].
  destruct f, x; try done. unfold parse_int.
  destruct (_ <? _)%nat; [| done]. by intros [= <- _].
Qed.

Lemma scan_atom_raised s e : scan_atom s = Raised e -> e = ValueError.
Proof.
  unfold scan_atom, first_of, constant.
  repeat match goal with
  | |- context [if startswith ?p s then _ else _] =>
      destruct (startswith p s); [done |]
  | |- context [match_number s] =>
      let H := fresh in
      destruct (match_number s) as [[[? | ?] ?] |] eqn:H;
      [done | apply match_number_raised in H; by intros [= <-] |]
  end.
  done.
Qed.

Lemma scan_map_raised {A B} (f : A -> B) r e :
  scan_map f r = Raised e -> r = Raised e.
Proof. destruct r; try done. by intros [= ->]. Qed.

Lemma parse_array_raised (P : exn -> Prop) scan_value n : forall acc s e,
  (forall s' e', scan_value s' = Raised e' -> P e') ->
  parse_array scan_value n acc s = Raised e -> P e.
Proof.
  induction n as [| n IH]; intros acc s e Hv; [done |]. cbn [parse_array].
  destruct (scan_value s) as [v r | | | e'] eqn:Hs; [| done | done |].
  - destruct (skip_ws r) as [| c r']; [done |].
    destruct (c =? 93); [done |]. destruct (c =? 44); [| done]. by apply IH.
  - intros [= <-]. by apply (Hv s).
Qed.

Lemma parse_object_raised (P : exn -> Prop) scan_value n : forall acc s e,
  (forall s' e', scan_value s' = Raised e' -> P e') ->
  parse_object scan_value n acc s = Raised e -> P e.
Proof.
  induction n as [| n IH]; intros acc s e Hv; [done |]. cbn [parse_object].
  destruct s as [| q s1]; [done |]. destruct (q =? 34); [| done].
  destruct (scanstring (length s1) [] s1) as [key r | | | e'] eqn:Hk;
    [| done | done | by apply scanstring_not_raised in Hk].
  destruct (skip_ws r) as [| c r1]; [done |]. destruct (c =? 58); [| done].
  destruct (scan_value (skip_ws r1)) as [v r2 | | | e'] eqn:Hs; [| done | done |].
  - destruct (skip_ws r2) as [| c' r3]; [done |].
    destruct (c' =? 125); [done |]. destruct (c' =? 44); [| done]. by apply IH.
  - intros [= <-]. by apply (Hv (skip_ws r1)).
Qed.

(** A scan raises nothing but [ValueError], for an integer of too many
    digits, and [RecursionError], for values nested too deeply. *)
Lemma scan_once_raised fuel : forall depth s e,
  scan_once fuel depth s = Raised e -> e = ValueError \/ e = RecursionError.
Proof.
  induction fuel as [| f IH]; intros depth [| c s'] e; try done.
  cbn [scan_once].
  destruct (c =? 34).
  { intros H%scan_map_raised. by apply scanstring_not_raised in H. }
  destruct (c =? 123).
  { destruct depth as [| depth]; [intros [= <-]; by right |].
    destruct (skip_ws s') as [| c' r]; [done |]. destruct (c' =? 125); [done |].
    intros H%scan_map_raised. revert H.
    apply (parse_object_raised (fun x => x = ValueError \/ x = RecursionError)).
    apply IH. }
  destruct (c =? 91).
  { destruct depth as [| depth]; [intros [= <-]; by right |].
    destruct (skip_ws s') as [| c' r]; [done |]. destruct (c' =? 93); [done |].
    intros H%scan_map_raised. revert H.
    apply (parse_array_raised (fun x => x = ValueError \/ x = RecursionError)).
    apply IH. }
  intros ->%scan_atom_raised. by left.
Qed.

(** [json.loads] raises nothing but [JSONDecodeError], [ValueError] and
    [RecursionError]; the model never runs out of fuel. *)
Lemma loads_at_raises depth s e :
  loads_at depth s = Raise e ->
  e = JSONDecodeError \/ e = ValueError \/ e = RecursionError.
Proof.
  unfold loads_at. destruct (startswith [65279] s); [intros [= <-]; by left |].
  pose proof (scan_once_shrinks _ depth (skip_ws s) (Nat.le_refl _)) as H.
  destruct (scan_once _ _ _) as [v r | | | e'] eqn:Hs;
    [| intros [= <-]; by left | done |].
  - destruct (skip_ws r); [done | intros [= <-]; by left].
  - intros [= <-]. right. by apply scan_once_raised in Hs.
Qed.

Lemma loads_raises s e :
  loads s = Raise e ->
  e = JSONDecodeError \/ e = ValueError \/ e = RecursionError.
Proof. apply loads_at_raises. Qed.

End JsonFuel.

(** ** The record store *)

Section Store.

Lemma largest_rowid_nonneg (t : gmap Z columns) : (0 <= largest_rowid t)%Z.
Proof.
  unfold largest_rowid.
  apply (map_fold_weak_ind (fun r _ => (0 <= r)%Z)); [done | intros; lia].
Qed.

Lemma largest_rowid_ge (t : gmap Z columns) k :
  is_Some (t !! k) -> (k <= largest_rowid t)%Z.
Proof.
  unfold largest_rowid.
  apply (map_fold_weak_ind (fun r m => is_Some (m !! k) -> (k <= r)%Z)).
  - rewrite lookup_empty. by intros [? ?].
  - intros i x m r Hi IH. rewrite lookup_insert. case_decide; [lia |].
    intros Hk. specialize (IH Hk). lia.
Qed.

(** The rowid INSERT picks is not in use. *)
Lemma sql_insert_fresh c d : rows d !! (sql_insert c d).1 = None.
Proof.
  cbn. apply eq_None_not_Some. intros H%largest_rowid_ge. lia.
Qed.

Lemma sql_insert_positive c d : or_zero (sql_insert c d).1 = (sql_insert c d).1.
Proof.
  cbn. pose proof (largest_rowid_nonneg (rows d)). unfold or_zero.
  destruct (Z.eqb_spec (Z.max (largest_rowid (rows d)) (sequence d) + 1) 0); lia.
Qed.

Lemma save_meeting_new m d :
  id m = None ->
  save_meeting m d
  = ((sql_insert (values_of m) d).1,
     set_id m (Some (sql_insert (values_of m) d).1),
     (sql_insert (values_of m) d).2).
Proof.
  intros Hid. unfold save_meeting. rewrite Hid.
  pose proof (sql_insert_positive (values_of m) d) as Hpos.
  destruct (sql_insert (values_of m) d) as [i d']. cbn in *. by rewrite Hpos.
Qed.

(** A row written from a record reads back as that record. *)
Lemma row_to_meeting_values m i :
  valid_lists m -> _row_to_meeting i (values_of m) = Ok (set_id m (Some i)).
Proof.
  intros [Hk Ha]. unfold _row_to_meeting.
  cbn [values_of c_key_points c_action_items].
  rewrite !loads_dumps by done. cbn [validate_str_list].
  rewrite !all_str_strings. reflexivity.
Qed.

Lemma set_id_same m i : id m = Some i -> set_id m (Some i) = m.
Proof. destruct m; cbn; intros ->; reflexivity. Qed.

Lemma sql_update_absent i c d : rows d !! i = None -> sql_update i c d = d.
Proof.
  intros H. unfold sql_update. destruct d as [r s]; cbn in *. f_equal.
  apply map_eq. intros j. rewrite lookup_alter. case_decide; [| done].
  subst. rewrite H. reflexivity.
Qed.

Lemma save_meeting_insert m d :
  valid_lists m -> id m = None ->
  exists i d',
    save_meeting m d = (i, set_id m (Some i), d')
    /\ rows d !! i = None
    /\ row_count d' = S (row_count d)
    /\ get_meeting i d' = Ok (Some (set_id m (Some i))).
Proof.
  intros Hv Hid. unfold save_meeting. rewrite Hid.
  pose proof (sql_insert_fresh (values_of m) d) as Hfresh.
  pose proof (sql_insert_positive (values_of m) d) as Hpos.
  destruct (sql_insert (values_of m) d) as [i d'] eqn:Hins. cbn in Hfresh, Hpos.
  rewrite Hpos. exists i, d'. split; [done |]. split; [done |].
  unfold sql_insert in Hins. injection Hins as Hi <-. rewrite Hi.
  split.
  - unfold row_count. cbn. by rewrite map_size_insert_None.
  - unfold get_meeting. cbn. rewrite lookup_insert_eq.
    by rewrite row_to_meeting_values.
Qed.

Lemma save_meeting_update m d j :
  valid_lists m -> id m = Some j -> is_Some (rows d !! j) ->
  exists d',
    save_meeting m d = (j, m, d')
    /\ row_count d' = row_count d
    /\ get_meeting j d' = Ok (Some m).
Proof.
  intros Hv Hid [row Hrow]. unfold save_meeting. rewrite Hid.
  eexists. split; [reflexivity |]. split.
  - unfold row_count, sql_update. cbn.
    rewrite <- !(size_dom (D:=gset Z)). by rewrite dom_alter_L.
  - unfold get_meeting, sql_update. cbn. rewrite lookup_alter_eq, Hrow. cbn.
    rewrite row_to_meeting_values by done. by rewrite set_id_same.
Qed.

(** C1 (as amended): for every record whose list fields hold well-formed
    text, [save_meeting] with no identifier inserts a row under an identifier
    that was not in use, hands the record back with that identifier, raises
    the row count by one, and [get_meeting] of that identifier returns the
    record; [save_meeting] with the identifier of a stored row updates that
    row, leaves the row count as it was, and [get_meeting] of that
    identifier returns the record with all its fields. *)
Theorem save_meeting_inserts_or_updates m d :
  valid_lists m ->
  (id m = None ->
     exists i d',
       save_meeting m d = (i, set_id m (Some i), d')
       /\ rows d !! i = None
       /\ row_count d' = S (row_count d)
       /\ get_meeting i d' = Ok (Some (set_id m (Some i))))
  /\ (forall j, id m = Some j -> is_Some (rows d !! j) ->
     exists d',
       save_meeting m d = (j, m, d')
       /\ row_count d' = row_count d
       /\ get_meeting j d' = Ok (Some m)).
Proof.
  intros Hv. split.
  - intros Hid. by apply save_meeting_insert.
  - intros j Hid Hj. by apply save_meeting_update.
Qed.

Lemma sample_meeting_valid : valid_lists sample_meeting.
Proof. split; repeat constructor. Qed.

Lemma save_meeting_inserts_or_updates_witness :
  valid_lists sample_meeting
  /\ id sample_meeting = None
  /\ exists i d',
       save_meeting sample_meeting init_db = (i, set_id sample_meeting (Some i), d')
       /\ rows init_db !! i = None
       /\ row_count d' = S (row_count init_db)
       /\ get_meeting i d' = Ok (Some (set_id sample_meeting (Some i))).
Proof.
  split; [exact sample_meeting_valid |]. split; [reflexivity |].
  apply (save_meeting_inserts_or_updates sample_meeting init_db).
  - exact sample_meeting_valid.
  - reflexivity.
Defined.

(** C1, as stated, fails: a record that carries an identifier no row has is
    saved through UPDATE, which changes nothing, and [get_meeting] of that
    identifier finds no record. *)
Lemma update_of_unknown_id_is_lost :
  ~ (forall m d j,
       valid_lists m -> id m = Some j ->
       get_meeting j (save_meeting m d).2 = Ok (Some m)).
Proof.
  intros H. specialize (H stale_meeting init_db 999%Z).
  assert (get_meeting 999 (save_meeting stale_meeting init_db).2 = Ok None) as E
    by reflexivity.
  rewrite E in H. discriminate H; [exact sample_meeting_valid | reflexivity].
Qed.

(** C2 (as amended): for every record whose list fields hold well-formed
    text, saving it as a new record, or under the identifier of a stored
    row, and reloading it by the identifier [save_meeting] returned yields
    the same [key_points] and the same [action_items], in the same order;
    the empty list is stored as the text of an empty array and reloads as
    the empty list. *)
Theorem list_fields_round_trip m d :
  valid_lists m ->
  (forall j, id m = Some j -> is_Some (rows d !! j)) ->
  (exists m',
     get_meeting (save_meeting m d).1.1 (save_meeting m d).2 = Ok (Some m')
     /\ key_points m' = key_points m
     /\ action_items m' = action_items m)
  /\ dumps [] = lit "[]"
  /\ loads (lit "[]") = Ok (JArr [])
  /\ validate_str_list (JArr []) = Ok [].
Proof.
  intros Hv Hid. split; [| repeat split; reflexivity].
  destruct (id m) as [j |] eqn:Hj.
  - destruct (save_meeting_update m d j Hv Hj (Hid j eq_refl)) as (d' & Hs & _ & Hg).
    rewrite Hs. cbn [fst snd]. rewrite Hg. eauto.
  - destruct (save_meeting_insert m d Hv Hj) as (i & d' & Hs & _ & _ & Hg).
    rewrite Hs. cbn [fst snd]. rewrite Hg.
    eexists. split; [reflexivity |]. by destruct m.
Qed.

Lemma list_fields_round_trip_witness :
  exists m',
    get_meeting (save_meeting sample_meeting init_db).1.1
                (save_meeting sample_meeting init_db).2 = Ok (Some m')
    /\ key_points m' = key_points sample_meeting
    /\ action_items m' = action_items sample_meeting.
Proof.
  apply (list_fields_round_trip sample_meeting init_db).
  - split; repeat constructor.
  - intros j H. vm_compute in H. discriminate H.
Defined.

(** C2, as stated, fails: the lists of a record saved under an identifier
    that no row has are stored nowhere, and reloading by the identifier
    [save_meeting] returned yields no record. *)
Lemma list_fields_lost_for_unknown_id :
  ~ (forall m d,
       valid_lists m ->
       exists m',
         get_meeting (save_meeting m d).1.1 (save_meeting m d).2 = Ok (Some m')
         /\ key_points m' = key_points m
         /\ action_items m' = action_items m).
Proof.
  intros H. destruct (H stale_meeting init_db sample_meeting_valid) as (m' & E & _).
  vm_compute in E. discriminate E.
Qed.

(** C9 (as amended): for every record whose identifier fits in a signed
    64-bit integer and names no row, [save_meeting] takes the UPDATE
    branch, which changes no row and inserts none: nothing is raised, the
    call returns that identifier, the record and the database are as
    before, and [get_meeting] of the identifier still finds nothing. *)
Theorem save_meeting_unknown_id m d j :
  id m = Some j -> MeetingDatabase.fits_int64 j = true -> rows d !! j = None ->
  MeetingDatabase.save_meeting m d = Ok (j, m, d)
  /\ MeetingDatabase.get_meeting j d = Ok None.
Proof.
  intros Hid Hfit Hj.
  unfold MeetingDatabase.save_meeting, MeetingDatabase.get_meeting,
    MeetingDatabase.bind_int.
  rewrite Hid, Hfit. split.
  - unfold save_meeting. rewrite Hid. by rewrite sql_update_absent.
  - unfold get_meeting. by rewrite Hj.
Qed.

Lemma save_meeting_unknown_id_witness :
  MeetingDatabase.save_meeting stale_meeting sample_db
  = Ok (999%Z, stale_meeting, sample_db)
  /\ MeetingDatabase.get_meeting 999 sample_db = Ok None.
Proof.
  apply (save_meeting_unknown_id stale_meeting sample_db 999%Z); reflexivity.
Defined.

(** C9, as stated, fails: an identifier that does not fit in a signed
    64-bit integer names no row, and [save_meeting] of a record that carries
    it raises [OverflowError] when the identifier is bound. *)
Lemma save_meeting_unknown_id_overflow :
  id far_meeting = Some 9223372036854775808%Z
  /\ rows sample_db !! 9223372036854775808%Z = None
  /\ MeetingDatabase.save_meeting far_meeting sample_db = Raise OverflowError.
Proof. repeat split. Qed.

(** *** [delete_meeting] *)

Lemma delete_meeting_present i d row :
  rows d !! i = Some row ->
  delete_meeting i d = (Some (c_audio_path row), sql_delete i d)
  /\ get_meeting i (sql_delete i d) = Ok None
  /\ S (row_count (sql_delete i d)) = row_count d.
Proof.
  intros H. unfold delete_meeting, get_meeting, row_count. rewrite H. cbn.
  rewrite lookup_delete_eq. repeat split; [].
  rewrite map_size_delete_Some by eauto.
  assert (size (rows d) <> 0%nat); [| lia].
  apply map_size_non_empty_iff. intros E. rewrite E, lookup_empty in H. done.
Qed.

Lemma delete_meeting_absent i d :
  rows d !! i = None -> delete_meeting i d = (None, d).
Proof. intros H. unfold delete_meeting. by rewrite H. Qed.

(** *** LIKE *)

Lemma patternCompare_percent pat t :
  patternCompare (37 :: pat) t =
  patternCompare pat t || match t with [] => false | _ :: t' => patternCompare (37 :: pat) t' end.
Proof. destruct t; reflexivity. Qed.

Lemma patternCompare_char p pat t :
  p <> 37 ->
  patternCompare (p :: pat) t =
  match t with
  | [] => false
  | c :: t' => ((p =? 95) || (lower p =? lower c)) && patternCompare pat t'
  end.
Proof.
  intros H. cbn [patternCompare]. rewrite (proj2 (N.eqb_neq _ _) H). reflexivity.
Qed.

(** A leading [%] lets the rest of the pattern start anywhere. *)
Lemma patternCompare_any_suffix pat t :
  patternCompare (37 :: pat) t = true <-> exists a b, t = a ++ b /\ patternCompare pat b = true.
Proof.
  induction t as [| c t IH]; rewrite patternCompare_percent.
  - rewrite orb_false_r. split.
    + intros H. exists [], []. done.
    + intros (a & b & E & H). symmetry in E.
      apply app_eq_nil in E as [_ ->]. done.
  - rewrite orb_true_iff, IH. split.
    + intros [H | (a & b & -> & H)];
        [by exists [], (c :: t) | by exists (c :: a), b].
    + intros (a & b & E & H). destruct a as [| x a].
      * left. cbn in E. by subst.
      * right. injection E as -> ->. eauto.
Qed.

Lemma patternCompare_all t : patternCompare [37] t = true.
Proof. apply patternCompare_any_suffix. exists t, []. by rewrite app_nil_r. Qed.



Lemma c_string_nul_free s : nul_free s -> c_string s = s.
Proof.
  induction 1 as [| c s Hc _ IH]; [done |]. cbn [c_string].
  rewrite (proj2 (N.eqb_neq _ _) Hc). by rewrite IH.
Qed.


Lemma c_string_no_nul s : nul_free (c_string s).
Proof.
  induction s as [| c s IH]; [constructor |]. cbn [c_string].
  destruct (N.eqb_spec c 0); [constructor | by constructor].
Qed.

(** LIKE reads the pattern and the text up to their first NUL. *)
Lemma like_c_string pat t : like pat t = like (c_string pat) (c_string t).
Proof.
  unfold like. by rewrite !(c_string_nul_free (c_string _)) by apply c_string_no_nul.
Qed.


Lemma like_percents_only pat t :
  Forall (fun c => c = 37) pat -> pat <> [] -> like pat t = true.
Proof.
  intros Hp Hne. unfold like.
  rewrite (c_string_nul_free pat)
    by (eapply Forall_impl; [exact Hp | by intros c ->]).
  destruct Hp as [| c pat -> Hp]; [done |]. clear Hne.
  generalize (c_string t). induction Hp as [| c pat -> _ IH]; intros u.
  - apply patternCompare_all.
  - apply patternCompare_any_suffix. by exists [], u.
Qed.

Lemma where_like_empty_query r : where_like ([37] ++ [] ++ [37]) r = true.
Proof.
  unfold where_like. cbn [app].
  assert (forall t, like [37; 37] t = true) as H.
  { intros t. apply like_percents_only; [by repeat constructor | done]. }
  by rewrite !H.
Qed.

Lemma select_like_empty_query d : select_like ([37] ++ [] ++ [37]) d = select_all d.
Proof.
  unfold select_like, select_all. f_equal.
  induction (map_to_list (rows d)) as [| r l IH]; [done |].
  rewrite filter_cons_True by apply where_like_empty_query. by rewrite IH.
Qed.

(** *** The states the program reaches *)

Lemma reachable_decodable d : reachable d -> decodable d.
Proof.
  induction 1 as [| m d _ IH Hm | j d _ IH]; intros i row.
  - unfold init_db. cbn. rewrite lookup_empty. done.
  - unfold save_meeting. destruct (id m) as [j |]; cbn.
    + rewrite lookup_alter. case_decide; [subst j | apply IH].
      destruct (rows d !! i); cbn; [| done]. intros [= <-]. eauto.
    + rewrite lookup_insert. case_decide; [| apply IH]. intros [= <-]. eauto.
  - unfold delete_meeting. destruct (rows d !! j); cbn; [| apply IH].
    rewrite lookup_delete. case_decide; [done | apply IH].
Qed.

Lemma row_to_meeting_fields i row m :
  _row_to_meeting i row = Ok m ->
  id m = Some i /\ title m = c_title row /\ date m = c_date row
  /\ transcript m = c_transcript row /\ summary m = c_summary row
  /\ audio_path m = c_audio_path row.
Proof.
  unfold _row_to_meeting. intros H.
  repeat match type of H with
  | match ?x with _ => _ end = _ => destruct x; try discriminate
  end.
  injection H as <-. cbn. done.
Qed.

Lemma to_meetings_Forall2 l ms :
  to_meetings l = Ok ms ->
  Forall2 (fun r m => _row_to_meeting r.1 r.2 = Ok m) l ms.
Proof.
  revert ms. induction l as [| [i row] l IH]; intros ms H; cbn in H.
  - injection H as <-. constructor.
  - destruct (_row_to_meeting i row) as [m |] eqn:Hm; [| done].
    destruct (to_meetings l) as [ms' |]; [| done].
    injection H as <-. constructor; [done | by apply IH].
Qed.

Lemma to_meetings_ok l :
  (forall i row, (i, row) ∈ l -> exists m, _row_to_meeting i row = Ok m) ->
  exists ms, to_meetings l = Ok ms.
Proof.
  induction l as [| [i row] l IH]; intros H; [by eexists |].
  destruct (H i row) as [m Hm]; [by left |].
  destruct IH as [ms Hms]; [intros; apply H; by right |].
  exists (m :: ms). cbn. by rewrite Hm, Hms.
Qed.

Lemma Forall2_elem_r {A B} (P : A -> B -> Prop) l k y :
  Forall2 P l k -> y ∈ k -> exists x, x ∈ l /\ P x y.
Proof.
  induction 1 as [| x y' l k Hxy _ IH]; intros Hin.
  - by apply elem_of_nil in Hin.
  - apply elem_of_cons in Hin as [-> | Hin].
    + exists x. split; [by left | done].
    + destruct (IH Hin) as (x' & ? & ?). exists x'. split; [by right | done].
Qed.

Lemma Forall2_elem_l {A B} (P : A -> B -> Prop) l k x :
  Forall2 P l k -> x ∈ l -> exists y, y ∈ k /\ P x y.
Proof.
  induction 1 as [| x' y l k Hxy _ IH]; intros Hin.
  - by apply elem_of_nil in Hin.
  - apply elem_of_cons in Hin as [-> | Hin].
    + exists y. split; [by left | done].
    + destruct (IH Hin) as (y' & ? & ?). exists y'. split; [by right | done].
Qed.

(** *** ORDER BY date DESC *)

Lemma str_compare_antisym a : forall b,
  str_compare b a = CompOpp (str_compare a b).
Proof.
  induction a as [| x a IH]; intros [| y b]; try reflexivity.
  cbn. rewrite (N.compare_antisym x y). destruct (x ?= y); cbn; auto.
Qed.

Lemma str_compare_eq a : forall b, str_compare a b = Eq -> a = b.
Proof.
  induction a as [| x a IH]; intros [| y b]; cbn; try done.
  destruct (N.compare_spec x y) as [-> | |]; try done.
  intros Hab. f_equal. by apply IH.
Qed.

Lemma str_compare_gt_trans a : forall b c,
  str_compare a b = Gt -> str_compare b c = Gt -> str_compare a c = Gt.
Proof.
  induction a as [| x a IH]; intros [| y b] [| z c]; cbn; try done.
  destruct (N.compare_spec x y), (N.compare_spec y z), (N.compare_spec x z);
    try done; try lia; eauto.
Qed.

#[local] Instance newest_first_total : Total newest_first.
Proof.
  intros a b. unfold newest_first, date_desc.
  rewrite (str_compare_antisym (c_date a.2) (c_date b.2)).
  destruct (str_compare (c_date a.2) (c_date b.2)); cbn; auto.
  destruct (Z.leb_spec a.1 b.1); [by left | right]. apply Z.leb_le. lia.
Qed.

#[local] Instance date_ge_trans : Transitive date_ge.
Proof.
  intros a b c. unfold date_ge. intros Hab Hbc.
  destruct (str_compare (date a) (date b)) eqn:E1; [| done |].
  - apply str_compare_eq in E1. by rewrite E1.
  - destruct (str_compare (date b) (date c)) eqn:E2; [| done |].
    + apply str_compare_eq in E2. by rewrite <- E2, E1.
    + by rewrite (str_compare_gt_trans _ _ _ E1 E2).
Qed.

Lemma newest_first_date_ge r1 r2 m1 m2 :
  newest_first r1 r2 ->
  _row_to_meeting r1.1 r1.2 = Ok m1 -> _row_to_meeting r2.1 r2.2 = Ok m2 ->
  date_ge m1 m2.
Proof.
  unfold newest_first, date_desc, date_ge.
  intros H (_ & _ & -> & _)%row_to_meeting_fields
           (_ & _ & -> & _)%row_to_meeting_fields.
  by destruct (str_compare (c_date r1.2) (c_date r2.2)).
Qed.

Lemma Sorted_to_meetings l ms :
  Sorted newest_first l ->
  Forall2 (fun r m => _row_to_meeting r.1 r.2 = Ok m) l ms ->
  StronglySorted date_ge ms.
Proof.
  intros Hs HF. apply Sorted_StronglySorted; [apply _ |].
  induction HF as [| r m l ms Hrm HF IH]; [constructor |].
  apply Sorted_inv in Hs as [Hs Hhd]. constructor; [by apply IH |].
  destruct HF as [| r' m' l' ms' Hrm' _]; constructor.
  apply HdRel_inv in Hhd. eauto using newest_first_date_ge.
Qed.

Lemma select_like_elem pat d i row :
  (i, row) ∈ select_like pat d <->
  rows d !! i = Some row /\ where_like pat (i, row) = true.
Proof.
  unfold select_like, order_by_date_desc.
  rewrite merge_sort_Permutation, list_elem_of_filter, elem_of_map_to_list. tauto.
Qed.

(** What a SELECT with a LIKE filter returns on a reachable database: the
    records of the rows that pass the filter, newest first. *)
Lemma select_like_records pat d :
  reachable d ->
  exists ms,
    to_meetings (select_like pat d) = Ok ms
    /\ (forall m, m ∈ ms <->
          exists i row, rows d !! i = Some row
                        /\ where_like pat (i, row) = true
                        /\ _row_to_meeting i row = Ok m)
    /\ StronglySorted date_ge ms.
Proof.
  intros Hd%reachable_decodable.
  destruct (to_meetings_ok (select_like pat d)) as [ms Hms].
  { intros i row [Hrow _]%select_like_elem.
    destruct (Hd i row Hrow) as (m & Hm & ->).
    rewrite row_to_meeting_values; eauto. }
  exists ms. split; [done |].
  pose proof (to_meetings_Forall2 _ _ Hms) as HF. split.
  - intros m. split.
    + intros Hin. destruct (Forall2_elem_r _ _ _ _ HF Hin) as ([i row] & Hr & Hrm).
      cbn in Hrm. apply select_like_elem in Hr as [Hrow Hlike]. eauto.
    + intros (i & row & Hrow & Hlike & Hrm).
      assert ((i, row) ∈ select_like pat d) as Hin by (by apply select_like_elem).
      destruct (Forall2_elem_l _ _ _ _ HF Hin) as (m' & Hin' & Hrm').
      cbn in Hrm'. rewrite Hrm in Hrm'. by injection Hrm' as <-.
  - eapply Sorted_to_meetings; [| done]. apply Sorted_merge_sort. apply _.
Qed.

Lemma get_meeting_row i d m :
  get_meeting i d = Ok (Some m) <->
  exists row, rows d !! i = Some row /\ _row_to_meeting i row = Ok m.
Proof.
  unfold get_meeting. split.
  - destruct (rows d !! i) as [row |]; [| done].
    destruct (_row_to_meeting i row) as [m' |] eqn:E; [| done].
    intros [= <-]. eauto.
  - intros (row & -> & ->). done.
Qed.

Lemma to_meetings_ids l ms :
  to_meetings l = Ok ms -> map id ms = map (fun r => Some r.1) l.
Proof.
  intros HF%to_meetings_Forall2.
  induction HF as [| r m l ms Hrm _ IH]; [done |].
  apply row_to_meeting_fields in Hrm as (Hid & _). cbn. by rewrite Hid, IH.
Qed.




Lemma search_meetings_searchable q d :
  searchable q ->
  search_meetings q d = to_meetings (select_like ([37] ++ q ++ [37]) d).
Proof. unfold searchable, search_meetings. by intros ->. Qed.


Lemma workshop_db_reachable : reachable workshop_db.
Proof.
  unfold workshop_db, sample_db.
  repeat (apply reach_save; [| split; repeat constructor]).
  apply reach_init.
Qed.



(** C10: for every database state, [search_meetings] with the empty query
    is [get_all_meetings]; on every state the program reaches it returns
    every stored record, sorted by date descending. *)
Theorem search_empty_query_is_get_all d :
  search_meetings [] d = get_all_meetings d
  /\ (reachable d ->
      exists ms,
        search_meetings [] d = Ok ms
        /\ get_all_meetings d = Ok ms
        /\ (forall m, m ∈ ms <-> exists i, get_meeting i d = Ok (Some m))
        /\ StronglySorted date_ge ms).
Proof.
  assert (search_meetings [] d = get_all_meetings d) as E.
  { rewrite search_meetings_searchable by reflexivity.
    unfold get_all_meetings. by rewrite select_like_empty_query. }
  split; [done |]. intros Hd. rewrite <- E.
  rewrite search_meetings_searchable by reflexivity.
  destruct (select_like_records ([37] ++ [] ++ [37]) d Hd) as (ms & Hms & Hin & Hs).
  exists ms. split; [done |]. split; [done |]. split; [| done].
  intros m. rewrite Hin. split.
  - intros (i & row & Hrow & _ & Hrm). exists i. apply get_meeting_row. eauto.
  - intros [i (row & Hrow & Hrm)%get_meeting_row].
    exists i, row. split; [done |]. split; [apply where_like_empty_query | done].
Qed.

Lemma search_empty_query_is_get_all_witness :
  exists ms,
    search_meetings [] workshop_db = Ok ms
    /\ get_all_meetings workshop_db = Ok ms
    /\ (forall m, m ∈ ms <-> exists i, get_meeting i workshop_db = Ok (Some m))
    /\ StronglySorted date_ge ms.
Proof.
  apply (search_empty_query_is_get_all workshop_db).
  exact workshop_db_reachable.
Defined.

End Store.

(** ** The summarization pipeline *)

Section Chunks.

Lemma div_up_spec n : (n <= (n + 799) / 800 * 800 < n + 800)%nat.
Proof.
  pose proof (Nat.div_mod_eq (n + 799) 800).
  pose proof (Nat.mod_upper_bound (n + 799) 800). lia.
Qed.

Lemma range_from_pieces {A} (ws : list A) step : forall count start,
  concat (map (fun i => take step (drop i ws)) (range_from count start step))
  = take (count * step) (drop start ws).
Proof.
  induction count as [| count IH]; intros start; [done |].
  cbn [range_from map concat]. rewrite IH.
  rewrite <- (drop_drop ws step start), take_take_drop. f_equal.
Qed.

Lemma length_range_from count : forall start step,
  length (range_from count start step) = count.
Proof. induction count; intros; cbn; [done | by rewrite IHcount]. Qed.

Lemma chunk_count t :
  length (_chunk_transcript t MAX_WORDS) = ((length (split t) + 799) / 800)%nat.
Proof.
  unfold _chunk_transcript, range, MAX_WORDS.
  rewrite length_map, length_range_from. f_equal. lia.
Qed.

(** The words of the chunks are the slices of the words of the
    transcript. *)
Lemma chunk_words t :
  map split (_chunk_transcript t MAX_WORDS)
  = map (fun i => take 800 (drop i (split t))) (range (length (split t)) 800).
Proof.
  unfold _chunk_transcript, MAX_WORDS. rewrite map_map. apply map_ext. intros i.
  apply split_join. apply Forall_take, Forall_drop, split_words.
Qed.

(** The chunks, in order, hold the words of the transcript, in order. *)
Lemma chunks_cover t :
  concat (map split (_chunk_transcript t MAX_WORDS)) = split t.
Proof.
  rewrite chunk_words. unfold range. rewrite range_from_pieces, drop_0.
  apply take_ge.
  replace (length (split t) + 800 - 1)%nat with (length (split t) + 799)%nat
    by lia.
  apply div_up_spec.
Qed.

Lemma chunks_bounded t :
  Forall (fun c => (length (split c) <= 800)%nat) (_chunk_transcript t MAX_WORDS).
Proof.
  apply Forall_forall. intros c Hc.
  assert (split c ∈ map split (_chunk_transcript t MAX_WORDS)) as H
    by (by apply list_elem_of_fmap_2).
  rewrite chunk_words in H. apply list_elem_of_fmap in H as (i & -> & _).
  rewrite length_take. lia.
Qed.

End Chunks.

Section Requests.

Variable endpoint : list request -> result (option str).

Lemma chat_log_grows sp um log :
  (_chat endpoint sp um log).2 = log ++ [(sp, um)].
Proof. unfold _chat. by destruct (endpoint _). Qed.

Lemma chat_responsive sp um log :
  responsive endpoint ->
  exists answer, _chat endpoint sp um log = (Ok answer, log ++ [(sp, um)]).
Proof.
  intros H. unfold _chat. destruct (H (log ++ [(sp, um)])) as [c ->]. eauto.
Qed.

(** What [_chat] returns when the endpoint answers: the content of the
    answer, stripped. *)
Lemma chat_answer sp um log :
  responsive endpoint ->
  exists content,
    endpoint (log ++ [(sp, um)]) = Ok content
    /\ _chat endpoint sp um log
       = (Ok (strip (default [] content)), log ++ [(sp, um)]).
Proof.
  intros H. unfold _chat. destruct (H (log ++ [(sp, um)])) as [c Hc].
  exists c. rewrite Hc. split; [done |]. by destruct c.
Qed.

(** With an endpoint that answers, the chunks are sent in order and the
    partial summaries are, in that order, the stripped answers. *)
Lemma for_each_chat chunks : forall log,
  responsive endpoint ->
  exists partial,
    for_each (fun c => _chat endpoint SUMMARY_PROMPT (transcript_message c))
      chunks log
    = (Ok partial, log ++ map summary_request chunks)
    /\ length partial = length chunks
    /\ forall k c, chunks !! k = Some c ->
         exists content,
           endpoint (log ++ map summary_request (take (S k) chunks)) = Ok content
           /\ partial !! k = Some (strip (default [] content)).
Proof.
  induction chunks as [| c chunks IH]; intros log H.
  - exists []. cbn. rewrite app_nil_r. split; [done |]. split; [done |].
    intros k c Hk. by rewrite lookup_nil in Hk.
  - destruct (chat_answer SUMMARY_PROMPT (transcript_message c) log H)
      as (content0 & Hc0 & Ha).
    destruct (IH (log ++ [summary_request c]) H) as (partial & Hp & Hlen & Hans).
    exists (strip (default [] content0) :: partial).
    cbn [for_each]. unfold bind at 1. rewrite Ha.
    unfold bind at 1. unfold summary_request in Hp at 1. rewrite Hp. cbn.
    rewrite <- app_assoc. split; [done |]. split; [by rewrite Hlen |].
    intros [| k] c' Hk.
    + exists content0. split; [| done]. cbn. by rewrite take_0.
    + destruct (Hans k c' Hk) as (content & Hc & Hpk).
      exists content. split; [| done].
      rewrite <- app_assoc in Hc. exact Hc.
Qed.

Lemma summary_short t log :
  (length (split t) <= 800)%nat ->
  exists msg,
    (generate_summary endpoint t log).2 = log ++ [(SUMMARY_PROMPT, msg)].
Proof.
  intros Hn. unfold generate_summary.
  pose proof (chunk_count t) as Hc.
  pose proof (div_up_spec (length (split t))) as Hd.
  destruct (_chunk_transcript t MAX_WORDS) as [| c [| c2 chunks]];
    cbn [length] in Hc.
  - cbn. rewrite chat_log_grows. eauto.
  - cbn. rewrite chat_log_grows. eauto.
  - exfalso. rewrite <- Hc in Hd. lia.
Qed.

Lemma summary_long t log :
  (800 < length (split t))%nat -> responsive endpoint ->
  exists partial final,
    length partial = length (_chunk_transcript t MAX_WORDS)
    /\ (forall k c, _chunk_transcript t MAX_WORDS !! k = Some c ->
          exists content,
            endpoint (log ++ map summary_request
                               (take (S k) (_chunk_transcript t MAX_WORDS)))
            = Ok content
            /\ partial !! k = Some (strip (default [] content)))
    /\ (exists content,
          endpoint (log ++ map summary_request (_chunk_transcript t MAX_WORDS)
                        ++ [summary_request (join [NL; NL] partial)])
          = Ok content
          /\ final = strip (default [] content))
    /\ generate_summary endpoint t log
       = (Ok final,
          log ++ map summary_request (_chunk_transcript t MAX_WORDS)
              ++ [summary_request (join [NL; NL] partial)]).
Proof.
  intros Hn Hr. unfold generate_summary.
  set (chunks := _chunk_transcript t MAX_WORDS).
  assert (2 <= length chunks)%nat as Hlen.
  { unfold chunks. rewrite chunk_count.
    pose proof (div_up_spec (length (split t))). lia. }
  destruct (Nat.eqb_spec (length chunks) 1) as [E | _]; [lia |].
  destruct (for_each_chat chunks log Hr) as (partial & Hp & Hpl & Hans).
  destruct (chat_answer SUMMARY_PROMPT
              (transcript_message (join [NL; NL] partial))
              (log ++ map summary_request chunks) Hr) as (content & Hc & Hf).
  exists partial, (strip (default [] content)).
  split; [done |]. split; [done |]. rewrite <- app_assoc in Hc. split; [eauto |].
  unfold bind. rewrite Hp, Hf. by rewrite <- app_assoc.
Qed.

(** C4: for every transcript of at most 800 words, [generate_summary]
    sends exactly one request.  For every transcript of more than 1600
    words, the chunks are at least two, each has at most 800 words, and
    their words, in order, are the words of the transcript (no word is
    split); when the endpoint answers, one request is sent per chunk, in
    order; the partial summaries are, one per chunk and in that order, the
    stripped answers of the endpoint to these requests; then one final
    request is sent, which carries the partial summaries joined by blank
    lines, and the summary returned is the stripped answer to it. *)
Theorem generate_summary_requests t log :
  ((length (split t) <= 800)%nat ->
     exists msg,
       (generate_summary endpoint t log).2 = log ++ [(SUMMARY_PROMPT, msg)])
  /\ ((1600 < length (split t))%nat ->
      (2 <= length (_chunk_transcript t MAX_WORDS))%nat
      /\ Forall (fun c => (length (split c) <= 800)%nat)
                (_chunk_transcript t MAX_WORDS)
      /\ concat (map split (_chunk_transcript t MAX_WORDS)) = split t
      /\ (responsive endpoint ->
          exists partial final,
            length partial = length (_chunk_transcript t MAX_WORDS)
            /\ (forall k c, _chunk_transcript t MAX_WORDS !! k = Some c ->
                  exists content,
                    endpoint (log ++ map summary_request
                                       (take (S k) (_chunk_transcript t MAX_WORDS)))
                    = Ok content
                    /\ partial !! k = Some (strip (default [] content)))
            /\ (exists content,
                  endpoint (log ++ map summary_request
                                     (_chunk_transcript t MAX_WORDS)
                                ++ [summary_request (join [NL; NL] partial)])
                  = Ok content
                  /\ final = strip (default [] content))
            /\ generate_summary endpoint t log
               = (Ok final,
                  log ++ map summary_request (_chunk_transcript t MAX_WORDS)
                      ++ [summary_request (join [NL; NL] partial)]))).
Proof.
  split; [apply summary_short |]. intros Hn.
  split; [| split; [apply chunks_bounded | split; [apply chunks_cover |]]].
  - rewrite chunk_count. pose proof (div_up_spec (length (split t))). lia.
  - intros Hr. apply summary_long; [lia | done].
Qed.

Lemma truncate_extra t extra :
  (800 <= length (split t))%nat ->
  truncate (t ++ [SPACE] ++ extra) = truncate t.
Proof.
  intros H. unfold truncate. by rewrite split_app_space, take_app_le.
Qed.

(** C8: for every transcript, the request [generate_title],
    [extract_key_points], [extract_action_items] and [answer_question] send
    carries the first 800 words of the transcript joined by single spaces;
    text that follows the 800th word changes nothing in what these
    operations do. *)
Theorem truncated_to_800_words t question log :
  (generate_title endpoint t log).2
  = log ++ [(TITLE_PROMPT,
             transcript_message (join [SPACE] (take 800 (split t))))]
  /\ (extract_key_points endpoint t log).2
     = log ++ [(KEY_POINTS_PROMPT,
                transcript_message (join [SPACE] (take 800 (split t))))]
  /\ (extract_action_items endpoint t log).2
     = log ++ [(ACTION_ITEMS_PROMPT,
                transcript_message (join [SPACE] (take 800 (split t))))]
  /\ (answer_question endpoint t question log).2
     = log ++ [(QA_PROMPT,
                transcript_message (join [SPACE] (take 800 (split t)))
                ++ [NL; NL] ++ lit "Question: " ++ question)]
  /\ forall extra, (800 <= length (split t))%nat ->
       generate_title endpoint (t ++ [SPACE] ++ extra)
       = generate_title endpoint t
       /\ extract_key_points endpoint (t ++ [SPACE] ++ extra)
          = extract_key_points endpoint t
       /\ extract_action_items endpoint (t ++ [SPACE] ++ extra)
          = extract_action_items endpoint t
       /\ answer_question endpoint (t ++ [SPACE] ++ extra) question
          = answer_question endpoint t question.
Proof.
  repeat split.
  - apply chat_log_grows.
  - unfold extract_key_points, bind, lift. fold (truncate t).
    pose proof (chat_log_grows KEY_POINTS_PROMPT
                  (transcript_message (truncate t)) log) as H.
    by destruct (_chat endpoint _ _ log) as [[] ?].
  - unfold extract_action_items, bind, lift. fold (truncate t).
    pose proof (chat_log_grows ACTION_ITEMS_PROMPT
                  (transcript_message (truncate t)) log) as H.
    by destruct (_chat endpoint _ _ log) as [[] ?].
  - apply chat_log_grows.
  - unfold generate_title. by rewrite truncate_extra.
  - unfold extract_key_points. by rewrite truncate_extra.
  - unfold extract_action_items. by rewrite truncate_extra.
  - unfold answer_question. by rewrite truncate_extra.
Qed.

End Requests.

Lemma answers_responsive answer : responsive (answers answer).
Proof. intros log. by eexists. Qed.

Lemma generate_summary_requests_witness :
  (exists msg,
     (generate_summary (answers "ok") (words 10) []).2
     = [] ++ [(SUMMARY_PROMPT, msg)])
  /\ (2 <= length (_chunk_transcript (words 1601) MAX_WORDS))%nat
  /\ exists partial final,
       length partial = length (_chunk_transcript (words 1601) MAX_WORDS)
       /\ (forall k c, _chunk_transcript (words 1601) MAX_WORDS !! k = Some c ->
             exists content,
               answers "ok"
                 ([] ++ map summary_request
                          (take (S k) (_chunk_transcript (words 1601) MAX_WORDS)))
               = Ok content
               /\ partial !! k = Some (strip (default [] content)))
       /\ (exists content,
             answers "ok"
               ([] ++ map summary_request (_chunk_transcript (words 1601) MAX_WORDS)
                   ++ [summary_request (join [NL; NL] partial)])
             = Ok content
             /\ final = strip (default [] content))
       /\ generate_summary (answers "ok") (words 1601) []
          = (Ok final,
             [] ++ map summary_request (_chunk_transcript (words 1601) MAX_WORDS)
                ++ [summary_request (join [NL; NL] partial)]).
Proof.
  assert (1600 < length (split (words 1601)))%nat as Hn
    by (apply Nat.ltb_lt; vm_compute; reflexivity).
  split; [| split].
  - apply (generate_summary_requests (answers "ok") (words 10) []).
    apply Nat.leb_le. vm_compute. reflexivity.
  - by apply (generate_summary_requests (answers "ok") (words 1601) []).
  - apply (generate_summary_requests (answers "ok") (words 1601) []);
      [exact Hn | intros log; by eexists].
Defined.

(** The long case of C4 on an example: three chunks, three partial
    summaries, and the final request over them. *)
Example generate_summary_reduces :
  generate_summary (answers " part ") (words 1601) []
  = (Ok (lit "part"),
     map summary_request (_chunk_transcript (words 1601) MAX_WORDS)
     ++ [summary_request
           (lit "part" ++ [NL; NL] ++ lit "part" ++ [NL; NL] ++ lit "part")]).
Proof. vm_compute. reflexivity. Qed.

Lemma truncated_to_800_words_witness :
  generate_title (answers "ok") (words 800 ++ [SPACE] ++ lit "and more")
  = generate_title (answers "ok") (words 800).
Proof.
  apply (truncated_to_800_words (answers "ok") (words 800) [] []).
  apply Nat.leb_le. vm_compute. reflexivity.
Defined.

(** *** [_parse_json_list] *)

(** What [_parse_json_list] does on every response: when the cleaned
    response decodes, the decoded value is returned as it is; when decoding
    fails with [JSONDecodeError], the lines kept by the fallback are
    returned; the other errors of [json.loads], [ValueError] and
    [RecursionError], are not caught. *)
Lemma parse_json_list_returns response :
  (forall w, loads (cleaned_response response) = Ok w ->
     _parse_json_list response = Ok w)
  /\ (loads (cleaned_response response) = Raise JSONDecodeError ->
      _parse_json_list response = Ok (JArr (map JStr (fallback_lines response))))
  /\ (forall e, _parse_json_list response = Raise e ->
        (e = ValueError \/ e = RecursionError)
        /\ loads (cleaned_response response) = Raise e).
Proof.
  unfold _parse_json_list.
  destruct (loads (cleaned_response response)) as [v | e] eqn:H.
  - split; [by intros ? [= ->] |]. split; done.
  - split; [done |]. split; [by intros [= ->] |].
    intros x. apply loads_raises in H as [-> | [-> | ->]]; [done | |];
      intros [= <-]; (split; [| done]); [by left | by right].
Qed.

(** C3 (the code departs from it): the response [null] decodes as JSON, so
    the fallback does not run, and [_parse_json_list], hence
    [extract_action_items] and [extract_key_points], returns the decoded
    value, which is no sequence of strings; building the record from it is
    rejected, and the run of the pipeline ends in that error with nothing
    stored. *)
Theorem parse_json_list_non_array :
  _parse_json_list (lit "null") = Ok JNull
  /\ (extract_key_points (answers "null") (lit "hello there") []).1 = Ok JNull
  /\ (extract_action_items (answers "null") (lit "hello there") []).1 = Ok JNull
  /\ validate_str_list JNull = Raise ValidationError
  /\ (_process_audio (answers "null") (hears "hello there") (lasts 5)
        (lit "2024-03-01 09:00") (lit "uploads/a.wav") empty_world).1
     = Raise ValidationError
  /\ database
       (_process_audio (answers "null") (hears "hello there") (lasts 5)
          (lit "2024-03-01 09:00") (lit "uploads/a.wav") empty_world).2
     = init_db.
Proof. repeat split; vm_compute; reflexivity. Qed.

(** ** The orchestrator *)

Section Orchestrator.

Variable endpoint : list request -> result (option str).
Variable whisper : str -> result raw_transcription.
Variable sf_info : str -> result Q.
Variable now : str.

(** C7: for every run of [_process_audio], either the database is left as
    it was, or the transcription succeeded with text that is not blank, the
    summarization succeeded, and the run completed; when the transcription
    is reached and its text is empty or only whitespace, the run ends with
    "No speech detected", no request has been sent to the chat endpoint and
    the database is as it was. *)
Theorem process_audio_no_partial_persistence path w :
  (database (_process_audio endpoint whisper sf_info now path w).2 = database w
   \/ exists t a,
        transcribe_file whisper path = Ok t
        /\ strip (text t) <> []
        /\ (process_meeting endpoint (text t) (chat_log w)).1 = Ok a
        /\ (_process_audio endpoint whisper sf_info now path w).1 = Ok Processed)
  /\ (forall t,
        too_short sf_info path = false ->
        transcribe_file whisper path = Ok t ->
        Forall (fun c => isspace c = true) (text t) ->
        (_process_audio endpoint whisper sf_info now path w).1 = Ok NoSpeech
        /\ status (_process_audio endpoint whisper sf_info now path w).2
           = Some (lit "No speech detected")
        /\ chat_log (_process_audio endpoint whisper sf_info now path w).2
           = chat_log w
        /\ database (_process_audio endpoint whisper sf_info now path w).2
           = database w).
Proof.
  unfold _process_audio. cbv zeta.
  change (chat_log (set_status (lit "Processing meeting...") w))
    with (chat_log w).
  split.
  - destruct (too_short sf_info path); [by left |].
    destruct (transcribe_file whisper path) as [t |]; [| by left].
    destruct (strip (text t)) as [| c s] eqn:Hs; [by left |]. cbn [truthy negb].
    destruct (process_meeting endpoint (text t) (chat_log w)) as [[a |] log] eqn:Hp;
      [| left; reflexivity].
    destruct (new_meeting now a (text t) path) as [m |]; [| left; reflexivity].
    right. exists t, a.
    unfold db_save_meeting. destruct (save_meeting m _) as [[i m'] d'].
    split; [done |]. split; [by rewrite Hs |]. split; [by rewrite Hp | done].
  - intros t -> -> Hs%strip_blank. rewrite Hs. cbn. done.
Qed.

End Orchestrator.

Lemma process_audio_no_partial_persistence_witness :
  (_process_audio (answers "ok") (hears "   ") (lasts 5)
     (lit "2024-03-01 09:00") (lit "uploads/a.wav") sample_world).1 = Ok NoSpeech
  /\ status (_process_audio (answers "ok") (hears "   ") (lasts 5)
       (lit "2024-03-01 09:00") (lit "uploads/a.wav") sample_world).2
     = Some (lit "No speech detected")
  /\ chat_log (_process_audio (answers "ok") (hears "   ") (lasts 5)
       (lit "2024-03-01 09:00") (lit "uploads/a.wav") sample_world).2
     = chat_log sample_world
  /\ database (_process_audio (answers "ok") (hears "   ") (lasts 5)
       (lit "2024-03-01 09:00") (lit "uploads/a.wav") sample_world).2
     = database sample_world.
Proof.
  eapply (proj2 (process_audio_no_partial_persistence (answers "ok") (hears "   ")
                   (lasts 5) (lit "2024-03-01 09:00") (lit "uploads/a.wav")
                   sample_world)).
  - reflexivity.
  - reflexivity.
  - constructor.
Defined.

(** *** The delete button *)

Lemma set_database_same w : set_database (database w) w = w.
Proof. by destruct w. Qed.

(** C6 (as amended): for every identifier and every state,
    [delete_meeting] leaves the files on disk untouched; for every
    identifier that fits in a signed 64-bit integer: when it names a row,
    the row is removed, the [audio_path] stored in it is returned, whatever
    it is, and [get_meeting] of that identifier then finds nothing; when it
    names no row, nothing is returned and nothing changes.  In particular
    the identifier [save_meeting] gave to a new record names its row, and
    deleting it returns the record's [audio_path]. *)
Theorem delete_meeting_returns_audio_path i w :
  files (on_database (MeetingDatabase.delete_meeting i) w).2 = files w
  /\ (MeetingDatabase.fits_int64 i = true ->
      (forall row, rows (database w) !! i = Some row ->
         (on_database (MeetingDatabase.delete_meeting i) w).1
         = Ok (Some (c_audio_path row))
         /\ MeetingDatabase.get_meeting i
              (database (on_database (MeetingDatabase.delete_meeting i) w).2)
            = Ok None
         /\ S (row_count
                 (database (on_database (MeetingDatabase.delete_meeting i) w).2))
            = row_count (database w))
      /\ (rows (database w) !! i = None ->
          on_database (MeetingDatabase.delete_meeting i) w = (Ok None, w)))
  /\ (forall m,
        id m = None ->
        MeetingDatabase.fits_int64 (db_save_meeting m w).1.1 = true ->
        (on_database
           (MeetingDatabase.delete_meeting (db_save_meeting m w).1.1)
           (db_save_meeting m w).2).1
        = Ok (Some (audio_path m))).
Proof.
  unfold on_database, MeetingDatabase.delete_meeting,
    MeetingDatabase.get_meeting, MeetingDatabase.bind_int.
  split; [| split].
  - destruct (MeetingDatabase.fits_int64 i); [| done].
    by destruct (delete_meeting i (database w)).
  - intros ->. split.
    + intros row H.
      destruct (delete_meeting_present i _ row H) as (-> & Hg & Hc). done.
    + intros H. rewrite delete_meeting_absent by done.
      by rewrite set_database_same.
  - intros m Hid ->. unfold db_save_meeting. rewrite save_meeting_new by done.
    cbn. unfold delete_meeting. cbn. rewrite lookup_insert_eq. done.
Qed.

Lemma delete_meeting_returns_audio_path_witness :
  (on_database (MeetingDatabase.delete_meeting 1) sample_world).1 = Ok (Some [])
  /\ MeetingDatabase.get_meeting 1
       (database (on_database (MeetingDatabase.delete_meeting 1) sample_world).2)
     = Ok None
  /\ S (row_count
          (database (on_database (MeetingDatabase.delete_meeting 1) sample_world).2))
     = row_count (database sample_world).
Proof.
  apply (proj1 (proj1 (proj2 (delete_meeting_returns_audio_path 1 sample_world))
                  eq_refl)
           (values_of sample_meeting)).
  reflexivity.
Defined.

(** C6, as stated, fails: an identifier that does not fit in a signed
    64-bit integer names no row, and [delete_meeting] of it raises
    [OverflowError] when the identifier is bound, instead of returning
    nothing. *)
Lemma delete_meeting_overflow :
  rows (database sample_world) !! 9223372036854775808%Z = None
  /\ on_database (MeetingDatabase.delete_meeting 9223372036854775808) sample_world
     = (Raise OverflowError, sample_world).
Proof. split; reflexivity. Qed.


(** ** The cases of [tests/test_database.py], run on the model *)

Section Tests.

Example test_save_and_retrieve :
  save_meeting sample_meeting init_db
  = (1%Z, set_id sample_meeting (Some 1%Z), sample_db)
  /\ get_meeting 1 sample_db = Ok (Some (set_id sample_meeting (Some 1%Z))).
Proof. split; vm_compute; reflexivity. Qed.

Example test_update_meeting :
  get_meeting 1
    (save_meeting
       (set_title (set_id sample_meeting (Some 1%Z)) (lit "Updated Sprint Planning"))
       sample_db).2
  = Ok (Some (set_title (set_id sample_meeting (Some 1%Z))
                (lit "Updated Sprint Planning"))).
Proof. vm_compute. reflexivity. Qed.

Example test_get_all_meetings :
  get_all_meetings workshop_db
  = Ok [set_id python_workshop (Some 2%Z); set_id sample_meeting (Some 1%Z)].
Proof. vm_compute. reflexivity. Qed.

Example test_delete_meeting :
  (delete_meeting 1 sample_db).1 = Some []
  /\ get_meeting 1 (delete_meeting 1 sample_db).2 = Ok None.
Proof. split; vm_compute; reflexivity. Qed.

Example test_delete_nonexistent : (delete_meeting 999 init_db).1 = None.
Proof. reflexivity. Qed.

Example test_search_meetings :
  search_meetings (lit "Python") workshop_db
  = Ok [set_id python_workshop (Some 2%Z)]
  /\ search_meetings (lit "tasks") workshop_db
     = Ok [set_id sample_meeting (Some 1%Z)].
Proof. split; vm_compute; reflexivity. Qed.

Example test_get_nonexistent_meeting : get_meeting 999 init_db = Ok None.
Proof. reflexivity. Qed.

(** An identifier is not used again after its row is deleted. *)
Example autoincrement_after_delete :
  (save_meeting python_workshop (delete_meeting 1 sample_db).2).1.1 = 2%Z.
Proof. vm_compute. reflexivity. Qed.

(** The store only names the audio file; the delete button removes it. *)
Example on_delete_unlinks :
  db_delete_meeting 1 recorded_world
  = (Some (lit "uploads/a.wav"), set_database (sql_delete 1 (database recorded_world)) recorded_world)
  /\ files (db_delete_meeting 1 recorded_world).2 = {[ lit "uploads/a.wav" ]}
  /\ files (on_delete (set_id recorded_meeting (Some 1%Z)) recorded_world) = ∅.
Proof. repeat split; vm_compute; reflexivity. Qed.

Example parse_fenced_array :
  _parse_json_list (lit "```json" ++ [NL] ++ lit "[1, 2]" ++ [NL] ++ lit "```")
  = Ok (JArr [JInt 1; JInt 2]).
Proof. vm_compute. reflexivity. Qed.

Example parse_fallback_lines :
  _parse_json_list
    (lit "- item one" ++ [NL] ++ lit "2. item two" ++ [NL; NL]
     ++ lit "import x" ++ [NL] ++ lit "[")
  = Ok (JArr [JStr (lit "item one"); JStr (lit "item two")]).
Proof. vm_compute. reflexivity. Qed.

Example chunk_example :
  _chunk_transcript (lit "a b  c d e") 2 = [lit "a b"; lit "c d"; lit "e"].
Proof. reflexivity. Qed.

Example process_audio_stores :
  (_process_audio (answers "[]") (hears " We agreed to ship ") (lasts 5)
     (lit "2024-03-01 09:00") (lit "uploads/a.wav") empty_world).1 = Ok Processed
  /\ row_count
       (database
          (_process_audio (answers "[]") (hears " We agreed to ship ") (lasts 5)
             (lit "2024-03-01 09:00") (lit "uploads/a.wav") empty_world).2) = 1%nat
  /\ length
       (chat_log
          (_process_audio (answers "[]") (hears " We agreed to ship ") (lasts 5)
             (lit "2024-03-01 09:00") (lit "uploads/a.wav") empty_world).2) = 4%nat.
Proof. repeat split; vm_compute; reflexivity. Qed.

Example process_audio_too_short :
  _process_audio (answers "[]") (hears "hello") (lasts 0.5)
    (lit "2024-03-01 09:00") (lit "uploads/a.wav") empty_world
  = (Ok TooShort,
     set_status (lit "Audio too short") empty_world).
Proof. vm_compute. reflexivity. Qed.

End Tests.
(** * Further properties *)

Import Vocabulary LazyModel Session MoreSamples.

(** ** The record store, continued *)

Section MoreStore.

(** X1: [save_meeting] and [delete_meeting] touch one row only: every row
    other than the one saved, or the one deleted, is left as it was, and
    [get_meeting] of any other identifier answers as before. *)
Theorem other_rows_untouched m d i k :
  (k <> (save_meeting m d).1.1 ->
     rows (save_meeting m d).2 !! k = rows d !! k
     /\ get_meeting k (save_meeting m d).2 = get_meeting k d)
  /\ (k <> i ->
     rows (delete_meeting i d).2 !! k = rows d !! k
     /\ get_meeting k (delete_meeting i d).2 = get_meeting k d).
Proof.
  split.
  - intros Hk.
    assert (rows (save_meeting m d).2 !! k = rows d !! k) as E.
    { destruct (id m) as [j |] eqn:Hid.
      - revert Hk. unfold save_meeting. rewrite Hid. cbn.
        intros Hk. by rewrite lookup_alter_ne.
      - revert Hk. rewrite (save_meeting_new m d Hid). cbn.
        intros Hk. by rewrite lookup_insert_ne. }
    split; [done |]. unfold get_meeting. by rewrite E.
  - intros Hk.
    assert (rows (delete_meeting i d).2 !! k = rows d !! k) as E.
    { unfold delete_meeting. destruct (rows d !! i); cbn; [| done].
      by rewrite lookup_delete_ne. }
    split; [done |]. unfold get_meeting. by rewrite E.
Qed.

Lemma values_of_set_id m i : values_of (set_id m i) = values_of m.
Proof. reflexivity. Qed.

Lemma sql_update_twice j c d :
  sql_update j c (sql_update j c d) = sql_update j c d.
Proof.
  unfold sql_update. cbn. f_equal. apply map_eq. intros k.
  rewrite !lookup_alter. repeat case_decide; subst; try done.
  by destruct (rows d !! k).
Qed.

Lemma sql_update_inserted c d :
  sql_update (sql_insert c d).1 c (sql_insert c d).2 = (sql_insert c d).2.
Proof.
  unfold sql_update. cbn. f_equal. by rewrite alter_insert_eq.
Qed.

(** X2: saving the record that [save_meeting] hands back, into the
    database it leaves, changes nothing: same identifier, same record, same
    database.  A new record is therefore inserted once, however often the
    caller saves it. *)
Theorem save_meeting_again m d :
  save_meeting (save_meeting m d).1.2 (save_meeting m d).2
  = save_meeting m d.
Proof.
  destruct (id m) as [j |] eqn:Hid.
  - unfold save_meeting. rewrite Hid. cbn. rewrite Hid.
    by rewrite sql_update_twice.
  - rewrite (save_meeting_new m d Hid). cbn [fst snd]. unfold save_meeting.
    cbn [id set_id].
    change (values_of (set_id m ?i)) with (values_of m).
    by rewrite sql_update_inserted.
Qed.

(** X3: when [delete_meeting] of an identifier returns, whether it found
    a row or not, deleting the same identifier again returns nothing and
    leaves the database as the first call left it.  (A call that raises,
    as for an identifier that cannot be bound, changes nothing.) *)
Theorem delete_meeting_again i d r d' :
  MeetingDatabase.delete_meeting i d = Ok (r, d') ->
  MeetingDatabase.delete_meeting i d' = Ok (None, d').
Proof.
  unfold MeetingDatabase.delete_meeting, MeetingDatabase.bind_int.
  destruct (MeetingDatabase.fits_int64 i); [| done]. intros [= E]. f_equal.
  apply delete_meeting_absent.
  unfold delete_meeting in E.
  destruct (rows d !! i) eqn:Hi; injection E as _ <-; [apply lookup_delete_eq | done].
Qed.

Lemma reachable_ids_in_range d : reachable d -> ids_in_range d.
Proof.
  induction 1 as [| m d _ IH Hm | j d _ IH]; intros i.
  - unfold init_db. cbn. rewrite lookup_empty. by intros [? ?].
  - destruct (id m) as [j |] eqn:Hid.
    + unfold save_meeting. rewrite Hid. cbn. rewrite lookup_alter.
      case_decide; [subst j | apply IH].
      intros [x Hx]. apply IH. destruct (rows d !! i); [eauto | done].
    + rewrite (save_meeting_new m d Hid). cbn.
      pose proof (largest_rowid_nonneg (rows d)).
      rewrite lookup_insert. case_decide; [intros _; lia |].
      intros Hi%IH. lia.
  - unfold delete_meeting. destruct (rows d !! j); cbn; [| apply IH].
    rewrite lookup_delete. case_decide; [by intros [? ?] | apply IH].
Qed.

Lemma reachable_sequence_nonneg d : reachable d -> (0 <= sequence d)%Z.
Proof.
  induction 1 as [| m d _ IH Hm | j d _ IH].
  - done.
  - destruct (id m) as [j |] eqn:Hid.
    + unfold save_meeting. by rewrite Hid.
    + rewrite (save_meeting_new m d Hid). cbn.
      pose proof (largest_rowid_nonneg (rows d)). lia.
  - unfold delete_meeting. by destruct (rows d !! j).
Qed.

Lemma largest_rowid_le (t : gmap Z columns) s :
  (0 <= s)%Z -> (forall i, is_Some (t !! i) -> (i <= s)%Z) ->
  (largest_rowid t <= s)%Z.
Proof.
  intros Hs. unfold largest_rowid.
  apply (map_fold_weak_ind
           (fun r m => (forall i, is_Some (m !! i) -> (i <= s)%Z) -> (r <= s)%Z)).
  - done.
  - intros i x m r Hi IH Hall.
    assert (i <= s)%Z by (apply Hall; rewrite lookup_insert_eq; eauto).
    assert (r <= s)%Z; [| lia].
    apply IH. intros k Hk. apply Hall. rewrite lookup_insert_ne; [done |].
    intros ->. rewrite Hi in Hk. by destruct Hk.
Qed.

Lemma reachable_next_id d c :
  reachable d -> (sql_insert c d).1 = (sequence d + 1)%Z.
Proof.
  intros Hd. cbn.
  pose proof (reachable_sequence_nonneg d Hd).
  pose proof (largest_rowid_le (rows d) (sequence d)) as Hl.
  assert (largest_rowid (rows d) <= sequence d)%Z; [| lia].
  apply Hl; [done |]. intros i Hi. by apply (reachable_ids_in_range d Hd).
Qed.

(** X4: in every state the program produces, the identifiers in use lie
    between 1 and the AUTOINCREMENT counter; a new record gets the counter
    plus one, updates and deletions leave the counter alone; so the
    identifier of a deleted row is never given to a later record. *)
Theorem identifiers_never_reused d :
  reachable d ->
  (forall i, is_Some (rows d !! i) -> (1 <= i <= sequence d)%Z)
  /\ (forall m, id m = None ->
        (save_meeting m d).1.1 = (sequence d + 1)%Z
        /\ sequence (save_meeting m d).2 = (sequence d + 1)%Z)
  /\ (forall m j, id m = Some j -> sequence (save_meeting m d).2 = sequence d)
  /\ (forall i, sequence (delete_meeting i d).2 = sequence d)
  /\ (forall i m, is_Some (rows d !! i) -> id m = None ->
        (i < (save_meeting m (delete_meeting i d).2).1.1)%Z).
Proof.
  intros Hd. split; [by apply reachable_ids_in_range |].
  split; [| split; [| split]].
  - intros m Hid. rewrite (save_meeting_new m d Hid). cbn [fst snd].
    pose proof (reachable_next_id d (values_of m) Hd) as E. cbn in E |- *. done.
  - intros m j Hid. unfold save_meeting. by rewrite Hid.
  - intros i. unfold delete_meeting. by destruct (rows d !! i).
  - intros i m Hi Hid. rewrite (save_meeting_new m _ Hid). cbn [fst snd].
    rewrite reachable_next_id by (by apply reach_delete).
    apply (reachable_ids_in_range d Hd) in Hi.
    unfold delete_meeting. destruct (rows d !! i); cbn; lia.
Qed.

(** X5: in every state the program produces, [get_all_meetings] raises
    nothing and lists every stored row exactly once: as many records as
    rows, no identifier twice, and the identifiers listed are those in
    use. *)
Theorem get_all_meetings_complete d :
  reachable d ->
  exists ms,
    get_all_meetings d = Ok ms
    /\ length ms = row_count d
    /\ NoDup (map id ms)
    /\ (forall i, is_Some (rows d !! i) <-> Some i ∈ map id ms).
Proof.
  intros Hd.
  destruct (select_like_records ([37] ++ [] ++ [37]) d Hd) as (ms & Hms & _).
  rewrite select_like_empty_query in Hms.
  exists ms. split; [done |].
  pose proof (to_meetings_ids _ _ Hms) as Hids.
  assert (select_all d ≡ₚ map_to_list (rows d)) as Hp
    by apply merge_sort_Permutation.
  split; [| split].
  - rewrite <- (length_map id), Hids, length_map, Hp. apply length_map_to_list.
  - rewrite Hids.
    replace (map (fun r : Z * columns => Some r.1) (select_all d))
      with (Some <$> (select_all d).*1) by (by rewrite <- list_fmap_compose).
    apply (NoDup_fmap_2 Some). rewrite Hp. apply NoDup_fst_map_to_list.
  - intros i. rewrite Hids. rewrite list_elem_of_fmap. split.
    + intros [row Hrow]. exists (i, row). split; [done |].
      rewrite Hp. by apply elem_of_map_to_list.
    + intros ([k row] & [= ->] & Hin). rewrite Hp in Hin.
      apply elem_of_map_to_list in Hin. eauto.
Qed.
End MoreStore.

(** ** Search, continued *)

Section MoreSearch.

#[local] Existing Instance newest_first_total.

#[local] Instance newest_first_trans : Transitive newest_first.
Proof.
  intros a b c. unfold newest_first, date_desc.
  destruct (str_compare (c_date a.2) (c_date b.2)) eqn:E1; [| done |];
    destruct (str_compare (c_date b.2) (c_date c.2)) eqn:E2; try done.
  - apply str_compare_eq in E1, E2. rewrite E1, E2.
    assert (str_compare (c_date c.2) (c_date c.2) = Eq) as ->.
    { clear. induction (c_date c.2) as [| x l IH]; [done |]. cbn.
      by rewrite N.compare_refl. }
    intros H1%Z.leb_le H2%Z.leb_le. apply Z.leb_le. lia.
  - apply str_compare_eq in E1. rewrite E1, E2. done.
  - apply str_compare_eq in E2. rewrite <- E2, E1. done.
  - by rewrite (str_compare_gt_trans _ _ _ E1 E2).
Qed.

Lemma newest_first_same_id a b :
  newest_first a b -> newest_first b a -> a.1 = b.1.
Proof.
  unfold newest_first, date_desc.
  rewrite (str_compare_antisym (c_date a.2) (c_date b.2)).
  destruct (str_compare (c_date a.2) (c_date b.2)); cbn; try done.
  intros H1%Z.leb_le H2%Z.leb_le. lia.
Qed.

Lemma StronglySorted_filter {A} (R : relation A) (P : A -> Prop)
    `{!forall x, Decision (P x)} l :
  StronglySorted R l -> StronglySorted R (filter P l).
Proof.
  induction 1 as [| x l Hl IH Hx]; [constructor |].
  rewrite filter_cons. case_decide; [| done].
  constructor; [done |]. apply Forall_forall. intros y [_ Hy]%list_elem_of_filter.
  rewrite Forall_forall in Hx. by apply Hx.
Qed.

Lemma select_like_filter pat d :
  select_like pat d
  = filter (fun r => where_like pat r = true) (select_all d).
Proof.
  unfold select_like, select_all, order_by_date_desc.
  apply (StronglySorted_unique_strong newest_first).
  - intros x1 x2 H1 H2 R12 R21.
    rewrite merge_sort_Permutation in H1.
    apply list_elem_of_filter in H1 as [_ H1].
    apply list_elem_of_filter in H2 as [_ H2].
    rewrite merge_sort_Permutation in H2.
    destruct x1 as [i1 r1], x2 as [i2 r2].
    apply elem_of_map_to_list in H1, H2.
    pose proof (newest_first_same_id _ _ R12 R21) as E. cbn in E. subst i2.
    rewrite H1 in H2. by injection H2 as ->.
  - apply StronglySorted_merge_sort; apply _.
  - apply StronglySorted_filter. apply StronglySorted_merge_sort; apply _.
  - rewrite !merge_sort_Permutation. done.
Qed.

Lemma where_like_meeting pat i row m :
  _row_to_meeting i row = Ok m -> where_like pat (i, row) = meeting_like pat m.
Proof.
  intros (_ & Ht & _ & Htr & Hs & _)%row_to_meeting_fields.
  unfold where_like, meeting_like. cbn [snd]. by rewrite Ht, Htr, Hs.
Qed.

Lemma to_meetings_filter pat l all :
  to_meetings l = Ok all ->
  to_meetings (filter (fun r => where_like pat r = true) l)
  = Ok (filter (fun m => meeting_like pat m = true) all).
Proof.
  revert all. induction l as [| [i row] l IH]; intros all H; cbn in H.
  - by injection H as <-.
  - destruct (_row_to_meeting i row) as [m |] eqn:Hm; [| done].
    destruct (to_meetings l) as [ms |]; [| done]. injection H as <-.
    rewrite !filter_cons, (where_like_meeting pat i row m Hm).
    case_decide.
    + cbn. by rewrite Hm, (IH ms eq_refl).
    + by apply IH.
Qed.

Lemma search_meetings_unfiltered q d :
  searchable q \/ rows d = ∅ ->
  search_meetings q d = to_meetings (select_like ([37] ++ q ++ [37]) d).
Proof.
  unfold searchable, search_meetings. intros [-> | ->]; [done |].
  rewrite bool_decide_eq_true_2 by done. by rewrite andb_false_r.
Qed.

Lemma search_meetings_too_long q d :
  ~ searchable q -> rows d <> ∅ -> search_meetings q d = Raise OperationalError.
Proof.
  unfold searchable, search_meetings. intros Hq Hd.
  destruct (pattern_too_long _); [| done].
  by rewrite bool_decide_eq_false_2.
Qed.

(** X6: whenever the listing can be read, [search_meetings] with a
    pattern LIKE accepts (at most 50000 bytes with its two [%]) returns the
    listing of [get_all_meetings] with the records that do not match taken
    out: same records, same order; so it does on an empty table whatever
    the query.  With a longer pattern and a table that has a row it raises
    [OperationalError], while [get_all_meetings] returns. *)
Theorem search_filters_listing q d all :
  get_all_meetings d = Ok all ->
  (searchable q \/ rows d = ∅ ->
     search_meetings q d
     = Ok (filter (fun m => meeting_like ([37] ++ q ++ [37]) m = true) all))
  /\ (~ searchable q -> rows d <> ∅ ->
      search_meetings q d = Raise OperationalError).
Proof.
  unfold get_all_meetings. intros H. split.
  - intros Hq. rewrite search_meetings_unfiltered by done.
    rewrite select_like_filter. by apply to_meetings_filter.
  - apply search_meetings_too_long.
Qed.

Lemma lower_eq a b :
  lower a = lower b ->
  a = b \/ ((65 <= a <= 90 \/ 97 <= a <= 122) /\ (65 <= b <= 90 \/ 97 <= b <= 122)).
Proof.
  unfold lower.
  destruct ((65 <=? a) && (a <=? 90)) eqn:Ha, ((65 <=? b) && (b <=? 90)) eqn:Hb;
    intros E.
  all: repeat match goal with
       | H : _ && _ = true |- _ => apply andb_true_iff in H as [?%N.leb_le ?%N.leb_le]
       | H : _ && _ = false |- _ => apply andb_false_iff in H as [?%N.leb_gt | ?%N.leb_gt]
       end.
  all: lia.
Qed.

Lemma lower_special a b :
  lower a = lower b ->
  (a =? 37) = (b =? 37) /\ (a =? 95) = (b =? 95) /\ (a =? 0) = (b =? 0)
  /\ utf8_bytes a = utf8_bytes b.
Proof.
  intros [-> | [Ha Hb]]%lower_eq; [done |].
  assert (forall k, k = 37 \/ k = 95 \/ k = 0 -> (a =? k) = (b =? k)) as Hk.
  { intros k Hk. destruct (N.eqb_spec a k), (N.eqb_spec b k); try done; lia. }
  repeat split; try (apply Hk; lia).
  unfold utf8_bytes.
  destruct (N.ltb_spec a 128), (N.ltb_spec b 128); try done; lia.
Qed.

Lemma patternCompare_lower p1 : forall p2 t,
  map lower p1 = map lower p2 -> patternCompare p1 t = patternCompare p2 t.
Proof.
  induction p1 as [| a p1 IH]; intros [| b p2] t E; try done.
  injection E as Eab Ep.
  destruct (lower_special a b Eab) as (E37 & E95 & _).
  destruct (N.eqb_spec a 37) as [-> | Ha].
  - symmetry in E37. apply N.eqb_eq in E37 as ->.
    induction t as [| c t IHt];
      rewrite (patternCompare_percent p1), (patternCompare_percent p2).
    + by rewrite (IH p2 []).
    + by rewrite (IH p2 (c :: t)), IHt.
  - assert (b <> 37) as Hb by (by apply N.eqb_neq).
    rewrite !patternCompare_char by done. destruct t as [| c t]; [done |].
    by rewrite E95, Eab, (IH p2 t).
Qed.

Lemma c_string_lower p1 : forall p2,
  map lower p1 = map lower p2 ->
  map lower (c_string p1) = map lower (c_string p2).
Proof.
  induction p1 as [| a p1 IH]; intros [| b p2] E; try done.
  injection E as Eab Ep. cbn [c_string].
  destruct (lower_special a b Eab) as (_ & _ & <- & _).
  destruct (a =? 0); [done |]. cbn [map]. by rewrite Eab, (IH p2).
Qed.

Lemma utf8_length_lower p1 : forall p2,
  map lower p1 = map lower p2 -> utf8_length p1 = utf8_length p2.
Proof.
  induction p1 as [| a p1 IH]; intros [| b p2] E; try done.
  injection E as Eab Ep. unfold utf8_length. cbn [fold_right].
  destruct (lower_special a b Eab) as (_ & _ & _ & ->).
  f_equal. by apply IH.
Qed.

Lemma like_lower p1 p2 t :
  map lower p1 = map lower p2 -> like p1 t = like p2 t.
Proof.
  intros E. unfold like. apply patternCompare_lower. by apply c_string_lower.
Qed.

(** LIKE reads a text up to its first NUL character: what follows it is
    not searched, and a query that is the NUL character is the empty
    query. *)
Example search_stops_at_nul :
  search_meetings (lit "a") nul_db = Ok [set_id nul_meeting (Some 1%Z)]
  /\ search_meetings (lit "b") nul_db = Ok []
  /\ search_meetings [0] nul_db = Ok [set_id nul_meeting (Some 1%Z)].
Proof. split_and!; vm_compute; reflexivity. Qed.

(** X7: two queries that differ only in the case of ASCII letters give
    the same search result, on every database. *)
Theorem search_ignores_case q1 q2 d :
  map lower q1 = map lower q2 -> search_meetings q1 d = search_meetings q2 d.
Proof.
  intros E.
  assert (map lower ([37] ++ q1 ++ [37]) = map lower ([37] ++ q2 ++ [37])) as Ep.
  { rewrite !map_app. by rewrite E. }
  unfold search_meetings, pattern_too_long. cbv zeta.
  rewrite (utf8_length_lower _ _ Ep).
  destruct (_ && _); [done |]. unfold select_like. do 2 f_equal.
  assert (forall r, where_like ([37] ++ q1 ++ [37]) r
                    = where_like ([37] ++ q2 ++ [37]) r) as H.
  { intros r. unfold where_like. by rewrite !(like_lower _ _ _ Ep). }
  induction (map_to_list (rows d)) as [| r l IH]; [done |].
  rewrite !filter_cons, IH, H. done.
Qed.

(** X8: a query made of percent signs only, at most 49998 of them, is no
    filter: the search returns what [get_all_meetings] returns; so it does
    on an empty table whatever their number.  With more of them and a
    table that has a row the search raises [OperationalError]. *)
Theorem search_percent_returns_all q d :
  Forall (fun c => c = 37) q ->
  (searchable q \/ rows d = ∅ -> search_meetings q d = get_all_meetings d)
  /\ (~ searchable q -> rows d <> ∅ ->
      search_meetings q d = Raise OperationalError).
Proof.
  intros Hq. split; [| apply search_meetings_too_long].
  intros Hs. rewrite search_meetings_unfiltered by done.
  unfold get_all_meetings, select_like, select_all.
  do 2 f_equal.
  induction (map_to_list (rows d)) as [| r l IH]; [done |].
  rewrite filter_cons_True, IH; [done |].
  unfold where_like.
  assert (forall t, like ([37] ++ q ++ [37]) t = true) as H.
  { intros t. apply like_percents_only; [| done].
    constructor; [done |]. apply Forall_app. split; [done | by constructor]. }
  by rewrite !H.
Qed.

End MoreSearch.

(** ** The text of the list columns *)

Section ListColumns.

Lemma hex_digit_printable d : d < 16 -> printable (hex_digit d) = true.
Proof.
  intros H. unfold hex_digit, printable.
  destruct (N.ltb_spec d 10); apply andb_true_iff; split; apply N.leb_le; lia.
Qed.

Lemma u_escape_printable n : Forall (fun c => printable c = true) (u_escape n).
Proof.
  unfold u_escape. repeat constructor; try apply hex_digit_printable; dlia.
Qed.

Lemma escape_char_printable c :
  Forall (fun c => printable c = true) (escape_char c).
Proof.
  unfold escape_char.
  repeat (match goal with
          | |- context [if ?b then _ else _] => destruct b eqn:?
          end;
          [first [ by repeat constructor
                 | apply u_escape_printable
                 | by constructor; [unfold printable | constructor] ] |]).
  apply Forall_app. split; apply u_escape_printable.
Qed.

Lemma encode_printable s :
  Forall (fun c => printable c = true) (encode_basestring_ascii s).
Proof.
  unfold encode_basestring_ascii. apply Forall_app. split; [by repeat constructor |].
  apply Forall_app. split; [| by repeat constructor].
  induction s as [| c s IH]; cbn; [constructor |].
  apply Forall_app. split; [apply escape_char_printable | exact IH].
Qed.

Lemma join_Forall (P : char -> Prop) sep l :
  Forall P sep -> Forall (Forall P) l -> Forall P (join sep l).
Proof.
  intros Hsep. induction 1 as [| w l Hw Hl IH]; [constructor |].
  destruct l as [| w' l']; [exact Hw |].
  change (join sep (w :: w' :: l')) with (w ++ sep ++ join sep (w' :: l')).
  apply Forall_app. split; [done |]. apply Forall_app. split; done.
Qed.

Lemma dumps_printable l : Forall (fun c => printable c = true) (dumps l).
Proof.
  unfold dumps. apply Forall_app. split; [by repeat constructor |].
  apply Forall_app. split; [| by repeat constructor].
  apply join_Forall; [by repeat constructor |].
  apply Forall_forall. intros w Hw. apply list_elem_of_fmap in Hw as (s & -> & _).
  apply encode_printable.
Qed.

(** X9: in every state the program produces, the [key_points] and
    [action_items] columns hold printable ASCII only, whatever characters
    the items contain: [json.dumps] escapes the rest, so each column is one
    line of text. *)
Theorem stored_lists_are_ascii d i row :
  reachable d -> rows d !! i = Some row ->
  Forall (fun c => printable c = true) (c_key_points row)
  /\ Forall (fun c => printable c = true) (c_action_items row).
Proof.
  intros Hd Hrow. destruct (reachable_decodable d Hd i row Hrow) as (m & _ & ->).
  split; apply dumps_printable.
Qed.

End ListColumns.

(** ** Strings, continued *)

Section MoreStrings.

Lemma lstrip_by_head p s c : head (lstrip_by p s) = Some c -> p c = false.
Proof.
  induction s as [| x s IH]; [done |]. cbn [lstrip_by].
  destruct (p x) eqn:Hx; [done |]. by intros [= <-].
Qed.

Lemma lstrip_by_keeps p s c : head s = Some c -> p c = false -> lstrip_by p s = s.
Proof. destruct s as [| x s]; [done |]. cbn. by intros [= ->] ->. Qed.

Lemma lstrip_by_split p s :
  exists a, s = a ++ lstrip_by p s /\ Forall (fun c => p c = true) a.
Proof.
  induction s as [| x s (a & Ha & Hp)]; [by exists [] |]. cbn [lstrip_by].
  destruct (p x) eqn:Hx.
  - exists (x :: a). split; [by rewrite Ha at 1 | by constructor].
  - by exists [].
Qed.

Lemma lstrip_by_stop p pre c rest :
  p c = false ->
  lstrip_by p (pre ++ c :: rest) = lstrip_by p pre ++ c :: rest.
Proof.
  intros Hc. induction pre as [| x pre IH]; cbn; [by rewrite Hc |].
  by destruct (p x).
Qed.

Lemma rstrip_by_stop p s c post :
  p c = false ->
  rstrip_by p (s ++ c :: post) = s ++ c :: rstrip_by p post.
Proof.
  intros Hc. unfold rstrip_by.
  rewrite rev_app_distr. cbn [rev]. rewrite <- app_assoc. cbn [app].
  rewrite lstrip_by_stop by done.
  rewrite rev_app_distr. cbn [rev]. rewrite rev_involutive, <- app_assoc. done.
Qed.

Lemma head_rev (s : str) : head (rev s) = last s.
Proof.
  induction s as [| x s IH] using rev_ind; [done |].
  rewrite rev_app_distr, last_snoc. done.
Qed.

Lemma rstrip_by_last p s c : last (rstrip_by p s) = Some c -> p c = false.
Proof.
  unfold rstrip_by. rewrite <- head_rev, rev_involutive. apply lstrip_by_head.
Qed.

Lemma rstrip_by_keeps p s c : last s = Some c -> p c = false -> rstrip_by p s = s.
Proof.
  intros Hl Hc. unfold rstrip_by. rewrite <- head_rev in Hl.
  rewrite (lstrip_by_keeps p (rev s) c) by done. apply rev_involutive.
Qed.

Lemma rstrip_by_split p s :
  exists b, s = rstrip_by p s ++ b /\ Forall (fun c => p c = true) b.
Proof.
  destruct (lstrip_by_split p (rev s)) as (a & Ha & Hp).
  exists (rev a). split.
  - unfold rstrip_by. rewrite <- rev_app_distr, <- Ha. by rewrite rev_involutive.
  - apply Forall_forall. intros c Hc. rewrite Forall_forall in Hp. apply Hp.
    apply list_elem_of_In, in_rev. by apply list_elem_of_In.
Qed.

Lemma strip_stripped s : stripped (strip s).
Proof.
  unfold strip. split; [| apply rstrip_by_last].
  intros c Hc.
  destruct (rstrip_by_split isspace (lstrip_by isspace s)) as (b & Hb & _).
  destruct (rstrip_by isspace (lstrip_by isspace s)) as [| x u] eqn:E; [done |].
  injection Hc as ->. apply (lstrip_by_head isspace s). by rewrite Hb.
Qed.

Lemma stripped_strip s : stripped s -> strip s = s.
Proof.
  intros [Hh Hl]. unfold strip.
  destruct s as [| x s]; [done |].
  rewrite (lstrip_by_keeps isspace (x :: s) x) by (done || by apply Hh).
  destruct (last (x :: s)) as [c |] eqn:E.
  - by apply (rstrip_by_keeps isspace _ c); [| apply Hl].
  - by apply last_None in E.
Qed.

Lemma strip_strip s : strip (strip s) = strip s.
Proof. apply stripped_strip, strip_stripped. Qed.

(* replace *)
Lemma replace_go_pass h old new s t :
  Forall (fun c => c <> h) s ->
  replace_go (h :: old) new O (s ++ t) = s ++ replace_go (h :: old) new O t.
Proof.
  induction 1 as [| c s Hc _ IH]; [done |].
  cbn [app replace_go startswith].
  assert ((h =? c) = false) as -> by (apply N.eqb_neq; congruence).
  cbn [andb]. by rewrite IH.
Qed.

Lemma replace_absent h old new s :
  Forall (fun c => c <> h) s -> replace (h :: old) new s = s.
Proof.
  intros H. unfold replace. rewrite <- (app_nil_r s) at 1.
  rewrite replace_go_pass by done. cbn. by rewrite app_nil_r.
Qed.

End MoreStrings.

(** ** [_parse_json_list], continued *)

Section MoreParsing.

Lemma cleaned_response_steps r :
  cleaned_response r
  = between_brackets
      (strip (replace FENCE [] (replace FENCE_JSON [] (strip r)))).
Proof. reflexivity. Qed.

Lemma Forall_lstrip_by (P : N -> Prop) p s :
  Forall P s -> Forall P (lstrip_by p s).
Proof.
  intros H. destruct (lstrip_by_split p s) as (a & Ha & _).
  rewrite Ha in H. by apply Forall_app in H as [_ H].
Qed.

Lemma Forall_rstrip_by (P : N -> Prop) p s :
  Forall P s -> Forall P (rstrip_by p s).
Proof.
  intros H. destruct (rstrip_by_split p s) as (b & Hb & _).
  rewrite Hb in H. by apply Forall_app in H as [H _].
Qed.

Lemma Forall_strip (P : N -> Prop) s : Forall P s -> Forall P (strip s).
Proof. intros H. by apply Forall_rstrip_by, Forall_lstrip_by. Qed.

Lemma fences_absent s :
  no_backtick s -> replace FENCE [] (replace FENCE_JSON [] s) = s.
Proof.
  intros H.
  change FENCE_JSON with (96 :: lit "``json"). change FENCE with (96 :: lit "``").
  rewrite (replace_absent 96 (lit "``json")) by exact H.
  by rewrite replace_absent.
Qed.

Lemma cleaned_response_plain r :
  no_backtick r -> cleaned_response r = between_brackets (strip r).
Proof.
  intros H. rewrite cleaned_response_steps.
  rewrite fences_absent by (by apply Forall_strip). by rewrite strip_strip.
Qed.

Lemma find_first pre : forall i rest,
  Forall (fun c => c <> 91) pre ->
  find_from i [91] (pre ++ 91 :: rest) = (i + Z.of_nat (length pre))%Z.
Proof.
  induction pre as [| c pre IH]; intros i rest H.
  - cbn. lia.
  - apply Forall_cons in H as [Hc H]. cbn [app find_from startswith].
    assert ((91 =? c) = false) as -> by (apply N.eqb_neq; congruence).
    cbn [andb]. rewrite IH by done. cbn [length]. lia.
Qed.

Lemma rfind_absent post : forall i,
  Forall (fun c => c <> 93) post -> rfind_from i [93] post = (-1)%Z.
Proof.
  induction post as [| c post IH]; intros i H; [done |].
  apply Forall_cons in H as [Hc H]. cbn [rfind_from startswith].
  rewrite IH by done.
  assert ((93 =? c) = false) as -> by (apply N.eqb_neq; congruence). done.
Qed.

Lemma rfind_last s : forall i post,
  (0 <= i)%Z -> Forall (fun c => c <> 93) post ->
  rfind_from i [93] (s ++ 93 :: post) = (i + Z.of_nat (length s))%Z.
Proof.
  induction s as [| c s IH]; intros i post Hi H.
  - cbn [app rfind_from startswith length]. rewrite rfind_absent by done.
    cbn. lia.
  - cbn [app rfind_from length]. rewrite IH by (done || lia).
    destruct (Z.leb_spec 0 (i + 1 + Z.of_nat (length s))); lia.
Qed.

Lemma between_brackets_found pre mid post :
  Forall (fun c => c <> 91) pre -> Forall (fun c => c <> 93) post ->
  between_brackets (pre ++ [91] ++ mid ++ [93] ++ post) = [91] ++ mid ++ [93].
Proof.
  intros Hpre Hpost. unfold between_brackets, find, rfind.
  change (lit "[") with [91]. change (lit "]") with [93].
  cbn [app]. rewrite find_first by done.
  replace (pre ++ 91 :: mid ++ 93 :: post)
    with ((pre ++ 91 :: mid) ++ 93 :: post) by (by rewrite <- app_assoc).
  rewrite rfind_last by done. rewrite length_app. cbn [length].
  destruct (Z.eqb_spec (0 + Z.of_nat (length pre)) (-1)); [lia |].
  destruct (Z.ltb_spec (0 + Z.of_nat (length pre))
              (0 + Z.of_nat (length pre + S (length mid)) + 1)); [| lia].
  cbn [negb andb]. unfold slice.
  replace (Z.to_nat (0 + Z.of_nat (length pre))) with (length pre) by lia.
  replace (Z.to_nat (0 + Z.of_nat (length pre + S (length mid)) + 1)
           - length pre)%nat with (length (91 :: mid ++ [93])).
  2:{ cbn [length]. rewrite length_app. cbn [length]. lia. }
  replace ((pre ++ 91 :: mid) ++ 93 :: post)
    with (pre ++ (91 :: mid ++ [93]) ++ post).
  2:{ cbn [app]. rewrite <- !app_assoc. reflexivity. }
  by rewrite drop_app_length, take_app_length.
Qed.

Lemma cleaned_response_brackets pre mid post :
  no_backtick (pre ++ [91] ++ mid ++ [93] ++ post) ->
  Forall (fun c => c <> 91) pre -> Forall (fun c => c <> 93) post ->
  cleaned_response (pre ++ [91] ++ mid ++ [93] ++ post) = [91] ++ mid ++ [93].
Proof.
  intros Hb Hpre Hpost. rewrite cleaned_response_plain by done.
  unfold strip. cbn [app]. rewrite lstrip_by_stop by done.
  replace (lstrip_by isspace pre ++ 91 :: mid ++ 93 :: post)
    with ((lstrip_by isspace pre ++ 91 :: mid) ++ 93 :: post)
    by (by rewrite <- app_assoc).
  rewrite rstrip_by_stop by done. rewrite <- app_assoc.
  apply (between_brackets_found (lstrip_by isspace pre) mid (rstrip_by isspace post)).
  - by apply Forall_lstrip_by.
  - by apply Forall_rstrip_by.
Qed.

End MoreParsing.

Section MoreParsing2.

(** X10: a response that wraps the JSON array of a list of strings in
    prose (no opening bracket before it, no closing bracket after it, no
    code fence) is parsed to that list, which the record then accepts. *)
Theorem parse_json_list_embedded_array pre l post :
  Forall well_formed l ->
  no_backtick (pre ++ dumps l ++ post) ->
  Forall (fun c => c <> 91) pre -> Forall (fun c => c <> 93) post ->
  _parse_json_list (pre ++ dumps l ++ post) = Ok (JArr (map JStr l))
  /\ validate_str_list (JArr (map JStr l)) = Ok l.
Proof.
  intros Hl Hb Hpre Hpost. split.
  - unfold _parse_json_list. unfold dumps in *.
    rewrite <- !app_assoc in *.
    rewrite cleaned_response_brackets by done.
    fold (dumps l). by rewrite loads_dumps.
  - cbn. by rewrite all_str_strings.
Qed.

Lemma replace_go_skip old new a s :
  replace_go old new (length a) (a ++ s) = replace_go old new O s.
Proof. induction a as [| c a IH]; [done |]. cbn. apply IH. Qed.

Lemma replace_head old new c s :
  replace (c :: old) new ((c :: old) ++ s) = new ++ replace (c :: old) new s.
Proof.
  unfold replace. cbn [app replace_go].
  change (startswith (c :: old) (c :: old ++ s))
    with (startswith (c :: old) ((c :: old) ++ s)).
  rewrite startswith_app.
  replace (length (c :: old) - 1)%nat with (length old) by (cbn; lia).
  by rewrite replace_go_skip.
Qed.

Lemma no_backtick_stripped_fence a r :
  strip (96 :: a ++ r ++ FENCE) = 96 :: a ++ r ++ FENCE.
Proof.
  apply stripped_strip. split.
  - by intros c [= <-].
  - intros c. change (96 :: a ++ r ++ FENCE) with ((96 :: a) ++ r ++ FENCE).
    rewrite !app_assoc. change FENCE with ([96; 96] ++ [96]).
    rewrite app_assoc, last_snoc. by intros [= <-].
Qed.

Lemma strip_drops_newline r : strip (NL :: r) = strip r.
Proof. reflexivity. Qed.

(** X11: a Markdown code fence around a response, with or without the
    [json] tag, is ignored: the text handed to the decoder is the one of
    the bare response, and so is the value parsed. *)
Theorem fences_are_removed r :
  no_backtick r ->
  cleaned_response (FENCE_JSON ++ r ++ FENCE) = cleaned_response r
  /\ cleaned_response (FENCE ++ [NL] ++ r ++ FENCE) = cleaned_response r
  /\ (forall v, loads (cleaned_response r) = Ok v ->
        _parse_json_list (FENCE_JSON ++ r ++ FENCE) = Ok v
        /\ _parse_json_list (FENCE ++ [NL] ++ r ++ FENCE) = Ok v).
Proof.
  intros Hr.
  assert (cleaned_response (FENCE_JSON ++ r ++ FENCE) = cleaned_response r) as E1.
  { rewrite (cleaned_response_plain r) by done. rewrite cleaned_response_steps.
    change (FENCE_JSON ++ r ++ FENCE) with (96 :: lit "``json" ++ r ++ FENCE).
    rewrite no_backtick_stripped_fence.
    change (96 :: lit "``json" ++ r ++ FENCE) with (FENCE_JSON ++ r ++ FENCE).
    change FENCE_JSON with (96 :: lit "``json") at 1 2.
    rewrite replace_head. cbn [app]. unfold replace at 2.
    rewrite replace_go_pass by exact Hr.
    change (replace_go (96 :: lit "``json") [] 0 FENCE) with FENCE.
    change FENCE with (96 :: lit "``") at 1.
    unfold replace. rewrite replace_go_pass by exact Hr.
    change (replace_go (96 :: lit "``") [] 0 FENCE) with (@nil N).
    by rewrite app_nil_r. }
  assert (cleaned_response (FENCE ++ [NL] ++ r ++ FENCE) = cleaned_response r) as E2.
  { rewrite (cleaned_response_plain r) by done. rewrite cleaned_response_steps.
    change (FENCE ++ [NL] ++ r ++ FENCE) with (96 :: (lit "``" ++ [NL]) ++ r ++ FENCE).
    rewrite no_backtick_stripped_fence.
    change (96 :: (lit "``" ++ [NL]) ++ r ++ FENCE)
      with (FENCE ++ (NL :: r) ++ FENCE).
    assert (replace FENCE_JSON [] (FENCE ++ (NL :: r) ++ FENCE)
            = FENCE ++ (NL :: r) ++ FENCE) as ->.
    { unfold replace. change FENCE_JSON with (96 :: lit "``json").
      change (FENCE ++ (NL :: r) ++ FENCE)
        with (96 :: 96 :: 96 :: (NL :: r) ++ FENCE).
      cbn [replace_go startswith N.eqb Pos.eqb andb lit map list_ascii_of_string
           N_of_ascii N_of_digits NL app].
      cbn.
      change (10 :: r ++ FENCE) with ((10 :: r) ++ FENCE).
      rewrite (replace_go_pass 96)
        by first [exact Hr | constructor; [done | exact Hr]].
      reflexivity. }
    change FENCE with (96 :: lit "``") at 1 2.
    rewrite replace_head. cbn [app]. unfold replace.
    change (NL :: r ++ FENCE) with ((NL :: r) ++ FENCE).
    rewrite replace_go_pass by (constructor; [done | exact Hr]).
    change (replace_go (96 :: lit "``") [] 0 FENCE) with (@nil N).
    rewrite app_nil_r. by rewrite strip_drops_newline. }
  split; [done |]. split; [done |].
  intros v Hv. unfold _parse_json_list. by rewrite E1, E2, Hv.
Qed.

Lemma split_on_go_lines sep s : forall cur,
  Forall (fun c => c <> sep) cur ->
  Forall (Forall (fun c => c <> sep)) (split_on_go sep cur s).
Proof.
  induction s as [| c s IH]; intros cur Hcur; cbn [split_on_go].
  - by constructor.
  - destruct (N.eqb_spec c sep) as [-> | Hc].
    + constructor; [done |]. apply IH. constructor.
    + apply IH. apply Forall_app. split; [done |]. by constructor.
Qed.

Lemma lstrip_by_last p (s : str) c :
  last (lstrip_by p s) = Some c -> last s = Some c.
Proof.
  destruct (lstrip_by_split p s) as (a & Ha & _). intros H.
  rewrite Ha. destruct (lstrip_by p s) as [| x u] eqn:E; [done |].
  by rewrite last_app, H.
Qed.

(** X12: the fallback of [_parse_json_list] returns at most one item per
    line of the response; no item spans two lines, starts with one of
    the characters stripped as list markers (bullet, hyphen, asterisk,
    digit, dot, space, double quote), or ends with whitespace.  An item
    may be empty. *)
Theorem fallback_lines_shape response :
  (length (fallback_lines response) <= length (split_on NL response))%nat
  /\ Forall (fun item =>
               Forall (fun c => c <> NL) item
               /\ (forall c, head item = Some c -> mem c BULLETS = false)
               /\ (forall c, last item = Some c -> isspace c = false))
            (fallback_lines response).
Proof.
  unfold fallback_lines. split.
  - rewrite length_map. apply length_filter.
  - apply Forall_forall. intros item Hin.
    apply list_elem_of_fmap in Hin as (line & -> & Hline).
    apply list_elem_of_filter in Hline as [_ Hline].
    split; [| split].
    + apply Forall_lstrip_by, Forall_strip.
      pose proof (split_on_go_lines NL response [] (Forall_nil_2 _)) as H.
      rewrite Forall_forall in H. by apply H.
    + intros c. apply lstrip_by_head.
    + intros c Hc%lstrip_by_last. by apply (strip_stripped line).
Qed.

End MoreParsing2.

(** ** [_chunk_transcript], continued *)

Section MoreChunks.

Lemma range_from_lookup count : forall start step i,
  (i < count)%nat ->
  range_from count start step !! i = Some (start + i * step)%nat.
Proof.
  induction count as [| count IH]; intros start step i Hi; [lia |].
  destruct i as [| i]; cbn [range_from lookup list_lookup].
  - f_equal. lia.
  - cbn. rewrite IH by lia. f_equal. lia.
Qed.

Lemma div_up_bounds n m :
  (0 < m)%nat ->
  (n <= (n + m - 1) / m * m)%nat
  /\ ((n + m - 1) / m * m < n + m)%nat.
Proof.
  intros Hm.
  pose proof (Nat.div_mod_eq (n + m - 1) m).
  pose proof (Nat.mod_upper_bound (n + m - 1) m). nia.
Qed.

Lemma chunk_words_at t m :
  map split (_chunk_transcript t m)
  = map (fun i => take m (drop i (split t))) (range (length (split t)) m).
Proof.
  unfold _chunk_transcript. rewrite map_map. apply map_ext. intros i.
  apply split_join. apply Forall_take, Forall_drop, split_words.
Qed.

(** X13: for every positive [max_words], [_chunk_transcript] cuts the
    words of the text into consecutive chunks: the words of the chunks, in
    order, are the words of the text; there are ceil(n / max_words) chunks;
    every chunk has between 1 and [max_words] words, single spaces between
    them, and every chunk but the last has exactly [max_words]. *)
Theorem chunk_transcript_partitions t m :
  (0 < m)%nat ->
  concat (map split (_chunk_transcript t m)) = split t
  /\ length (_chunk_transcript t m) = ((length (split t) + m - 1) / m)%nat
  /\ Forall (fun c => (1 <= length (split c) <= m)%nat /\ join [SPACE] (split c) = c)
            (_chunk_transcript t m)
  /\ (forall i c, _chunk_transcript t m !! i = Some c ->
        (S i < length (_chunk_transcript t m))%nat ->
        length (split c) = m).
Proof.
  intros Hm. set (n := length (split t)).
  destruct (div_up_bounds n m Hm) as [Hlo Hhi].
  assert (length (_chunk_transcript t m) = ((n + m - 1) / m)%nat) as Hlen.
  { unfold _chunk_transcript, range. by rewrite length_map, length_range_from. }
  assert (forall i c, _chunk_transcript t m !! i = Some c ->
            split c = take m (drop (i * m) (split t))
            /\ join [SPACE] (split c) = c) as Hat.
  { intros i c Hc. unfold _chunk_transcript in Hc.
    apply list_lookup_fmap_Some in Hc as (k & -> & Hk).
    assert (i < (n + m - 1) / m)%nat as Hi.
    { apply lookup_lt_Some in Hk. unfold range in Hk.
      by rewrite length_range_from in Hk. }
    unfold range in Hk. fold n in Hk. rewrite range_from_lookup in Hk by done.
    injection Hk as <-. cbn [Nat.add].
    rewrite split_join by apply Forall_take, Forall_drop, split_words. done. }
  split; [| split; [done | split]].
  - rewrite chunk_words_at. unfold range. rewrite range_from_pieces, drop_0.
    by apply take_ge.
  - apply Forall_forall. intros c Hc.
    apply list_elem_of_lookup in Hc as [i Hc].
    destruct (Hat i c Hc) as [Hs Hj]. split; [| done].
    apply lookup_lt_Some in Hc. rewrite Hlen in Hc.
    rewrite Hs, length_take, length_drop. fold n. nia.
  - intros i c Hc Hi. destruct (Hat i c Hc) as [Hs _].
    rewrite Hlen in Hi. rewrite Hs, length_take, length_drop. fold n. nia.
Qed.

End MoreChunks.

(** ** The requests of the summarizer, continued *)

Section MoreRequests.
Variable endpoint : list request -> result (option str).

Lemma stops_ret {A} (a : A) : stops_at_error endpoint (ret a).
Proof.
  intros log r log' [= <- <-]. split; [exists []; by rewrite app_nil_r | done].
Qed.

Lemma stops_chat sp um : stops_at_error endpoint (_chat endpoint sp um).
Proof.
  intros log r log'. unfold _chat.
  destruct (endpoint (log ++ [(sp, um)])) as [c | e] eqn:E; intros [= <- <-].
  - split; [eauto | done].
  - split; [eauto |]. by intros x [= <-].
Qed.

Lemma stops_bind {A B} (m : M A) (k : A -> M B) :
  stops_at_error endpoint m -> (forall a, stops_at_error endpoint (k a)) ->
  stops_at_error endpoint (bind m k).
Proof.
  intros Hm Hk log r log'. unfold bind.
  destruct (m log) as [[a | e] log1] eqn:E.
  - destruct (Hm _ _ _ E) as [[s1 ->] _]. intros Hka.
    destruct (Hk a _ _ _ Hka) as [[s2 ->] Hr]. split; [| done].
    exists (s1 ++ s2). by rewrite app_assoc.
  - intros [= <- <-]. destruct (Hm _ _ _ E) as [Hs Hx]. split; [done |].
    intros x [= <-]. by apply Hx.
Qed.

Lemma stops_for_each {A B} (f : A -> M B) l :
  (forall a, stops_at_error endpoint (f a)) -> stops_at_error endpoint (for_each f l).
Proof.
  intros Hf. induction l as [| a l IH]; cbn [for_each]; [apply stops_ret |].
  apply stops_bind; [done |]. intros b.
  apply stops_bind; [done |]. intros bs. apply stops_ret.
Qed.

Lemma stops_generate_summary t : stops_at_error endpoint (generate_summary endpoint t).
Proof.
  unfold generate_summary. destruct (_ =? 1)%nat; [apply stops_chat |].
  apply stops_bind; [| intros; apply stops_chat].
  apply stops_for_each. intros c. apply stops_chat.
Qed.

Lemma stops_failure {A} (m : M A) :
  stops_at_error endpoint m -> stops_at_failure endpoint m.
Proof.
  intros H log r log' E. destruct (H log r log' E) as [Hs Hx].
  split; [done |]. intros x Hr. left. by apply Hx.
Qed.

Lemma failure_bind {A B} (m : M A) (k : A -> M B) :
  stops_at_failure endpoint m -> (forall a, stops_at_failure endpoint (k a)) ->
  stops_at_failure endpoint (bind m k).
Proof.
  intros Hm Hk log r log'. unfold bind.
  destruct (m log) as [[a | e] log1] eqn:E.
  - destruct (Hm _ _ _ E) as [[s1 ->] _]. intros Hka.
    destruct (Hk a _ _ _ Hka) as [[s2 ->] Hr]. split; [| done].
    exists (s1 ++ s2). by rewrite app_assoc.
  - intros [= <- <-]. destruct (Hm _ _ _ E) as [Hs Hx]. split; [done |].
    intros x [= <-]. by apply Hx.
Qed.

(** A request whose answer is parsed as a list: the run raises when the
    endpoint does, or when the parser does on its answer. *)
Lemma failure_parsed sp um :
  stops_at_failure endpoint
    (bind (_chat endpoint sp um) (fun response => lift (_parse_json_list response))).
Proof.
  intros log r log'. unfold bind, _chat, lift.
  destruct (endpoint (log ++ [(sp, um)])) as [content | e] eqn:E.
  - intros [= <- <-]. split; [eauto |]. intros x Hx. right.
    destruct (parse_json_list_returns
                (strip match content with Some c => c | None => [] end))
      as (_ & _ & Hr).
    destruct (Hr x Hx) as [Hx' _]. split; [done |].
    exists content. split; [done |]. by destruct content.
  - intros [= <- <-]. split; [eauto |]. intros x [= <-]. by left.
Qed.

Lemma stops_process_meeting t :
  stops_at_failure endpoint (process_meeting endpoint t).
Proof.
  unfold process_meeting.
  apply failure_bind; [apply stops_failure, stops_chat |]. intros ti.
  apply failure_bind; [apply stops_failure, stops_generate_summary |]. intros s.
  apply failure_bind; [apply failure_parsed |].
  intros k. apply failure_bind; [apply failure_parsed |].
  intros a. apply stops_failure, stops_ret.
Qed.

(** X14: [process_meeting] sends the title request first and only adds
    to the log; when it raises, nothing is sent after the request that
    failed: either the endpoint raised the error on the last request sent,
    or it answered that request and the error is the [ValueError] or the
    [RecursionError] that [json.loads] raised on the answer, which
    [_parse_json_list] does not catch.  In particular a failing title
    request is the only request made. *)
Theorem process_meeting_stops_at_first_error t log :
  (exists sent,
     (process_meeting endpoint t log).2
     = log ++ (TITLE_PROMPT, transcript_message (truncate t)) :: sent)
  /\ (forall x, (process_meeting endpoint t log).1 = Raise x ->
        endpoint (process_meeting endpoint t log).2 = Raise x
        \/ ((x = ValueError \/ x = RecursionError)
            /\ exists content,
                 endpoint (process_meeting endpoint t log).2 = Ok content
                 /\ _parse_json_list (strip (default [] content)) = Raise x))
  /\ (forall x,
        endpoint (log ++ [(TITLE_PROMPT, transcript_message (truncate t))]) = Raise x ->
        process_meeting endpoint t log
        = (Raise x, log ++ [(TITLE_PROMPT, transcript_message (truncate t))])).
Proof.
  split; [| split].
  - unfold process_meeting, generate_title. unfold bind at 1.
    destruct (_chat endpoint TITLE_PROMPT (transcript_message (truncate t)) log)
      as [[ti | e] log1] eqn:E.
    + pose proof (chat_log_grows endpoint TITLE_PROMPT
                    (transcript_message (truncate t)) log) as Hl.
      rewrite E in Hl. cbn in Hl. subst log1.
      match goal with |- context [bind ?m ?k ?l] =>
        destruct (bind m k l) as [r log'] eqn:E2;
        assert (stops_at_failure endpoint (bind m k)) as Hs
      end.
      { apply failure_bind; [apply stops_failure, stops_generate_summary |].
        intros s. apply failure_bind; [apply failure_parsed |].
        intros k. apply failure_bind; [apply failure_parsed |].
        intros a. apply stops_failure, stops_ret. }
      destruct (Hs _ _ _ E2) as [[sent ->] _]. exists sent. cbn.
      by rewrite <- app_assoc.
    + pose proof (chat_log_grows endpoint TITLE_PROMPT
                    (transcript_message (truncate t)) log) as Hl.
      rewrite E in Hl. cbn in Hl. subst log1. exists []. done.
  - intros x Hx.
    destruct (process_meeting endpoint t log) as [r log'] eqn:E.
    cbn in Hx |- *. by apply (stops_process_meeting t _ _ _ E).
  - intros x Hx. unfold process_meeting, generate_title, bind, _chat.
    by rewrite Hx.
Qed.

Lemma chat_result sp um log a :
  (_chat endpoint sp um log).1 = Ok a -> stripped a.
Proof.
  unfold _chat. destruct (endpoint _) as [c |]; [| done].
  intros [= <-]. apply strip_stripped.
Qed.

(** X15: the text returned by [generate_title], [generate_summary] and
    [answer_question] neither starts nor ends with whitespace, whatever the
    endpoint answered. *)
Theorem returned_text_is_stripped t question log a :
  (generate_title endpoint t log).1 = Ok a
  \/ (generate_summary endpoint t log).1 = Ok a
  \/ (answer_question endpoint t question log).1 = Ok a ->
  stripped a /\ strip a = a.
Proof.
  intros H. assert (stripped a) as Hs; [| split; [done | by apply stripped_strip]].
  destruct H as [H | [H | H]].
  - by apply chat_result in H.
  - unfold generate_summary in H. destruct (_ =? 1)%nat.
    + by apply chat_result in H.
    + unfold bind in H.
      destruct (for_each _ _ log) as [[partial | e] log1]; [| done].
      by apply chat_result in H.
  - by apply chat_result in H.
Qed.

Lemma missing_content_is_empty sp um log :
  endpoint (log ++ [(sp, um)]) = Ok None ->
  _chat endpoint sp um log = (Ok [], log ++ [(sp, um)]).
Proof. intros H. unfold _chat. by rewrite H. Qed.

(** X16: what [generate_summary] asks.  A blank transcript is sent as
    the empty text; a transcript of 1 to 800 words is sent as it is, in
    one request; a longer one, with an answering endpoint, is sent chunk by
    chunk, in order; the partial summaries, of which there are
    ceil(n / 800), at least 2, are in that order the stripped answers of
    the endpoint to these requests; the final request carries them joined
    by blank lines, and the summary returned is the stripped answer to
    it. *)
Theorem generate_summary_messages t :
  (split t = [] ->
     generate_summary endpoint t
     = _chat endpoint SUMMARY_PROMPT (transcript_message []))
  /\ ((1 <= length (split t) <= 800)%nat ->
     generate_summary endpoint t
     = _chat endpoint SUMMARY_PROMPT (transcript_message t))
  /\ ((800 < length (split t))%nat -> responsive endpoint ->
      forall log,
      exists partial final,
        length partial = ((length (split t) + 799) / 800)%nat
        /\ (2 <= length partial)%nat
        /\ (forall k c, _chunk_transcript t MAX_WORDS !! k = Some c ->
              exists content,
                endpoint (log ++ map summary_request
                                   (take (S k) (_chunk_transcript t MAX_WORDS)))
                = Ok content
                /\ partial !! k = Some (strip (default [] content)))
        /\ (exists content,
              endpoint (log ++ map summary_request (_chunk_transcript t MAX_WORDS)
                            ++ [summary_request (join [NL; NL] partial)])
              = Ok content
              /\ final = strip (default [] content))
        /\ generate_summary endpoint t log
           = (Ok final,
              log ++ map summary_request (_chunk_transcript t MAX_WORDS)
                  ++ [summary_request (join [NL; NL] partial)])).
Proof.
  split; [| split].
  - intros Hs. unfold generate_summary, _chunk_transcript. rewrite Hs.
    reflexivity.
  - intros Hn. unfold generate_summary.
    pose proof (chunk_count t) as Hc.
    pose proof (div_up_spec (length (split t))) as Hd.
    destruct (Nat.eqb_spec (length (_chunk_transcript t MAX_WORDS)) 1); [done |].
    rewrite Hc in *. lia.
  - intros Hn Hr log.
    destruct (summary_long endpoint t log Hn Hr)
      as (partial & final & Hl & Hans & Hfin & E).
    exists partial, final. rewrite Hl, chunk_count.
    pose proof (div_up_spec (length (split t))).
    split; [done |]. split; [lia |]. done.
Qed.

(** The requests of [process_meeting] up to the first answer that cannot
    be parsed. *)
Lemma process_meeting_sent t log :
  responsive endpoint ->
  exists r sent,
    process_meeting endpoint t log = (r, log ++ sent)
    /\ (forall a, r = Ok a ->
          ((length (split t) <= 800)%nat ->
           map fst sent
           = [TITLE_PROMPT; SUMMARY_PROMPT; KEY_POINTS_PROMPT;
              ACTION_ITEMS_PROMPT])
          /\ ((800 < length (split t))%nat ->
              length sent = (length (_chunk_transcript t MAX_WORDS) + 4)%nat)).
Proof.
  intros Hr. unfold process_meeting, generate_title, extract_key_points,
    extract_action_items.
  destruct (chat_responsive endpoint TITLE_PROMPT
              (transcript_message (truncate t)) log Hr) as [ti Hti].
  unfold bind at 1. rewrite Hti.
  set (log1 := log ++ [(TITLE_PROMPT, transcript_message (truncate t))]).
  assert (exists s sent2,
            generate_summary endpoint t log1 = (Ok s, log1 ++ sent2)
            /\ ((length (split t) <= 800)%nat -> map fst sent2 = [SUMMARY_PROMPT])
            /\ ((800 < length (split t))%nat ->
                length sent2 = (length (_chunk_transcript t MAX_WORDS) + 1)%nat))
    as (s & sent2 & Hs & Hshort & Hlong).
  { destruct (Nat.le_gt_cases (length (split t)) 800) as [Hn | Hn].
    - destruct (summary_short endpoint t log1 Hn) as [msg Hmsg].
      destruct (generate_summary endpoint t log1) as [[s | e] l2] eqn:E.
      + cbn [snd] in Hmsg. subst l2. exists s, [(SUMMARY_PROMPT, msg)].
        split; [done |]. split; [done | lia].
      + exfalso. cbn [snd] in Hmsg. subst l2.
        pose proof (stops_generate_summary t _ _ _ E) as [_ Hx].
        specialize (Hx e eq_refl).
        destruct (Hr (log1 ++ [(SUMMARY_PROMPT, msg)])) as [c Hc].
        rewrite Hc in Hx. discriminate Hx.
    - destruct (summary_long endpoint t log1 Hn Hr)
        as (partial & final & Hl & _ & _ & E).
      exists final. eexists. split; [exact E |]. split; [lia |].
      intros _. rewrite length_app, length_map. cbn. done. }
  unfold bind at 1. rewrite Hs.
  destruct (chat_responsive endpoint KEY_POINTS_PROMPT
              (transcript_message (truncate t)) (log1 ++ sent2) Hr) as [rk Hrk].
  unfold bind at 1. unfold bind at 1. rewrite Hrk. unfold lift at 1.
  set (log3 := (log1 ++ sent2) ++ [(KEY_POINTS_PROMPT, transcript_message (truncate t))]).
  destruct (_parse_json_list rk) as [vk | ek].
  2:{ exists (Raise ek).
      exists ([(TITLE_PROMPT, transcript_message (truncate t))] ++ sent2
              ++ [(KEY_POINTS_PROMPT, transcript_message (truncate t))]).
      split; [| done]. f_equal. unfold log3, log1. by rewrite <- !app_assoc. }
  destruct (chat_responsive endpoint ACTION_ITEMS_PROMPT
              (transcript_message (truncate t)) log3 Hr) as [ra Hra].
  unfold bind at 1. unfold bind at 1. rewrite Hra. unfold lift at 1.
  destruct (_parse_json_list ra) as [va | ea].
  2:{ exists (Raise ea).
      exists ([(TITLE_PROMPT, transcript_message (truncate t))] ++ sent2
              ++ [(KEY_POINTS_PROMPT, transcript_message (truncate t));
                  (ACTION_ITEMS_PROMPT, transcript_message (truncate t))]).
      split; [| done]. f_equal. unfold log3, log1. by rewrite <- !app_assoc. }
  unfold ret. eexists.
  exists ([(TITLE_PROMPT, transcript_message (truncate t))] ++ sent2
          ++ [(KEY_POINTS_PROMPT, transcript_message (truncate t));
              (ACTION_ITEMS_PROMPT, transcript_message (truncate t))]).
  split.
  - f_equal. unfold log3, log1. rewrite <- !app_assoc. reflexivity.
  - intros a _. split.
    + intros Hn. rewrite !map_app, (Hshort Hn). reflexivity.
    + intros Hn. rewrite !length_app, (Hlong Hn). cbn. lia.
Qed.

(** X17: with an answering endpoint, [process_meeting] can fail in one way
    only: the endpoint answered the last request sent, and [json.loads]
    raised [ValueError] or [RecursionError] on that answer (an integer of
    more than 4300 digits, values nested beyond what the interpreter
    allows); when [_parse_json_list] raises on no answer of the endpoint,
    [process_meeting] returns.  When it returns, it has sent, for a
    transcript of at most 800 words, exactly four requests: title, summary,
    key points, action items, in that order; for a longer one, one request
    per chunk and four more. *)
Theorem process_meeting_requests t log :
  responsive endpoint ->
  exists r sent,
    process_meeting endpoint t log = (r, log ++ sent)
    /\ (forall a, r = Ok a ->
          ((length (split t) <= 800)%nat ->
           map fst sent
           = [TITLE_PROMPT; SUMMARY_PROMPT; KEY_POINTS_PROMPT;
              ACTION_ITEMS_PROMPT])
          /\ ((800 < length (split t))%nat ->
              length sent = (length (_chunk_transcript t MAX_WORDS) + 4)%nat))
    /\ (forall x, r = Raise x ->
          (x = ValueError \/ x = RecursionError)
          /\ exists content,
               endpoint (log ++ sent) = Ok content
               /\ _parse_json_list (strip (default [] content)) = Raise x)
    /\ (parseable_answers endpoint -> exists a, r = Ok a).
Proof.
  intros Hr. destruct (process_meeting_sent t log Hr) as (r & sent & E & Hok).
  exists r, sent. split; [done |]. split; [done |].
  assert (forall x, r = Raise x ->
            (x = ValueError \/ x = RecursionError)
            /\ exists content,
                 endpoint (log ++ sent) = Ok content
                 /\ _parse_json_list (strip (default [] content)) = Raise x)
    as Hfail.
  { intros x Hx. destruct (stops_process_meeting t _ _ _ E) as [_ Hf].
    destruct (Hf x Hx) as [Hraise | Hparse]; [| done].
    destruct (Hr (log ++ sent)) as [c Hc]. by rewrite Hc in Hraise. }
  split; [done |]. intros Hp. destruct r as [a | x]; [eauto |].
  destruct (Hfail x eq_refl) as (_ & content & Hc & Hx).
  destruct (Hp _ _ Hc) as [v Hv]. by rewrite Hv in Hx.
Qed.

End MoreRequests.

(** The two errors [_parse_json_list] lets through, and a run of
    [process_meeting] that ends in one of them after the request for the
    key points was answered. *)
Example parse_json_list_raises :
  loads many_digits = Raise ValueError
  /\ loads deeply_nested = Raise RecursionError
  /\ _parse_json_list many_digits = Raise ValueError
  /\ _parse_json_list deeply_nested = Raise RecursionError
  /\ map fst (process_meeting answers_many_digits (lit "hello there") []).2
     = [TITLE_PROMPT; SUMMARY_PROMPT; KEY_POINTS_PROMPT].
Proof. split_and!; vm_compute; reflexivity. Qed.

(** ** The transcriber *)

Section MoreTranscriber.

(** X18: when the engine answers, [transcribe_file] returns a text with
    no whitespace at either end (so stripping it again, as [_process_audio]
    does, changes nothing), and one segment per segment of the engine, in
    the same order, with the same start and end and a text stripped
    likewise; missing keys count as the empty text and no segment. *)
Theorem transcribe_file_result whisper path raw :
  whisper path = Ok raw ->
  exists r,
    transcribe_file whisper path = Ok r
    /\ text r = strip (default [] (raw_text raw))
    /\ stripped (text r)
    /\ strip (text r) = text r
    /\ length (segments r) = length (default [] (raw_segments raw))
    /\ Forall (fun s => stripped (s_text s)) (segments r)
    /\ map s_start (segments r) = map seg_start (default [] (raw_segments raw))
    /\ map s_end (segments r) = map seg_end (default [] (raw_segments raw)).
Proof.
  intros H. unfold transcribe_file. rewrite H. eexists. split; [reflexivity |].
  cbn [text segments]. split; [done |]. split; [apply strip_stripped |].
  split; [apply strip_strip |].
  split; [by rewrite length_map |]. split.
  - apply Forall_forall. intros s (seg & -> & _)%list_elem_of_fmap. cbn.
    apply strip_stripped.
  - rewrite !map_map. done.
Qed.

Variable Model : Type.
Variable load_model : str -> result Model.
Variable transcribe : Model -> str -> result raw_transcription.

Lemma transcribe_files_loaded m size paths : forall loads,
  transcribe_files Model load_model transcribe
    {| model_size := size; _model := Some m |} loads paths
  = (map (transcribe_file (transcribe m)) paths,
     {| model_size := size; _model := Some m |}, loads).
Proof.
  induction paths as [| p paths IH]; intros loads; [done |].
  cbn [transcribe_files]. unfold transcribe_file_on, model. cbn [_model].
  by rewrite IH.
Qed.

Lemma transcribe_files_failing e size paths : forall loads,
  load_model size = Raise e ->
  transcribe_files Model load_model transcribe
    {| model_size := size; _model := None |} loads paths
  = (map (fun _ => Raise e) paths,
     {| model_size := size; _model := None |},
     (loads + length paths)%nat).
Proof.
  induction paths as [| p paths IH]; intros loads He.
  - cbn. by rewrite Nat.add_0_r.
  - cbn [transcribe_files]. unfold transcribe_file_on, model.
    cbn [_model model_size]. rewrite He, IH by done. cbn [map length].
    f_equal. lia.
Qed.

(** X19: the model is loaded lazily and kept.  Over any number of calls
    of [transcribe_file] on one [Transcriber], a loader that succeeds is
    called once, at the first call (never if there is none), and every
    call uses the model it returned; a loader that fails is called again at
    every call, each call raises its error, and nothing is cached. *)
Theorem model_is_loaded_once size paths :
  (forall m, load_model size = Ok m ->
     transcribe_files Model load_model transcribe
       {| model_size := size; _model := None |} 0 paths
     = (map (transcribe_file (transcribe m)) paths,
        {| model_size := size;
           _model := match paths with [] => None | _ :: _ => Some m end |},
        match paths with [] => O | _ :: _ => 1%nat end))
  /\ (forall e, load_model size = Raise e ->
     transcribe_files Model load_model transcribe
       {| model_size := size; _model := None |} 0 paths
     = (map (fun _ => Raise e) paths,
        {| model_size := size; _model := None |},
        length paths)).
Proof.
  split.
  - intros m Hm. destruct paths as [| p paths]; [done |].
    cbn [transcribe_files]. unfold transcribe_file_on, model.
    cbn [_model model_size]. rewrite Hm.
    by rewrite transcribe_files_loaded.
  - intros e He. by rewrite (transcribe_files_failing e).
Qed.

End MoreTranscriber.

(** ** The orchestrator, continued *)

Section MoreOrchestrator.
Variable endpoint : list request -> result (option str).
Variable whisper : str -> result raw_transcription.
Variable sf_info : str -> result Q.
Variable now : str.

Lemma new_meeting_fields a t path m :
  new_meeting now a t path = Ok m ->
  id m = None /\ title m = a_title a /\ date m = now /\ transcript m = t
  /\ summary m = a_summary a /\ audio_path m = path
  /\ validate_str_list (a_key_points a) = Ok (key_points m)
  /\ validate_str_list (a_action_items a) = Ok (action_items m).
Proof.
  unfold new_meeting.
  destruct (validate_str_list (a_key_points a)) as [kp |]; [| done].
  destruct (validate_str_list (a_action_items a)) as [ai |]; [| done].
  by intros [= <-].
Qed.

(** The paths of [_process_audio], with the label each one leaves *)
Lemma process_audio_paths path w :
  _process_audio endpoint whisper sf_info now path w
  = if too_short sf_info path then
      (Ok TooShort, set_status (lit "Audio too short") w)
    else
      match transcribe_file whisper path with
      | Raise e => (Raise e, set_status (lit "Processing meeting...") w)
      | Ok result =>
          if negb (truthy (strip (text result))) then
            (Ok NoSpeech, set_status (lit "No speech detected") w)
          else
            match process_meeting endpoint (text result) (chat_log w) with
            | (Raise e, log) =>
                (Raise e,
                 set_chat_log log (set_status (lit "Processing meeting...") w))
            | (Ok ai_result, log) =>
                match new_meeting now ai_result (text result) path with
                | Raise e =>
                    (Raise e,
                     set_chat_log log
                       (set_status (lit "Processing meeting...") w))
                | Ok meeting =>
                    let '(_, meeting', w2) :=
                      db_save_meeting meeting (set_chat_log log w) in
                    (Ok Processed,
                     set_status (lit "Meeting processed!")
                       (set_current_meeting (Some meeting') w2))
                end
            end
      end.
Proof.
  unfold _process_audio. cbv zeta.
  change (chat_log (set_status (lit "Processing meeting...") w))
    with (chat_log w).
  destruct (too_short sf_info path); [done |].
  destruct (transcribe_file whisper path) as [t |]; [| done].
  destruct (negb (truthy (strip (text t)))); [done |].
  destruct (process_meeting endpoint (text t) (chat_log w)) as [[a |] log];
    [| done].
  destruct (new_meeting now a (text t) path) as [m |]; [| done].
  unfold db_save_meeting. cbn [database set_chat_log set_status].
  by destruct (save_meeting m (database w)) as [[i m'] d'].
Qed.

(** X20: a run of [_process_audio] whose steps all succeed (the probe
    does not report less than a second, the engine hears text that is not
    blank, the summarization and the construction of the record succeed)
    ends in [Processed]: one row is added, under an identifier no row had,
    holding the transcript, the path of the audio file and the date of the
    run; the record with that identifier becomes the current meeting; the
    label reads [Meeting processed!]; the files on disk are untouched. *)
Theorem process_audio_success path w t a log m :
  too_short sf_info path = false ->
  transcribe_file whisper path = Ok t ->
  strip (text t) <> [] ->
  process_meeting endpoint (text t) (chat_log w) = (Ok a, log) ->
  new_meeting now a (text t) path = Ok m ->
  exists i,
    rows (database w) !! i = None
    /\ _process_audio endpoint whisper sf_info now path w
       = (Ok Processed,
          {| database := {| rows := <[i := values_of m]> (rows (database w));
                            sequence := i |};
             chat_log := log;
             files := files w;
             current_meeting := Some (set_id m (Some i));
             status := Some (lit "Meeting processed!") |})
    /\ row_count (database (_process_audio endpoint whisper sf_info now path w).2)
       = S (row_count (database w))
    /\ c_transcript (values_of m) = text t
    /\ c_audio_path (values_of m) = path
    /\ c_date (values_of m) = now.
Proof.
  intros Hshort Ht Hs Hp Hm.
  destruct (new_meeting_fields _ _ _ _ Hm) as (Hid & _ & Hd & Htr & _ & Hap & _).
  exists (sql_insert (values_of m) (database w)).1.
  pose proof (sql_insert_fresh (values_of m) (database w)) as Hfresh.
  assert (_process_audio endpoint whisper sf_info now path w
          = (Ok Processed,
             {| database := (sql_insert (values_of m) (database w)).2;
                chat_log := log; files := files w;
                current_meeting :=
                  Some (set_id m (Some (sql_insert (values_of m) (database w)).1));
                status := Some (lit "Meeting processed!") |})) as E.
  { rewrite process_audio_paths, Hshort, Ht.
    destruct (strip (text t)) eqn:Est; [done |]. cbn [truthy negb].
    rewrite Hp, Hm. unfold db_save_meeting. cbn [database set_chat_log].
    rewrite (save_meeting_new m _ Hid). reflexivity. }
  split; [done |]. split; [exact E |]. rewrite E. cbn [snd database].
  split; [| by rewrite <- Htr, <- Hap, <- Hd].
  unfold row_count. cbn [rows sql_insert snd]. by apply map_size_insert_None.
Qed.

(** X21: the duration probe only gates the run.  A duration under one
    second ends the run at once with the label [Audio too short] and
    nothing else changed; otherwise the run is the same whatever the probe
    said: a probe that fails, and any duration of a second or more, give
    the same result and the same state. *)
Theorem probe_only_gates path w :
  (forall d, sf_info path = Ok d -> (d < 1)%Q ->
     _process_audio endpoint whisper sf_info now path w
     = (Ok TooShort, set_status (lit "Audio too short") w))
  /\ (forall sf_info',
        too_short sf_info path = false -> too_short sf_info' path = false ->
        _process_audio endpoint whisper sf_info now path w
        = _process_audio endpoint whisper sf_info' now path w)
  /\ (forall e, sf_info path = Raise e -> too_short sf_info path = false)
  /\ (forall d, sf_info path = Ok d -> (1 <= d)%Q -> too_short sf_info path = false).
Proof.
  split; [| split; [| split]].
  - intros d Hd Hlt. rewrite process_audio_paths. unfold too_short. rewrite Hd.
    destruct (Qle_bool 1 d) eqn:E; [| done].
    apply Qle_bool_iff in E. by apply Qlt_not_le in Hlt.
  - intros sf' H1 H2. unfold _process_audio. by rewrite H1, H2.
  - intros e He. unfold too_short. by rewrite He.
  - intros d Hd Hle. unfold too_short. rewrite Hd.
    apply Qle_bool_iff in Hle. by rewrite Hle.
Qed.

(** X22: what a run of [_process_audio] can change.  It never touches
    the files on disk and only adds to the log of requests; unless it ends
    in [Processed] it leaves the database and the current meeting as they
    were; and when it raises, the status label is the one shown on entry,
    [Processing meeting...]. *)
Theorem unfinished_run_changes_little path w :
  files (_process_audio endpoint whisper sf_info now path w).2 = files w
  /\ (exists sent,
        chat_log (_process_audio endpoint whisper sf_info now path w).2
        = chat_log w ++ sent)
  /\ ((_process_audio endpoint whisper sf_info now path w).1 <> Ok Processed ->
      database (_process_audio endpoint whisper sf_info now path w).2 = database w
      /\ current_meeting (_process_audio endpoint whisper sf_info now path w).2
         = current_meeting w)
  /\ (forall x,
        (_process_audio endpoint whisper sf_info now path w).1 = Raise x ->
        status (_process_audio endpoint whisper sf_info now path w).2
        = Some (lit "Processing meeting...")).
Proof.
  rewrite process_audio_paths.
  destruct (too_short sf_info path).
  { cbn. repeat split; try done. exists []. by rewrite app_nil_r. }
  destruct (transcribe_file whisper path) as [t |].
  2:{ cbn. repeat split; try done. exists []. by rewrite app_nil_r. }
  destruct (negb (truthy (strip (text t)))).
  { cbn. repeat split; try done. exists []. by rewrite app_nil_r. }
  destruct (process_meeting endpoint (text t) (chat_log w)) as [[a |] log] eqn:Hp.
  2:{ destruct (stops_process_meeting endpoint (text t) _ _ _ Hp) as [[sent ->] _].
      cbn. repeat split; try done. eauto. }
  destruct (stops_process_meeting endpoint (text t) _ _ _ Hp) as [[sent ->] _].
  destruct (new_meeting now a (text t) path) as [m |].
  2:{ cbn. repeat split; try done. eauto. }
  unfold db_save_meeting. destruct (save_meeting m _) as [[i m'] d'] eqn:Hs.
  cbn. repeat split; try done. eauto.
Qed.

End MoreOrchestrator.

Section MoreDelete.

(** X23: the delete button, on a listed meeting with identifier [i]:
    the row [i] is removed and the counter kept; the only file that can
    disappear is the one the removed row named, and only when that name is
    not empty; the current meeting is cleared exactly when it carries the
    identifier [i]; the log and the status label are untouched.  When no
    row has the identifier, no file is removed. *)
Theorem on_delete_effect meeting w i :
  id meeting = Some i ->
  rows (database (on_delete meeting w)) = delete i (rows (database w))
  /\ sequence (database (on_delete meeting w)) = sequence (database w)
  /\ (forall q, q ∈ files (on_delete meeting w) <->
        q ∈ files w
        /\ ~ (q <> [] /\ exists row, rows (database w) !! i = Some row
                                   /\ c_audio_path row = q))
  /\ current_meeting (on_delete meeting w)
     = match current_meeting w with
       | Some cur => if bool_decide (id cur = Some i) then None else Some cur
       | None => None
       end
  /\ chat_log (on_delete meeting w) = chat_log w
  /\ status (on_delete meeting w) = status w.
Proof.
  intros Hid. unfold on_delete. rewrite Hid.
  unfold db_delete_meeting, delete_meeting.
  destruct (rows (database w) !! i) as [row |] eqn:Hrow.
  - set (w1 := set_database (sql_delete i (database w)) w).
    destruct (truthy (c_audio_path row) && bool_decide (c_audio_path row ∈ files w1))
      eqn:Hcond.
    + apply andb_true_iff in Hcond as [Htr Hin%bool_decide_eq_true].
      assert (c_audio_path row <> []) as Hne by (by destruct (c_audio_path row)).
      assert (forall q, q ∈ files w ∖ {[c_audio_path row]} <->
                q ∈ files w
                /\ ~ (q <> [] /\ exists row', Some row = Some row'
                                            /\ c_audio_path row' = q)) as Hdrop.
      { intros q. rewrite elem_of_difference, elem_of_singleton. split.
        - intros [Hq Hn]. split; [done |]. by intros (_ & row' & [= <-] & <-).
        - intros [Hq Hn]. split; [done |]. intros ->. apply Hn. eauto. }
      cbn [current_meeting set_files].
      destruct (current_meeting w1) as [cur |] eqn:Hcur; cbn in Hcur; rewrite Hcur.
      * destruct (bool_decide (id cur = Some i)); cbn; split_and!; done.
      * cbn; split_and!; done.
    + assert (forall q, q ∈ files w <->
                q ∈ files w
                /\ ~ (q <> [] /\ exists row', Some row = Some row'
                                            /\ c_audio_path row' = q)) as Hkeep.
      { intros q. split; [| by intros [? ?]].
        intros Hq. split; [done |]. intros (Hne & row' & [= <-] & <-).
        apply andb_false_iff in Hcond as [Hc | Hc].
        - by destruct (c_audio_path row).
        - apply bool_decide_eq_false in Hc. by apply Hc. }
      destruct (current_meeting w1) as [cur |] eqn:Hcur; cbn in Hcur; rewrite Hcur.
      * destruct (bool_decide (id cur = Some i)); cbn; split_and!; done.
      * cbn; split_and!; done.
  - assert (delete i (rows (database w)) = rows (database w)) as ->
      by (by apply delete_id).
    assert (forall q, q ∈ files w <->
              q ∈ files w
              /\ ~ (q <> [] /\ exists row' : columns, None = Some row'
                                          /\ c_audio_path row' = q)) as Hkeep.
    { intros q. split; [| by intros [? ?]].
      intros Hq. split; [done |]. by intros (_ & row' & [=] & _). }
    destruct (current_meeting (set_database (database w) w)) as [cur |] eqn:Hcur;
      cbn in Hcur; rewrite Hcur.
    + destruct (bool_decide (id cur = Some i)); cbn; split_and!; done.
    + cbn; split_and!; done.
Qed.

(** X24: when two rows name the same audio file, deleting one of them
    removes the file and leaves the other row in place, naming a file that
    is no longer there. *)
Theorem on_delete_shared_audio meeting w i j row_i row_j :
  id meeting = Some i -> i <> j ->
  rows (database w) !! i = Some row_i ->
  rows (database w) !! j = Some row_j ->
  c_audio_path row_i = c_audio_path row_j ->
  c_audio_path row_i <> [] ->
  c_audio_path row_i ∈ files w ->
  rows (database (on_delete meeting w)) !! j = Some row_j
  /\ c_audio_path row_j ∉ files (on_delete meeting w).
Proof.
  intros Hid Hij Hi Hj Hsame Hne Hin.
  unfold on_delete. rewrite Hid.
  unfold db_delete_meeting, delete_meeting. rewrite Hi.
  cbn [files set_database].
  assert (truthy (c_audio_path row_i) = true) as ->
    by (by destruct (c_audio_path row_i)).
  rewrite (bool_decide_eq_true_2 _ Hin). cbn [andb].
  assert (delete i (rows (database w)) !! j = Some row_j) as Hkept
    by (by rewrite lookup_delete_ne).
  assert (c_audio_path row_j ∉ files w ∖ {[c_audio_path row_i]}) as Hgone
    by (rewrite <- Hsame; intros [_ Hn]%elem_of_difference; apply Hn;
        by apply elem_of_singleton).
  match goal with |- context [current_meeting ?w1] =>
    destruct (current_meeting w1) as [cur |]
  end; [destruct (bool_decide (id cur = Some i)) |]; by split.
Qed.

End MoreDelete.

(** ** The session state *)

Section MoreSession.

Lemma set_defaults_keeps items : forall state k v,
  state !! k = Some v -> foldl set_default state items !! k = Some v.
Proof.
  induction items as [| [k' v'] items IH]; intros state k v H; [done |].
  cbn [foldl]. apply IH. unfold set_default. cbn [fst snd].
  destruct (state !! k') eqn:E; [done |].
  rewrite lookup_insert_ne; [done |]. intros ->. by rewrite E in H.
Qed.

Lemma set_defaults_other items : forall state k,
  k ∉ items.*1 -> foldl set_default state items !! k = state !! k.
Proof.
  induction items as [| [k' v'] items IH]; intros state k H; [done |].
  cbn [foldl]. rewrite fmap_cons in H. apply not_elem_of_cons in H as [Hk H].
  rewrite IH by done. unfold set_default. cbn [fst snd].
  destruct (state !! k'); [done |]. by rewrite lookup_insert_ne.
Qed.

Lemma set_defaults_missing items : forall state k v,
  NoDup items.*1 -> (k, v) ∈ items -> state !! k = None ->
  foldl set_default state items !! k = Some v.
Proof.
  induction items as [| [k' v'] items IH]; intros state k v Hnd Hin Hk.
  - by apply elem_of_nil in Hin.
  - rewrite fmap_cons in Hnd. apply NoDup_cons in Hnd as [Hfresh Hnd].
    cbn [foldl]. apply elem_of_cons in Hin as [[= -> ->] | Hin].
    + apply set_defaults_keeps. unfold set_default. cbn [fst snd].
      rewrite Hk. by rewrite lookup_insert_eq.
    + assert (k <> k') as Hne.
      { intros ->. apply Hfresh. apply list_elem_of_fmap. by exists (k', v). }
      apply IH; [done | done |]. unfold set_default. cbn [fst snd].
      destruct (state !! k'); [done |]. by rewrite lookup_insert_ne.
Qed.

Lemma set_defaults_present items : forall state,
  (forall k v, (k, v) ∈ items -> is_Some (state !! k)) ->
  foldl set_default state items = state.
Proof.
  induction items as [| [k' v'] items IH]; intros state H; [done |].
  cbn [foldl]. assert (set_default state (k', v') = state) as ->.
  { unfold set_default. cbn [fst snd].
    destruct (H k' v') as [x ->]; [apply elem_of_cons; by left | done]. }
  apply IH. intros k v Hin. apply (H k v). apply elem_of_cons. by right.
Qed.

Lemma defaults_NoDup : NoDup defaults.*1.
Proof.
  unfold defaults. cbn [fmap list_fmap fst].
  repeat (apply NoDup_cons; split;
          [intros Hin; repeat (apply elem_of_cons in Hin as [Hin | Hin];
                               [by vm_compute in Hin |]);
           by apply elem_of_nil in Hin |]).
  apply NoDup_nil_2.
Qed.

(** X25: [init_session_state] only fills in what is missing: a key
    that is set keeps its value (the current meeting survives a rerun of
    the script), a default that is missing is set, other keys are left
    alone, and running it again changes nothing. *)
Theorem init_session_state_keeps state :
  (forall k v, state !! k = Some v -> init_session_state state !! k = Some v)
  /\ (forall k v, (k, v) ∈ defaults -> state !! k = None ->
        init_session_state state !! k = Some v)
  /\ (forall k, k ∉ defaults.*1 ->
        init_session_state state !! k = state !! k)
  /\ init_session_state (init_session_state state) = init_session_state state.
Proof.
  split; [| split; [| split]].
  - intros k v. apply set_defaults_keeps.
  - intros k v. apply set_defaults_missing, defaults_NoDup.
  - intros k. apply set_defaults_other.
  - apply set_defaults_present. intros k v Hin.
    destruct (init_session_state state !! k) as [x |] eqn:E; [eauto |].
    exfalso.
    destruct (state !! k) as [y |] eqn:Ek.
    + pose proof (set_defaults_keeps defaults state k y Ek) as H.
      unfold init_session_state in E. by rewrite E in H.
    + pose proof (set_defaults_missing defaults state k v defaults_NoDup Hin Ek) as H.
      unfold init_session_state in E. by rewrite E in H.
Qed.

End MoreSession.

(** ** The properties at work on the sample data *)

Lemma other_rows_untouched_witness :
  get_meeting 1 (save_meeting python_workshop sample_db).2
  = get_meeting 1 sample_db
  /\ get_meeting 1 (delete_meeting 2 workshop_db).2 = get_meeting 1 workshop_db.
Proof.
  destruct (other_rows_untouched python_workshop sample_db 2 1) as [Hsave _].
  destruct (other_rows_untouched python_workshop workshop_db 2 1) as [_ Hdel].
  split; [apply Hsave | apply Hdel]; by vm_compute.
Defined.

Lemma delete_meeting_again_witness :
  MeetingDatabase.delete_meeting 1 sample_db = Ok (Some [], init_db_after_one)
  /\ MeetingDatabase.delete_meeting 1 init_db_after_one
     = Ok (None, init_db_after_one).
Proof.
  split; [reflexivity |].
  apply (delete_meeting_again 1 sample_db (Some []) init_db_after_one).
  reflexivity.
Defined.

Lemma identifiers_never_reused_witness :
  reachable workshop_db
  /\ (save_meeting sample_meeting workshop_db).1.1 = (sequence workshop_db + 1)%Z
  /\ (2 < (save_meeting sample_meeting (delete_meeting 2 workshop_db).2).1.1)%Z.
Proof.
  split; [exact workshop_db_reachable |].
  destruct (identifiers_never_reused workshop_db workshop_db_reachable)
    as (_ & Hnew & _ & _ & Hdel).
  split.
  - apply (Hnew sample_meeting). reflexivity.
  - apply (Hdel 2%Z sample_meeting); [eexists; vm_compute; reflexivity | reflexivity].
Defined.

Lemma get_all_meetings_complete_witness :
  reachable workshop_db
  /\ exists ms,
       get_all_meetings workshop_db = Ok ms
       /\ length ms = row_count workshop_db
       /\ NoDup (map id ms)
       /\ (forall i, is_Some (rows workshop_db !! i) <-> Some i ∈ map id ms).
Proof.
  split; [exact workshop_db_reachable |].
  exact (get_all_meetings_complete workshop_db workshop_db_reachable).
Defined.

Lemma search_filters_listing_witness :
  exists all,
    get_all_meetings workshop_db = Ok all
    /\ search_meetings (lit "sprint") workshop_db
       = Ok (filter
               (fun m => meeting_like ([37] ++ lit "sprint" ++ [37]) m = true) all)
    /\ search_meetings (N.iter 49999 (cons 97) []) workshop_db
       = Raise OperationalError.
Proof.
  eexists. split; [vm_compute; reflexivity |].
  destruct (search_filters_listing (lit "sprint") workshop_db _ eq_refl)
    as [Hshort _].
  destruct (search_filters_listing (N.iter 49999 (cons 97) []) workshop_db _ eq_refl)
    as [_ Hlong].
  split.
  - apply Hshort. left. vm_compute. reflexivity.
  - apply Hlong; by vm_compute.
Defined.

Lemma search_ignores_case_witness :
  search_meetings (lit "PYTHON") workshop_db
  = search_meetings (lit "python") workshop_db.
Proof.
  apply (search_ignores_case (lit "PYTHON") (lit "python") workshop_db).
  vm_compute. reflexivity.
Defined.

Lemma search_percent_returns_all_witness :
  search_meetings (lit "%") workshop_db = get_all_meetings workshop_db.
Proof.
  apply (search_percent_returns_all (lit "%") workshop_db).
  - vm_compute. by repeat constructor.
  - left. vm_compute. reflexivity.
Defined.

Lemma stored_lists_are_ascii_witness :
  Forall (fun c => printable c = true) (c_key_points (values_of sample_meeting))
  /\ Forall (fun c => printable c = true)
       (c_action_items (values_of sample_meeting)).
Proof.
  apply (stored_lists_are_ascii workshop_db 1 (values_of sample_meeting)).
  - exact workshop_db_reachable.
  - vm_compute. reflexivity.
Defined.

Lemma parse_json_list_embedded_array_witness :
  _parse_json_list
    (lit "Here are the items: " ++ dumps [lit "Ship it"; lit "Fix the bug"]
     ++ lit " Anything else?")
  = Ok (JArr (map JStr [lit "Ship it"; lit "Fix the bug"]))
  /\ validate_str_list (JArr (map JStr [lit "Ship it"; lit "Fix the bug"]))
     = Ok [lit "Ship it"; lit "Fix the bug"].
Proof.
  apply (parse_json_list_embedded_array (lit "Here are the items: ")
           [lit "Ship it"; lit "Fix the bug"] (lit " Anything else?")).
  - by repeat constructor.
  - vm_compute. by repeat constructor.
  - vm_compute. by repeat constructor.
  - vm_compute. by repeat constructor.
Defined.

Lemma fences_are_removed_witness :
  _parse_json_list (FENCE_JSON ++ ([NL] ++ dumps [lit "Ship it"] ++ [NL]) ++ FENCE)
  = Ok (JArr [JStr (lit "Ship it")]).
Proof.
  apply (fences_are_removed ([NL] ++ dumps [lit "Ship it"] ++ [NL])).
  - vm_compute. by repeat constructor.
  - vm_compute. reflexivity.
Defined.

Lemma fallback_lines_shape_witness :
  (length (fallback_lines (lit "1. Ship it" ++ [NL] ++ lit "- Fix the bug "))
   <= length (split_on NL (lit "1. Ship it" ++ [NL] ++ lit "- Fix the bug ")))%nat
  /\ Forall (fun item =>
               Forall (fun c => c <> NL) item
               /\ (forall c, head item = Some c -> mem c BULLETS = false)
               /\ (forall c, last item = Some c -> isspace c = false))
            (fallback_lines (lit "1. Ship it" ++ [NL] ++ lit "- Fix the bug ")).
Proof.
  exact (fallback_lines_shape (lit "1. Ship it" ++ [NL] ++ lit "- Fix the bug ")).
Defined.

Lemma chunk_transcript_partitions_witness :
  (0 < 2)%nat
  /\ concat (map split (_chunk_transcript (words 5) 2)) = split (words 5)
  /\ length (_chunk_transcript (words 5) 2) = ((length (split (words 5)) + 2 - 1) / 2)%nat.
Proof.
  split; [lia |].
  destruct (chunk_transcript_partitions (words 5) 2) as (H1 & H2 & _); [lia |].
  split; [exact H1 | exact H2].
Defined.

Lemma process_meeting_stops_at_first_error_witness :
  process_meeting unreachable (lit "hello there") []
  = (Raise EngineError,
     [] ++ [(TITLE_PROMPT, transcript_message (truncate (lit "hello there")))])
  /\ (process_meeting answers_many_digits (lit "hello there") []).1
     = Raise ValueError
  /\ exists content,
       answers_many_digits
         (process_meeting answers_many_digits (lit "hello there") []).2
       = Ok content
       /\ _parse_json_list (strip (default [] content)) = Raise ValueError.
Proof.
  assert ((process_meeting answers_many_digits (lit "hello there") []).1
          = Raise ValueError) as Hx by (vm_compute; reflexivity).
  split; [| split; [exact Hx |]].
  - destruct (process_meeting_stops_at_first_error unreachable (lit "hello there") [])
      as (_ & _ & H).
    apply (H EngineError). reflexivity.
  - destruct (process_meeting_stops_at_first_error answers_many_digits
                (lit "hello there") []) as (_ & H & _).
    destruct (H ValueError Hx) as [Hraise | [_ Hparse]]; [| exact Hparse].
    discriminate Hraise.
Defined.

Lemma returned_text_is_stripped_witness :
  (generate_title (answers "  Weekly sync  ") (lit "hello there") []).1
  = Ok (lit "Weekly sync")
  /\ stripped (lit "Weekly sync") /\ strip (lit "Weekly sync") = lit "Weekly sync".
Proof.
  split; [vm_compute; reflexivity |].
  apply (returned_text_is_stripped (answers "  Weekly sync  ")
           (lit "hello there") [] [] (lit "Weekly sync")).
  left. vm_compute. reflexivity.
Defined.

Lemma generate_summary_messages_witness :
  responsive (answers "ok")
  /\ (800 < length (split (words 801)))%nat
  /\ exists partial final,
       length partial = ((length (split (words 801)) + 799) / 800)%nat
       /\ (2 <= length partial)%nat
       /\ (forall k c, _chunk_transcript (words 801) MAX_WORDS !! k = Some c ->
             exists content,
               answers "ok"
                 ([] ++ map summary_request
                          (take (S k) (_chunk_transcript (words 801) MAX_WORDS)))
               = Ok content
               /\ partial !! k = Some (strip (default [] content)))
       /\ (exists content,
             answers "ok"
               ([] ++ map summary_request (_chunk_transcript (words 801) MAX_WORDS)
                   ++ [summary_request (join [NL; NL] partial)])
             = Ok content
             /\ final = strip (default [] content))
       /\ generate_summary (answers "ok") (words 801) []
          = (Ok final,
             [] ++ map summary_request (_chunk_transcript (words 801) MAX_WORDS)
                ++ [summary_request (join [NL; NL] partial)]).
Proof.
  assert (800 < length (split (words 801)))%nat as Hn
    by (apply Nat.ltb_lt; vm_compute; reflexivity).
  split; [exact (answers_responsive "ok") |]. split; [exact Hn |].
  destruct (generate_summary_messages (answers "ok") (words 801)) as (_ & _ & H).
  exact (H Hn (answers_responsive "ok") []).
Defined.

Lemma process_meeting_requests_witness :
  responsive (answers "ok")
  /\ parseable_answers (answers "ok")
  /\ exists a sent,
       process_meeting (answers "ok") (words 3) [] = (Ok a, [] ++ sent)
       /\ map fst sent
          = [TITLE_PROMPT; SUMMARY_PROMPT; KEY_POINTS_PROMPT; ACTION_ITEMS_PROMPT].
Proof.
  assert (parseable_answers (answers "ok")) as Hp.
  { intros log content [= <-]. eexists. vm_compute. reflexivity. }
  split; [exact (answers_responsive "ok") |]. split; [exact Hp |].
  destruct (process_meeting_requests (answers "ok") (words 3) []
              (answers_responsive "ok")) as (r & sent & E & Hok & _ & Hret).
  destruct (Hret Hp) as [a ->]. exists a, sent. split; [exact E |].
  apply (Hok a eq_refl). apply Nat.leb_le. vm_compute. reflexivity.
Defined.

Lemma transcribe_file_result_witness :
  exists r,
    transcribe_file (fun _ => Ok two_segments) (lit "uploads/a.wav") = Ok r
    /\ text r = strip (default [] (raw_text two_segments))
    /\ stripped (text r)
    /\ strip (text r) = text r
    /\ length (segments r) = length (default [] (raw_segments two_segments))
    /\ Forall (fun s => stripped (s_text s)) (segments r)
    /\ map s_start (segments r)
       = map seg_start (default [] (raw_segments two_segments))
    /\ map s_end (segments r)
       = map seg_end (default [] (raw_segments two_segments)).
Proof.
  apply (transcribe_file_result (fun _ => Ok two_segments) (lit "uploads/a.wav")
           two_segments).
  reflexivity.
Defined.

Lemma model_is_loaded_once_witness :
  transcribe_files unit (fun _ => Ok tt) (fun _ => hears "hello")
    {| model_size := lit "base"; _model := None |} 0
    [lit "a.wav"; lit "b.wav"; lit "c.wav"]
  = (map (transcribe_file (hears "hello")) [lit "a.wav"; lit "b.wav"; lit "c.wav"],
     {| model_size := lit "base"; _model := Some tt |}, 1%nat).
Proof.
  destruct (model_is_loaded_once unit (fun _ => Ok tt) (fun _ => hears "hello")
              (lit "base") [lit "a.wav"; lit "b.wav"; lit "c.wav"]) as [H _].
  apply (H tt). reflexivity.
Defined.

Lemma process_audio_success_witness :
  exists t a log m,
    transcribe_file (hears "hello there") (lit "uploads/a.wav") = Ok t
    /\ process_meeting (answers "ok") (text t) (chat_log empty_world) = (Ok a, log)
    /\ new_meeting (lit "2024-03-01 09:00") a (text t) (lit "uploads/a.wav") = Ok m
    /\ exists i,
         rows (database empty_world) !! i = None
         /\ _process_audio (answers "ok") (hears "hello there") (lasts 5)
              (lit "2024-03-01 09:00") (lit "uploads/a.wav") empty_world
            = (Ok Processed,
               {| database :=
                    {| rows := <[i := values_of m]> (rows (database empty_world));
                       sequence := i |};
                  chat_log := log;
                  files := files empty_world;
                  current_meeting := Some (set_id m (Some i));
                  status := Some (lit "Meeting processed!") |})
         /\ row_count
              (database
                 (_process_audio (answers "ok") (hears "hello there") (lasts 5)
                    (lit "2024-03-01 09:00") (lit "uploads/a.wav") empty_world).2)
            = S (row_count (database empty_world))
         /\ c_transcript (values_of m) = text t
         /\ c_audio_path (values_of m) = lit "uploads/a.wav"
         /\ c_date (values_of m) = lit "2024-03-01 09:00".
Proof.
  eexists _, _, _, _.
  split; [vm_compute; reflexivity |].
  split; [vm_compute; reflexivity |].
  split; [vm_compute; reflexivity |].
  eapply (process_audio_success (answers "ok") (hears "hello there") (lasts 5)
           (lit "2024-03-01 09:00") (lit "uploads/a.wav") empty_world).
  - vm_compute. reflexivity.
  - vm_compute. reflexivity.
  - by vm_compute.
  - vm_compute. reflexivity.
  - vm_compute. reflexivity.
Defined.

Lemma probe_only_gates_witness :
  _process_audio (answers "ok") (hears "hello there") unreadable
    (lit "2024-03-01 09:00") (lit "uploads/a.wav") empty_world
  = _process_audio (answers "ok") (hears "hello there") (lasts 5)
      (lit "2024-03-01 09:00") (lit "uploads/a.wav") empty_world
  /\ _process_audio (answers "ok") (hears "hello there") (lasts (1 # 2))
       (lit "2024-03-01 09:00") (lit "uploads/a.wav") empty_world
     = (Ok TooShort, set_status (lit "Audio too short") empty_world).
Proof.
  split.
  - destruct (probe_only_gates (answers "ok") (hears "hello there") unreadable
                (lit "2024-03-01 09:00") (lit "uploads/a.wav") empty_world)
      as (_ & H & _).
    apply (H (lasts 5)); reflexivity.
  - destruct (probe_only_gates (answers "ok") (hears "hello there")
                (lasts (1 # 2)) (lit "2024-03-01 09:00") (lit "uploads/a.wav")
                empty_world) as (H & _).
    apply (H (1 # 2)%Q); reflexivity.
Defined.

Lemma unfinished_run_changes_little_witness :
  (_process_audio unreachable (hears "hello there") (lasts 5)
     (lit "2024-03-01 09:00") (lit "uploads/a.wav") sample_world).1
  = Raise EngineError
  /\ status
       (_process_audio unreachable (hears "hello there") (lasts 5)
          (lit "2024-03-01 09:00") (lit "uploads/a.wav") sample_world).2
     = Some (lit "Processing meeting...")
  /\ database
       (_process_audio unreachable (hears "hello there") (lasts 5)
          (lit "2024-03-01 09:00") (lit "uploads/a.wav") sample_world).2
     = database sample_world.
Proof.
  destruct (unfinished_run_changes_little unreachable (hears "hello there")
              (lasts 5) (lit "2024-03-01 09:00") (lit "uploads/a.wav")
              sample_world) as (_ & _ & Hdb & Hst).
  split; [vm_compute; reflexivity |]. split.
  - apply (Hst EngineError). vm_compute. reflexivity.
  - apply Hdb. by vm_compute.
Defined.

Lemma on_delete_effect_witness :
  id (set_id recorded_meeting (Some 1%Z)) = Some 1%Z
  /\ rows (database (on_delete (set_id recorded_meeting (Some 1%Z)) recorded_world))
     = delete 1%Z (rows (database recorded_world))
  /\ lit "uploads/a.wav"
     ∉ files (on_delete (set_id recorded_meeting (Some 1%Z)) recorded_world).
Proof.
  split; [reflexivity |].
  destruct (on_delete_effect (set_id recorded_meeting (Some 1%Z)) recorded_world
              1%Z eq_refl) as (Hrows & _ & Hfiles & _).
  split; [exact Hrows |].
  intros [_ Hn]%Hfiles. apply Hn. split; [done |].
  exists (values_of recorded_meeting). split; [vm_compute; reflexivity | reflexivity].
Defined.

Lemma on_delete_shared_audio_witness :
  rows (database (on_delete (set_id recorded_meeting (Some 1%Z)) shared_world))
    !! 2%Z
  = Some (values_of second_take)
  /\ c_audio_path (values_of second_take)
     ∉ files (on_delete (set_id recorded_meeting (Some 1%Z)) shared_world).
Proof.
  apply (on_delete_shared_audio (set_id recorded_meeting (Some 1%Z)) shared_world
           1%Z 2%Z (values_of recorded_meeting) (values_of second_take)).
  - reflexivity.
  - lia.
  - vm_compute. reflexivity.
  - vm_compute. reflexivity.
  - reflexivity.
  - by vm_compute.
  - unfold shared_world. cbn [files]. by apply elem_of_singleton.
Defined.

Lemma init_session_state_keeps_witness :
  init_session_state
    (<[lit "current_meeting" := SMeeting (Some sample_meeting)]> ∅)
  !! lit "current_meeting"
  = Some (SMeeting (Some sample_meeting))
  /\ init_session_state
       (<[lit "current_meeting" := SMeeting (Some sample_meeting)]> ∅)
     !! lit "processing"
     = Some (SFlag false).
Proof.
  destruct (init_session_state_keeps
              (<[lit "current_meeting" := SMeeting (Some sample_meeting)]> ∅))
    as (Hkeep & Hnew & _).
  split.
  - apply Hkeep. apply lookup_insert_eq.
  - apply Hnew.
    + unfold defaults. do 2 (apply elem_of_cons; right). apply elem_of_cons. by left.
    + rewrite lookup_insert_ne by (by vm_compute). apply lookup_empty.
Defined.
